(** * The scene editor of the ray tracer: registry, synchronisation and codec

    A shallow embedding of [editor/main.js].  The editor keeps a list of
    entities (spheres, cubes, point lights); every entity owns a three.js
    node ([mesh]) and a canonical record ([data]) that is written to the
    scene document.  The embedding follows the event handlers of the file:
    every handler is a function on [State].

    Conventions of the embedding.
    - A JavaScript number is a value of [num]: a finite value is an exact
      rational, [NaN] and the two infinities are explicit.  Rounding to
      binary64 and the sign of zero are not represented.
    - Entity objects have reference identity in JavaScript.  The embedding
      keeps every entity object ever allocated in [heap]; a reference is an
      index into that list.  [entities], [selectedEntity] and the gizmo hold
      references, so an update made through one alias is seen through all.
    - three.js and the DOM are represented by the part of their state the
      handlers read or write: position, scale, base geometry and material
      colour of a node, the children of the scene, the node attached to the
      gizmo, the options of the object list (not which one is shown as
      chosen), the contents of the JSON text area, and a log of the
      [dispose] calls.  Calls to [render] are not represented, nor is the
      navigation camera, which OrbitControls drives: the 'Sync from view'
      event carries the values the handler reads from it.
    - The built-in parsers [parseFloat], [Number] and [parseInt] are
      parameters of the handlers; the import event carries the outcome of
      [JSON.parse]. *)

From Stdlib Require Import QArith Qcanon Qcabs Qround ZArith Ascii String.
From stdpp Require Import base tactics list strings numbers pretty.

(** ** JavaScript numbers *)

Inductive num : Type :=
  | Fin (q : Qc)
  | NaN
  | PInf
  | NInf.

#[global] Instance num_eq_dec : EqDecision num.
Proof. solve_decision. Defined.

(** The literal [n/d], e.g. [lit 533 1000] for [0.533]. *)
Definition lit (n : Z) (d : positive) : num := Fin (Q2Qc (n # d)).
Definition int (n : Z) : num := lit n 1.

Definition Number_isNaN (v : num) : bool :=
  match v with NaN => true | _ => false end.

Definition Number_isFinite (v : num) : bool :=
  match v with Fin _ => true | _ => false end.

(** Truthiness of a number in a condition: [0] and [NaN] are falsy. *)
Definition truthy (v : num) : bool :=
  match v with
  | Fin q => negb (bool_decide (q = 0%Qc))
  | NaN => false
  | PInf | NInf => true
  end.

Definition js_neg (a : num) : num :=
  match a with
  | Fin q => Fin (- q)%Qc
  | NaN => NaN
  | PInf => NInf
  | NInf => PInf
  end.

Definition js_add (a b : num) : num :=
  match a, b with
  | NaN, _ | _, NaN => NaN
  | Fin p, Fin q => Fin (p + q)%Qc
  | PInf, NInf | NInf, PInf => NaN
  | PInf, _ | _, PInf => PInf
  | NInf, _ | _, NInf => NInf
  end.

Definition js_sub (a b : num) : num := js_add a (js_neg b).

(** An infinity with the sign of [q]; [NaN] when [q] is zero. *)
Definition inf_signed (q : Qc) (pos neg : num) : num :=
  match (q ?= 0)%Qc with
  | Gt => pos
  | Lt => neg
  | Eq => NaN
  end.

Definition js_mul (a b : num) : num :=
  match a, b with
  | NaN, _ | _, NaN => NaN
  | Fin p, Fin q => Fin (p * q)%Qc
  | Fin p, PInf | PInf, Fin p => inf_signed p PInf NInf
  | Fin p, NInf | NInf, Fin p => inf_signed p NInf PInf
  | PInf, PInf | NInf, NInf => PInf
  | PInf, NInf | NInf, PInf => NInf
  end.

Definition js_div (a b : num) : num :=
  match a, b with
  | NaN, _ | _, NaN => NaN
  | Fin p, Fin q =>
      if bool_decide (q = 0%Qc) then inf_signed p PInf NInf else Fin (p / q)%Qc
  | Fin _, (PInf | NInf) => Fin 0%Qc
  | PInf, Fin q => if bool_decide (q < 0)%Qc then NInf else PInf
  | NInf, Fin q => if bool_decide (q < 0)%Qc then PInf else NInf
  | (PInf | NInf), (PInf | NInf) => NaN
  end.

(** The comparison [a < b]; false as soon as one side is [NaN]. *)
Definition js_lt (a b : num) : bool :=
  match a, b with
  | NaN, _ | _, NaN => false
  | Fin p, Fin q => bool_decide (p < q)%Qc
  | NInf, (Fin _ | PInf) => true
  | Fin _, PInf => true
  | _, _ => false
  end.

Definition js_le (a b : num) : bool :=
  match a, b with
  | NaN, _ | _, NaN => false
  | _, _ => negb (js_lt b a)
  end.

Definition Math_max (a b : num) : num :=
  match a, b with
  | NaN, _ | _, NaN => NaN
  | _, _ => if js_lt a b then b else a
  end.

Definition Math_min (a b : num) : num :=
  match a, b with
  | NaN, _ | _, NaN => NaN
  | _, _ => if js_lt b a then b else a
  end.

(** [Math.round]: the nearest integer, halves towards plus infinity. *)
Definition Math_round (a : num) : num :=
  match a with
  | Fin q => int (Qfloor (q + Q2Qc (1 # 2))%Qc)
  | _ => a
  end.


(** ToInt32, the conversion applied to the operands of [>>] and [&]. *)
Definition ToInt32 (a : num) : Z :=
  match a with
  | Fin q =>
      let t := Z.quot (Qnum q) (Zpos (Qden q)) in
      ((t + 2 ^ 31) mod 2 ^ 32 - 2 ^ 31)%Z
  | _ => 0%Z
  end.

(** ** Vectors and colours *)

Record Vector3 : Type := mkVector3 { v_x : num; v_y : num; v_z : num }.
Record Color : Type := mkColor { c_r : num; c_g : num; c_b : num }.

#[global] Instance Vector3_eq_dec : EqDecision Vector3.
Proof. solve_decision. Defined.
#[global] Instance Color_eq_dec : EqDecision Color.
Proof. solve_decision. Defined.

(** A three-element array of a scene document. *)
Definition arr3 : Type := num * num * num.

Definition vec (a b c : num) : Vector3 := mkVector3 a b c.

(** [vector.set(a[0], a[1], a[2])]. *)
Definition vec_of_arr (a : arr3) : Vector3 :=
  let '(a0, a1, a2) := a in mkVector3 a0 a1 a2.

Definition toArray (vector : Vector3) : arr3 :=
  (v_x vector, v_y vector, v_z vector).

Definition colorToArray (color : Color) : arr3 :=
  (c_r color, c_g color, c_b color).

Definition clamp01 (value : num) : num :=
  Math_max (int 0) (Math_min (int 1) value).

Inductive Axis : Type := AxisX | AxisY | AxisZ.

(** [axisUpdater(axis, value)]: [vector[axis] = value]. *)
Definition axisUpdater (axis : Axis) (value : num) (vector : Vector3) : Vector3 :=
  match axis with
  | AxisX => mkVector3 value (v_y vector) (v_z vector)
  | AxisY => mkVector3 (v_x vector) value (v_z vector)
  | AxisZ => mkVector3 (v_x vector) (v_y vector) value
  end.

(** ** three.js nodes *)

Inductive Geometry : Type :=
  | SphereGeometry (radius : num)
  | BoxGeometry (width height depth : num).

#[global] Instance Geometry_eq_dec : EqDecision Geometry.
Proof. solve_decision. Defined.

(** The argument a [THREE.Color] was built from or last set to. *)
Inductive ColorArg : Type :=
  | ColorHex (hex : Z)              (* a number such as 0x88ccff *)
  | ColorStyle (style : string)     (* a CSS string such as "#88ccff" *)
  | ColorRGB (r g b : num).         (* three channels *)

#[global] Instance ColorArg_eq_dec : EqDecision ColorArg.
Proof. solve_decision. Defined.

(** A [THREE.Mesh] or [THREE.Group]: a group has neither geometry nor
    material. *)
Record Mesh : Type := mkMesh {
  m_position : Vector3;
  m_scale : Vector3;
  m_geometry : option Geometry;
  m_material : option ColorArg;
}.

#[global] Instance Mesh_eq_dec : EqDecision Mesh.
Proof. solve_decision. Defined.

Record PointLight : Type := mkPointLight {
  pl_position : Vector3;
  pl_color : ColorArg;
}.

#[global] Instance PointLight_eq_dec : EqDecision PointLight.
Proof. solve_decision. Defined.

(** ** Entities *)

Inductive EntityData : Type :=
  | SphereData (center : Vector3) (radius : num) (color : Color)
  | CubeData (center : Vector3) (size : Vector3) (color : Color)
  | LightData (position : Vector3) (intensity : Color) (direction : Vector3).

#[global] Instance EntityData_eq_dec : EqDecision EntityData.
Proof. solve_decision. Defined.

Record Entity : Type := mkEntity {
  e_id : string;
  e_label : string;
  e_mesh : Mesh;
  e_helper : option Mesh;        (* the marker of a light *)
  e_light : option PointLight;   (* the emitter of a light *)
  e_data : EntityData;
}.

#[global] Instance Entity_eq_dec : EqDecision Entity.
Proof. solve_decision. Defined.

(** [entity.kind]; the tag and the shape of [data] are fixed together when
    the entity is built. *)
Definition kind (e : Entity) : string :=
  match e_data e with
  | SphereData _ _ _ => "sphere"
  | CubeData _ _ _ => "cube"
  | LightData _ _ _ => "light"
  end.

Definition set_mesh (m : Mesh) (e : Entity) : Entity :=
  mkEntity (e_id e) (e_label e) m (e_helper e) (e_light e) (e_data e).
Definition set_helper (h : option Mesh) (e : Entity) : Entity :=
  mkEntity (e_id e) (e_label e) (e_mesh e) h (e_light e) (e_data e).
Definition set_light (p : option PointLight) (e : Entity) : Entity :=
  mkEntity (e_id e) (e_label e) (e_mesh e) (e_helper e) p (e_data e).
Definition set_data (d : EntityData) (e : Entity) : Entity :=
  mkEntity (e_id e) (e_label e) (e_mesh e) (e_helper e) (e_light e) d.

Definition set_position (p : Vector3) (m : Mesh) : Mesh :=
  mkMesh p (m_scale m) (m_geometry m) (m_material m).
Definition set_scale (s : Vector3) (m : Mesh) : Mesh :=
  mkMesh (m_position m) s (m_geometry m) (m_material m).
Definition set_material (c : ColorArg) (m : Mesh) : Mesh :=
  mkMesh (m_position m) (m_scale m) (m_geometry m) (Some c).

(** ** Scene documents

    The value handed to [loadSceneFromJson] and returned by
    [buildSceneJson].  A field that may be absent is an [option]; a record
    is told apart by its [type] tag; field order plays no role.  A field
    that is present has the type of the schema: an array of three numbers
    for a vector or a colour, a number for a radius, a field of view, a
    width or a height.  The other values [JSON.parse] can return ([null],
    arrays of another length, fields of another type) are not
    represented. *)

Record CameraDoc : Type := mkCameraDoc {
  cam_position : option arr3;
  cam_look_at : option arr3;
  cam_up : option arr3;
  cam_fov : option num;
  cam_width : option num;
  cam_height : option num;
}.

#[global] Instance CameraDoc_eq_dec : EqDecision CameraDoc.
Proof. solve_decision. Defined.

Inductive ObjectDoc : Type :=
  | SphereDoc (center : option arr3) (radius : num) (color : option arr3)
  | CubeDoc (min max : option arr3) (color : option arr3)
  | OtherObject (type : string).   (* any other [type] tag *)

#[global] Instance ObjectDoc_eq_dec : EqDecision ObjectDoc.
Proof. solve_decision. Defined.

Inductive LightDoc : Type :=
  | PointDoc (position : option arr3) (intensity direction : option (list num))
  | OtherLight (type : string).    (* any other [type] tag *)

#[global] Instance LightDoc_eq_dec : EqDecision LightDoc.
Proof. solve_decision. Defined.

Record Document : Type := mkDocument {
  doc_camera : option CameraDoc;
  doc_objects : option (list ObjectDoc);
  doc_lights : option (list LightDoc);
}.

#[global] Instance Document_eq_dec : EqDecision Document.
Proof. solve_decision. Defined.

(** ** The state of the editor *)

Record CameraState : Type := mkCameraState {
  cs_position : Vector3;
  cs_lookAt : Vector3;
  cs_up : Vector3;
  cs_fov : num;
  cs_width : num;
  cs_height : num;
}.

#[global] Instance CameraState_eq_dec : EqDecision CameraState.
Proof. solve_decision. Defined.

(** A reference to an entity object: its index in [heap]. *)
Abbreviation loc := nat.

(** A three.js resource, named by the entity that owns the node. *)
Inductive Resource : Type :=
  | MeshGeometry (owner : loc)
  | MeshMaterial (owner : loc)
  | HelperGeometry (owner : loc)
  | HelperMaterial (owner : loc).

#[global] Instance Resource_eq_dec : EqDecision Resource.
Proof. solve_decision. Defined.

Record State : Type := mkState {
  heap : list Entity;                 (* every entity object, by reference *)
  entities : list loc;                (* const entities = [] *)
  selectedEntity : option loc;        (* let selectedEntity = null *)
  idCounter : N;                      (* let idCounter = 1 *)
  cameraState : CameraState;
  scene_children : list loc;          (* entity meshes added to the scene *)
  transform_object : option loc;      (* the mesh attached to the gizmo *)
  objectList_options : list string;   (* the values of the options *)
  entityEditor_hidden : bool;
  entityForm : option loc;            (* the entity the form fields are bound to *)
  sceneJsonText : Document;           (* the document shown in the text area *)
  disposed : list Resource;           (* log of dispose() calls, oldest first *)
  alerts : list string;               (* log of alert() calls, oldest first *)
}.

#[global] Instance State_eq_dec : EqDecision State.
Proof. solve_decision. Defined.

Definition set_heap (h : list Entity) (st : State) : State :=
  mkState h (entities st) (selectedEntity st) (idCounter st) (cameraState st)
    (scene_children st) (transform_object st) (objectList_options st) (entityEditor_hidden st) (entityForm st)
    (sceneJsonText st) (disposed st) (alerts st).
Definition set_entities (l : list loc) (st : State) : State :=
  mkState (heap st) l (selectedEntity st) (idCounter st) (cameraState st)
    (scene_children st) (transform_object st) (objectList_options st) (entityEditor_hidden st) (entityForm st)
    (sceneJsonText st) (disposed st) (alerts st).
Definition set_selectedEntity (s : option loc) (st : State) : State :=
  mkState (heap st) (entities st) s (idCounter st) (cameraState st)
    (scene_children st) (transform_object st) (objectList_options st) (entityEditor_hidden st) (entityForm st)
    (sceneJsonText st) (disposed st) (alerts st).
Definition set_idCounter (n : N) (st : State) : State :=
  mkState (heap st) (entities st) (selectedEntity st) n (cameraState st)
    (scene_children st) (transform_object st) (objectList_options st) (entityEditor_hidden st) (entityForm st)
    (sceneJsonText st) (disposed st) (alerts st).
Definition set_cameraState (c : CameraState) (st : State) : State :=
  mkState (heap st) (entities st) (selectedEntity st) (idCounter st) c
    (scene_children st) (transform_object st) (objectList_options st) (entityEditor_hidden st) (entityForm st)
    (sceneJsonText st) (disposed st) (alerts st).
Definition set_scene_children (c : list loc) (st : State) : State :=
  mkState (heap st) (entities st) (selectedEntity st) (idCounter st) (cameraState st)
    c (transform_object st) (objectList_options st) (entityEditor_hidden st) (entityForm st)
    (sceneJsonText st) (disposed st) (alerts st).
Definition set_transform_object (t : option loc) (st : State) : State :=
  mkState (heap st) (entities st) (selectedEntity st) (idCounter st) (cameraState st)
    (scene_children st) t (objectList_options st) (entityEditor_hidden st) (entityForm st)
    (sceneJsonText st) (disposed st) (alerts st).
Definition set_objectList_options (o : list string) (st : State) : State :=
  mkState (heap st) (entities st) (selectedEntity st) (idCounter st) (cameraState st)
    (scene_children st) (transform_object st) o (entityEditor_hidden st) (entityForm st)
    (sceneJsonText st) (disposed st) (alerts st).
Definition set_entityEditor_hidden (b : bool) (st : State) : State :=
  mkState (heap st) (entities st) (selectedEntity st) (idCounter st) (cameraState st)
    (scene_children st) (transform_object st) (objectList_options st) b (entityForm st)
    (sceneJsonText st) (disposed st) (alerts st).
Definition set_entityForm (f : option loc) (st : State) : State :=
  mkState (heap st) (entities st) (selectedEntity st) (idCounter st) (cameraState st)
    (scene_children st) (transform_object st) (objectList_options st) (entityEditor_hidden st) f
    (sceneJsonText st) (disposed st) (alerts st).
Definition set_sceneJsonText (d : Document) (st : State) : State :=
  mkState (heap st) (entities st) (selectedEntity st) (idCounter st) (cameraState st)
    (scene_children st) (transform_object st) (objectList_options st) (entityEditor_hidden st) (entityForm st)
    d (disposed st) (alerts st).
Definition set_disposed (d : list Resource) (st : State) : State :=
  mkState (heap st) (entities st) (selectedEntity st) (idCounter st) (cameraState st)
    (scene_children st) (transform_object st) (objectList_options st) (entityEditor_hidden st) (entityForm st)
    (sceneJsonText st) d (alerts st).
Definition set_alerts (a : list string) (st : State) : State :=
  mkState (heap st) (entities st) (selectedEntity st) (idCounter st) (cameraState st)
    (scene_children st) (transform_object st) (objectList_options st) (entityEditor_hidden st) (entityForm st)
    (sceneJsonText st) (disposed st) a.

(** Update of the entity object behind a reference. *)
Definition update (l : loc) (f : Entity → Entity) (st : State) : State :=
  set_heap (alter f l (heap st)) st.

(** ** The handlers of the editor *)

Section Editor.

(** The built-in parsers. *)
Variable parseFloat : string → num.
Variable js_Number : string → num.              (* Number(text) *)
Variable parseInt16 : string → num.             (* parseInt(text, 16) *)

Definition lookup_entity (l : loc) (st : State) : option Entity := heap st !! l.

(** The entity objects of [entities], in order. *)
Definition live (st : State) : list Entity :=
  omap (λ l, lookup_entity l st) (entities st).

Definition generateId (prefix : string) (st : State) : string * State :=
  let st := set_idCounter (idCounter st + 1) st in
  (prefix +:+ "-" +:+ pretty (idCounter st), st).

(** *** Export *)

Definition object_record (entity : Entity) : option ObjectDoc :=
  match e_data entity with
  | SphereData center radius color =>
      Some (SphereDoc (Some (toArray center)) radius (Some (colorToArray color)))
  | CubeData center size color =>
      let half := mkVector3 (js_div (v_x size) (int 2)) (js_div (v_y size) (int 2))
                            (js_div (v_z size) (int 2)) in
      let min := (js_sub (v_x center) (v_x half), js_sub (v_y center) (v_y half),
                  js_sub (v_z center) (v_z half)) in
      let max := (js_add (v_x center) (v_x half), js_add (v_y center) (v_y half),
                  js_add (v_z center) (v_z half)) in
      Some (CubeDoc (Some min) (Some max) (Some (colorToArray color)))
  | LightData _ _ _ => None
  end.

Definition light_record (entity : Entity) : option LightDoc :=
  match e_data entity with
  | LightData position intensity direction =>
      Some (PointDoc (Some (toArray position))
              (Some [c_r intensity; c_g intensity; c_b intensity])
              (Some [v_x direction; v_y direction; v_z direction]))
  | _ => None
  end.

Definition camera_record (c : CameraState) : CameraDoc :=
  mkCameraDoc (Some (toArray (cs_position c))) (Some (toArray (cs_lookAt c)))
    (Some (toArray (cs_up c))) (Some (cs_fov c)) (Some (cs_width c))
    (Some (cs_height c)).

Definition buildSceneJson (st : State) : Document :=
  mkDocument (Some (camera_record (cameraState st)))
    (Some (omap object_record (live st)))
    (Some (omap light_record (live st))).

Definition refreshSceneJson (st : State) : State :=
  set_sceneJsonText (buildSceneJson st) st.

(** *** Selection *)

Definition find_entity (id : string) (st : State) : option loc :=
  List.find
    (λ l, match lookup_entity l st with
          | Some e => bool_decide (e_id e = id)
          | None => false
          end)
    (entities st).

Definition refreshEntityForm (st : State) : State :=
  let st := set_entityForm None st in
  match selectedEntity st with
  | None => set_entityEditor_hidden true st
  | Some entity => set_entityForm (Some entity) st
  end.

(** [selectEntity(id)]; [None] stands for [selectEntity(null)]. *)
Definition selectEntity (id : option string) (st : State) : State :=
  let entity := id ≫= (λ i, find_entity i st) in
  let st := set_selectedEntity entity st in
  match entity with
  | None => set_entityEditor_hidden true (set_transform_object None st)
  | Some l =>
      let st := set_entityEditor_hidden false st in
      let st := refreshEntityForm st in
      set_transform_object (Some l) st
  end.

Definition addListItem (entity : Entity) (st : State) : State :=
  set_objectList_options (objectList_options st ++ [e_id entity]) st.

(** *** Creation *)

(** [entities.push(entity)] for a new object: it gets the next reference. *)
Definition push_entity (entity : Entity) (st : State) : State :=
  let l := length (heap st) in
  let st := set_heap (heap st ++ [entity]) st in
  set_entities (entities st ++ [l]) st.

(** [scene.add(mesh)] for the mesh of the entity allocated next. *)
Definition scene_add_next (st : State) : State :=
  set_scene_children (scene_children st ++ [length (heap st)]) st.

Definition ones : Vector3 := vec (int 1) (int 1) (int 1).
Definition origin : Vector3 := vec (int 0) (int 0) (int 0).

(** The entity object [createSphereEntity] builds, given its id. *)
Definition newSphereEntity (id : string) : Entity :=
  let radius := int 1 in
  let mesh := mkMesh (vec (int 0) radius (int 0)) ones
                (Some (SphereGeometry radius)) (Some (ColorHex 0x88ccff)) in
  mkEntity id "Sphere" mesh None None
    (SphereData (m_position mesh) radius
       (mkColor (lit 533 1000) (lit 8 10) (lit 10 10))).

Definition createSphereEntity (st : State) : State :=
  let st := scene_add_next st in
  let '(id, st) := generateId "sphere" st in
  let entity := newSphereEntity id in
  let st := push_entity entity st in
  let st := addListItem entity st in
  let st := selectEntity (Some (e_id entity)) st in
  refreshSceneJson st.

(** The entity object [createCubeEntity] builds, given its id. *)
Definition newCubeEntity (id : string) : Entity :=
  let size := lit 15 10 in
  let mesh := mkMesh (vec (int 0) (js_div size (int 2)) (int 0)) ones
                (Some (BoxGeometry size size size)) (Some (ColorHex 0xffc164)) in
  mkEntity id "Cube" mesh None None
    (CubeData (m_position mesh) (mkVector3 size size size)
       (mkColor (lit 10 10) (lit 761 1000) (lit 392 1000))).

Definition createCubeEntity (st : State) : State :=
  let st := scene_add_next st in
  let '(id, st) := generateId "cube" st in
  let entity := newCubeEntity id in
  let st := push_entity entity st in
  let st := addListItem entity st in
  let st := selectEntity (Some (e_id entity)) st in
  refreshSceneJson st.

(** The marker and the emitter of a light, as both creation paths build
    them. *)
Definition light_marker : Mesh :=
  mkMesh origin ones (Some (SphereGeometry (lit 12 100))) (Some (ColorHex 0xffffaa)).
Definition light_point : PointLight := mkPointLight origin (ColorHex 0xffffff).

(** The entity object [createLightEntity] builds, given its id. *)
Definition newLightEntity (id : string) : Entity :=
  let marker := light_marker in
  let point := light_point in
  let group := mkMesh (vec (int 3) (int 5) (int 3)) ones None None in
  mkEntity id "Point Light" group (Some marker) (Some point)
    (LightData (m_position group)
       (mkColor (lit 10 10) (lit 10 10) (lit 10 10))
       (mkVector3 (lit 0 10) (lit (-10) 10) (lit 0 10))).

Definition createLightEntity (st : State) : State :=
  let st := scene_add_next st in
  let '(id, st) := generateId "light" st in
  let entity := newLightEntity id in
  let st := push_entity entity st in
  let st := addListItem entity st in
  let st := selectEntity (Some (e_id entity)) st in
  refreshSceneJson st.

(** *** Removal *)

(** [a.splice(a.indexOf(v), 1)] when [v] occurs in [a]. *)
Fixpoint remove_first (v : loc) (a : list loc) : list loc :=
  match a with
  | [] => []
  | w :: a' => if bool_decide (w = v) then a' else w :: remove_first v a'
  end.

Definition dispose_node (m : Mesh) (geometry material : Resource) : list Resource :=
  (match m_geometry m with Some _ => [geometry] | None => [] end) ++
  (match m_material m with Some _ => [material] | None => [] end).

(** [disposeObject(entity.mesh)]: the node itself, then its children.  No
    node of the editor has a [texture] property. *)
Definition disposeObject (l : loc) (entity : Entity) : list Resource :=
  dispose_node (e_mesh entity) (MeshGeometry l) (MeshMaterial l) ++
  match e_helper entity with
  | Some marker => dispose_node marker (HelperGeometry l) (HelperMaterial l)
  | None => []
  end.

Definition removeEntity (l : loc) (st : State) : State :=
  match lookup_entity l st with
  | None => st
  | Some entity =>
      let st := set_entities (remove_first l (entities st)) st in
      let st := set_scene_children (remove_first l (scene_children st)) st in
      let st := set_disposed (disposed st ++ disposeObject l entity) st in
      let st :=
        set_objectList_options
          (filter (λ value, value ≠ e_id entity) (objectList_options st)) st in
      let st :=
        match selectedEntity st ≫= (λ s, lookup_entity s st) with
        | Some selected =>
            if bool_decide (e_id selected = e_id entity)
            then set_entityEditor_hidden true
                   (set_transform_object None (set_selectedEntity None st))
            else st
        | None => st
        end in
      refreshSceneJson st
  end.

(** The click handler of the delete button. *)
Definition deleteClick (st : State) : State :=
  match selectedEntity st with
  | None => st
  | Some toRemove => removeEntity toRemove (selectEntity None st)
  end.

(** *** Position: the node is written first, the record is read back *)

(** What [setEntityPosition] does to the selected entity object. *)
Definition moveEntity (updateFn : Vector3 → Vector3) (e : Entity) : Entity :=
  let vector := m_position (e_mesh e) in
  let updated := updateFn vector in
  let e := set_mesh (set_position updated (e_mesh e)) e in
  match e_data e with
  | SphereData _ radius color =>
      set_data (SphereData (m_position (e_mesh e)) radius color) e
  | CubeData _ size color =>
      set_data (CubeData (m_position (e_mesh e)) size color) e
  | LightData _ intensity direction =>
      let e := set_light
                 (option_map (λ p, mkPointLight origin (pl_color p)) (e_light e)) e in
      let e := set_helper (option_map (set_position origin) (e_helper e)) e in
      set_data (LightData (m_position (e_mesh e)) intensity direction) e
  end.

Definition setEntityPosition (updateFn : Vector3 → Vector3) (st : State) : State :=
  match selectedEntity st with
  | None => st
  | Some l => refreshSceneJson (update l (moveEntity updateFn) st)
  end.

Definition updateEntityFromTransform (entity : Entity) : Entity :=
  match e_data entity with
  | LightData _ intensity direction =>
      set_data (LightData (m_position (e_mesh entity)) intensity direction) entity
  | SphereData _ radius color =>
      set_data (SphereData (m_position (e_mesh entity)) radius color) entity
  | CubeData _ size color =>
      set_data (CubeData (m_position (e_mesh entity)) size color) entity
  end.

(** The [objectChange] listener of the gizmo. *)
Definition objectChange (st : State) : State :=
  match selectedEntity st with
  | None => st
  | Some l =>
      let st := update l updateEntityFromTransform st in
      let st := refreshEntityForm st in
      refreshSceneJson st
  end.

(** *** The fields of the property form *)

Inductive Channel : Type := ChannelR | ChannelG | ChannelB.

Inductive NumberField : Type :=
  | PositionField (axis : Axis)
  | RadiusField
  | SizeField (axis : Axis)          (* Width, Height, Depth *)
  | IntensityField (channel : Channel)
  | DirectionField (axis : Axis).

(** The callback of the Radius field of [entity]. *)
Definition onRadiusChange (value : num) (e : Entity) : Entity :=
  match e_data e with
  | SphereData center _ color =>
      let radius := Math_max (lit 1 10) value in
      let uniformScale := js_div radius (lit 10 10) in
      let mesh := set_scale (vec uniformScale uniformScale uniformScale) (e_mesh e) in
      let mesh := set_position (axisUpdater AxisY (v_y center) (m_position mesh)) mesh in
      set_mesh mesh (set_data (SphereData center radius color) e)
  | _ => e
  end.

(** The callbacks of the Width, Height and Depth fields. *)
Definition onSizeChange (axis : Axis) (value : num) (e : Entity) : Entity :=
  match e_data e, m_geometry (e_mesh e) with
  | CubeData center size color, Some (BoxGeometry width height depth) =>
      let s := Math_max (lit 1 10) value in
      let size := axisUpdater axis s size in
      let parameter := match axis with AxisX => width | AxisY => height | AxisZ => depth end in
      let scale := axisUpdater axis (js_div s parameter) (m_scale (e_mesh e)) in
      set_mesh (set_scale scale (e_mesh e)) (set_data (CubeData center size color) e)
  | _, _ => e
  end.

Definition set_channel (channel : Channel) (value : num) (c : Color) : Color :=
  match channel with
  | ChannelR => mkColor value (c_g c) (c_b c)
  | ChannelG => mkColor (c_r c) value (c_b c)
  | ChannelB => mkColor (c_r c) (c_g c) value
  end.

(** The callbacks of the intensity fields R, G and B. *)
Definition onIntensityChange (channel : Channel) (value : num) (e : Entity) : Entity :=
  match e_data e with
  | LightData position intensity direction =>
      let intensity := set_channel channel (Math_max (int 0) value) intensity in
      let e := set_data (LightData position intensity direction) e in
      set_light
        (option_map
           (λ p, mkPointLight (pl_position p)
                   (ColorRGB (c_r intensity) (c_g intensity) (c_b intensity)))
           (e_light e))
        e
  | _ => e
  end.

(** The callbacks of the direction fields X, Y and Z. *)
Definition onDirectionChange (axis : Axis) (value : num) (e : Entity) : Entity :=
  match e_data e with
  | LightData position intensity direction =>
      set_data (LightData position intensity (axisUpdater axis value direction)) e
  | _ => e
  end.

Definition slice1 (s : string) : string :=
  match s with
  | EmptyString => EmptyString
  | String _ s' => s'
  end.

Definition hexToColor (hex : string) : Color :=
  let value := ToInt32 (parseInt16 (slice1 hex)) in
  mkColor (js_div (int (Z.land (Z.shiftr value 16) 255)) (int 255))
          (js_div (int (Z.land (Z.shiftr value 8) 255)) (int 255))
          (js_div (int (Z.land value 255)) (int 255)).

(** The callback of the colour field of a sphere or a cube. *)
Definition onColorChange (hex : string) (e : Entity) : Entity :=
  match e_data e with
  | SphereData center radius _ =>
      set_mesh (set_material (ColorStyle hex) (e_mesh e))
        (set_data (SphereData center radius (hexToColor hex)) e)
  | CubeData center size _ =>
      set_mesh (set_material (ColorStyle hex) (e_mesh e))
        (set_data (CubeData center size (hexToColor hex)) e)
  | LightData _ _ _ => e
  end.

(** The callback [onChange] a number field of the form was built with.  The
    position fields go through [setEntityPosition], which reads
    [selectedEntity]; the other callbacks hold the entity the form was built
    for. *)
Definition onChange (field : NumberField) (entity : loc) (value : num) (st : State) : State :=
  match field with
  | PositionField axis => setEntityPosition (axisUpdater axis value) st
  | RadiusField => refreshSceneJson (update entity (onRadiusChange value) st)
  | SizeField axis => refreshSceneJson (update entity (onSizeChange axis value) st)
  | IntensityField channel =>
      refreshSceneJson (update entity (onIntensityChange channel value) st)
  | DirectionField axis =>
      refreshSceneJson (update entity (onDirectionChange axis value) st)
  end.

(** Whether the form built for [e] has the field. *)
Definition has_field (field : NumberField) (e : Entity) : bool :=
  match field, e_data e with
  | PositionField _, _ => true
  | RadiusField, SphereData _ _ _ => true
  | SizeField _, CubeData _ _ _ => true
  | IntensityField _, LightData _ _ _ => true
  | DirectionField _, LightData _ _ _ => true
  | _, _ => false
  end.

(** The entity a visible form is bound to. *)
Definition form_entity (st : State) : option (loc * Entity) :=
  if entityEditor_hidden st then None
  else entityForm st ≫= (λ l, (λ e, (l, e)) <$> lookup_entity l st).

(** The [change] listener [createNumberField] installs: [input_value] is
    the [value] the input hands out, which is parsed and committed. *)
Definition numberFieldChange (field : NumberField) (input_value : string) (st : State) : State :=
  match form_entity st with
  | Some (l, e) =>
      if has_field field e then
        let parsed := parseFloat input_value in
        if negb (Number_isNaN parsed) then onChange field l parsed st else st
      else st
  | None => st
  end.

(** The [input] listener [createColorField] installs. *)
Definition colorFieldInput (input_value : string) (st : State) : State :=
  match form_entity st with
  | Some (l, e) =>
      match e_data e with
      | LightData _ _ _ => st      (* the form of a light has no colour field *)
      | _ => refreshSceneJson (update l (onColorChange input_value) st)
      end
  | None => st
  end.

(** three.js moving the node of an entity during a drag. *)
Definition dragMesh (p : Vector3) (e : Entity) : Entity :=
  set_mesh (set_position p (e_mesh e)) e.

(** A drag frame of the gizmo: three.js moves the attached node, then fires
    [objectChange]. *)
Definition gizmoDrag (p : Vector3) (st : State) : State :=
  match transform_object st with
  | None => st
  | Some l => objectChange (update l (dragMesh p) st)
  end.

(** The [change] listener of a transform radio button that became checked. *)
Definition transformRadioChange (value : string) (st : State) : State :=
  match selectedEntity st with
  | None => st
  | Some l =>
      if bool_decide (value = "translate")
      then set_transform_object (Some l) st
      else set_transform_object None st
  end.

(** The [pointerdown] listener: [hit] is the entity owning the nearest node
    the ray meets, if any; only nodes of entities in the list are tested. *)
Definition pointerDown (hit : option loc) (st : State) : State :=
  match hit with
  | Some l =>
      if bool_decide (l ∈ entities st) then
        match lookup_entity l st with
        | Some e => selectEntity (Some (e_id e)) st
        | None => st
        end
      else st
  | None => st
  end.

(** *** The camera form *)

Definition parseNumber (value : string) (fallback : num) : num :=
  let parsed := js_Number value in
  if Number_isFinite parsed then parsed else fallback.

Record CameraForm : Type := mkCameraForm {
  f_posX : string; f_posY : string; f_posZ : string;
  f_lookX : string; f_lookY : string; f_lookZ : string;
  f_upX : string; f_upY : string; f_upZ : string;
  f_fov : string; f_width : string; f_height : string;
}.

Definition updateCameraStateFromForm (formData : CameraForm) (st : State) : State :=
  let c := cameraState st in
  let position :=
    vec (parseNumber (f_posX formData) (v_x (cs_position c)))
        (parseNumber (f_posY formData) (v_y (cs_position c)))
        (parseNumber (f_posZ formData) (v_z (cs_position c))) in
  let lookAt :=
    vec (parseNumber (f_lookX formData) (v_x (cs_lookAt c)))
        (parseNumber (f_lookY formData) (v_y (cs_lookAt c)))
        (parseNumber (f_lookZ formData) (v_z (cs_lookAt c))) in
  let up :=
    vec (parseNumber (f_upX formData) (v_x (cs_up c)))
        (parseNumber (f_upY formData) (v_y (cs_up c)))
        (parseNumber (f_upZ formData) (v_z (cs_up c))) in
  let fov := parseNumber (f_fov formData) (cs_fov c) in
  let width := Math_max (int 1) (Math_round (parseNumber (f_width formData) (cs_width c))) in
  let height := Math_max (int 1) (Math_round (parseNumber (f_height formData) (cs_height c))) in
  refreshSceneJson (set_cameraState (mkCameraState position lookAt up fov width height) st).

(** The click handler of the 'Focus origin' button: the target of the
    navigation and [cameraState.lookAt] are set to the origin. *)
Definition focusOrigin (st : State) : State :=
  let c := cameraState st in
  refreshSceneJson
    (set_cameraState
       (mkCameraState (cs_position c) (vec (int 0) (int 0) (int 0)) (cs_up c) (cs_fov c)
          (cs_width c) (cs_height c))
       st).

(** What the 'Sync from view' handler reads from the navigation camera:
    [camera.position], [orbit.target], [camera.up] and [camera.fov]. *)
Record View : Type := mkView {
  view_position : Vector3;
  view_target : Vector3;
  view_up : Vector3;
  view_fov : num;
}.

(** The click handler of the 'Sync from view' button: position, look-at
    point, up vector and field of view are copied from the navigation
    camera; width and height stay.  The texts the handler then writes into
    the camera form are those of [populateCameraForm]. *)
Definition syncFromView (view : View) (st : State) : State :=
  let c := cameraState st in
  refreshSceneJson
    (set_cameraState
       (mkCameraState (view_position view) (view_target view) (view_up view)
          (view_fov view) (cs_width c) (cs_height c))
       st).

(** *** Import

    [loadSceneFromJson] can fail half-way with a [TypeError]; the state
    reached so far stays.  [Exec] threads the state and the completion. *)

Inductive Completion (A : Type) : Type :=
  | Normal (a : A)
  | Throw (error : string).
#[global] Arguments Normal {A} a.
#[global] Arguments Throw {A} error.

Definition Exec (A : Type) : Type := State → Completion A * State.

Definition ret {A} (a : A) : Exec A := λ st, (Normal a, st).
Definition throw {A} (error : string) : Exec A := λ st, (Throw error, st).
Definition bind {A B} (m : Exec A) (k : A → Exec B) : Exec B :=
  λ st, match m st with
        | (Normal a, st') => k a st'
        | (Throw error, st') => (Throw error, st')
        end.
Definition modify (f : State → State) : Exec unit := λ st, (Normal tt, f st).
Definition call {A} (f : State → A * State) : Exec A :=
  λ st, let '(a, st') := f st in (Normal a, st').

Notation "x <- m ;; k" := (bind m (λ x, k))
  (at level 100, m at next level, right associativity).
Notation "m ;;; k" := (bind m (λ _, k))
  (at level 100, right associativity).

(** Reading an element or spreading a field that is [undefined]. *)
Definition defined {A} (field : option A) : Exec A :=
  match field with
  | Some a => ret a
  | None => throw "TypeError"
  end.

(** [for (const x of xs) body(x)], left at the first exception. *)
Fixpoint for_of {A} (xs : list A) (body : A → Exec unit) : Exec unit :=
  match xs with
  | [] => ret tt
  | x :: xs' => body x ;;; for_of xs' body
  end.

Definition with_camera (f : CameraState → CameraState) : Exec unit :=
  modify (λ st, set_cameraState (f (cameraState st)) st).

Definition loadCamera (cam : CameraDoc) : Exec unit :=
  position <- defined (cam_position cam) ;;
  with_camera (λ c, mkCameraState (vec_of_arr position) (cs_lookAt c) (cs_up c)
                      (cs_fov c) (cs_width c) (cs_height c)) ;;;
  look_at <- defined (cam_look_at cam) ;;
  with_camera (λ c, mkCameraState (cs_position c) (vec_of_arr look_at) (cs_up c)
                      (cs_fov c) (cs_width c) (cs_height c)) ;;;
  match cam_up cam with
  | Some up =>
      with_camera (λ c, mkCameraState (cs_position c) (cs_lookAt c) (vec_of_arr up)
                          (cs_fov c) (cs_width c) (cs_height c))
  | None => ret tt
  end ;;;
  match cam_fov cam with
  | Some fov =>
      if truthy fov
      then with_camera (λ c, mkCameraState (cs_position c) (cs_lookAt c) (cs_up c)
                               fov (cs_width c) (cs_height c))
      else ret tt
  | None => ret tt
  end ;;;
  match cam_width cam with
  | Some width =>
      if truthy width
      then with_camera (λ c, mkCameraState (cs_position c) (cs_lookAt c) (cs_up c)
                               (cs_fov c) width (cs_height c))
      else ret tt
  | None => ret tt
  end ;;;
  match cam_height cam with
  | Some height =>
      if truthy height
      then with_camera (λ c, mkCameraState (cs_position c) (cs_lookAt c) (cs_up c)
                               (cs_fov c) (cs_width c) height)
      else ret tt
  | None => ret tt
  end.

Definition color_of_arr (a : arr3) : Color :=
  let '(a0, a1, a2) := a in mkColor a0 a1 a2.

Definition color_arg_of_arr (a : arr3) : ColorArg :=
  let '(a0, a1, a2) := a in ColorRGB a0 a1 a2.

(** The entity object built for a sphere record. *)
Definition loadedSphereEntity (id : string) (center : arr3) (radius : num)
    (spread : arr3) : Entity :=
  let material := color_arg_of_arr spread in
  let mesh := mkMesh (vec_of_arr center) ones (Some (SphereGeometry (int 1)))
                (Some material) in
  let entity :=
    mkEntity id "Sphere" mesh None None
      (SphereData (m_position mesh) radius (color_of_arr spread)) in
  let scale := radius in
  set_mesh (set_scale (vec scale scale scale) mesh) entity.

(** The entity object built for a cube record. *)
Definition loadedCubeEntity (id : string) (min max spread : arr3) : Entity :=
  let '(min0, min1, min2) := min in
  let '(max0, max1, max2) := max in
  let width := js_sub max0 min0 in
  let height := js_sub max1 min1 in
  let depth := js_sub max2 min2 in
  let material := color_arg_of_arr spread in
  let center :=
    (js_div (js_add min0 max0) (int 2), js_div (js_add min1 max1) (int 2),
     js_div (js_add min2 max2) (int 2)) in
  let mesh := mkMesh (vec_of_arr center) ones (Some (BoxGeometry width height depth))
                (Some material) in
  mkEntity id "Cube" mesh None None
    (CubeData (m_position mesh) (mkVector3 width height depth) (color_of_arr spread)).

Definition loadObject (obj : ObjectDoc) : Exec unit :=
  match obj with
  | SphereDoc center radius color =>
      spread <- defined color ;;
      center <- defined center ;;
      id <- call (generateId "sphere") ;;
      let entity := loadedSphereEntity id center radius spread in
      modify scene_add_next ;;;
      modify (push_entity entity) ;;;
      modify (addListItem entity)
  | CubeDoc min max color =>
      max <- defined max ;;
      min <- defined min ;;
      spread <- defined color ;;
      id <- call (generateId "cube") ;;
      let entity := loadedCubeEntity id min max spread in
      modify scene_add_next ;;;
      modify (push_entity entity) ;;;
      modify (addListItem entity)
  | OtherObject _ => ret tt
  end.

(** [array?.[i] ?? fallback]. *)
Definition element_or (array : option (list num)) (i : nat) (fallback : num) : num :=
  match array with
  | Some a => default fallback (a !! i)
  | None => fallback
  end.

(** The entity object built for a point light record. *)
Definition loadedLightEntity (id : string) (position : option arr3)
    (intensity direction : option (list num)) : Entity :=
  let marker := light_marker in
  let point := light_point in
  let position := default (int 0, int 5, int 0) position in
  let group := mkMesh (vec_of_arr position) ones None None in
  let intensity :=
    mkColor (element_or intensity 0 (lit 10 10)) (element_or intensity 1 (lit 10 10))
            (element_or intensity 2 (lit 10 10)) in
  let direction :=
    mkVector3 (element_or direction 0 (lit 0 10)) (element_or direction 1 (lit (-10) 10))
              (element_or direction 2 (lit 0 10)) in
  let point :=
    mkPointLight (pl_position point)
      (ColorRGB (c_r intensity) (c_g intensity) (c_b intensity)) in
  mkEntity id "Point Light" group (Some marker) (Some point)
    (LightData (m_position group) intensity direction).

Definition loadLight (lightData : LightDoc) : Exec unit :=
  match lightData with
  | PointDoc position intensity direction =>
      modify scene_add_next ;;;
      id <- call (generateId "light") ;;
      let entity := loadedLightEntity id position intensity direction in
      modify (push_entity entity) ;;;
      modify (addListItem entity)
  | OtherLight _ => ret tt
  end.

Definition entity_id (l : loc) (st : State) : option string :=
  e_id <$> lookup_entity l st.

Definition loadSceneFromJson (data : Document) : Exec unit :=
  (* Clear existing entities *)
  modify (λ st, foldl (λ st entity, removeEntity entity st) st (entities st)) ;;;
  match doc_camera data with
  | Some cam => loadCamera cam
  | None => ret tt
  end ;;;
  match doc_objects data with
  | Some objects => for_of objects loadObject
  | None => ret tt
  end ;;;
  match doc_lights data with
  | Some lights => for_of lights loadLight
  | None => ret tt
  end ;;;
  modify (λ st,
            match last (entities st) with
            | Some l => selectEntity (entity_id l st) st
            | None => selectEntity None st
            end) ;;;
  modify refreshSceneJson.

(** The [onload] callback of the file reader.  [parsed] is the outcome of
    [JSON.parse(reader.result)], [None] when it throws a SyntaxError and a
    scene document otherwise; any exception ends in the alert. *)
Definition importOnLoad (parsed : option Document) (st : State) : State :=
  match parsed with
  | None => set_alerts (alerts st ++ ["Failed to parse scene JSON"]) st
  | Some data =>
      match loadSceneFromJson data st with
      | (Normal _, st') => st'
      | (Throw _, st') => set_alerts (alerts st' ++ ["Failed to parse scene JSON"]) st'
      end
  end.

(** ** Events and runs *)

Inductive Event : Type :=
  | AddSphere
  | AddCube
  | AddLight
  | ObjectListChange (value : string)
  | PointerDown (hit : option loc)
  | DeleteClick
  | NumberFieldChange (field : NumberField) (input_value : string)
  | ColorFieldInput (input_value : string)
  | GizmoDrag (p : Vector3)
  | TransformRadioChange (value : string)
  | CameraFormChange (formData : CameraForm)
  | FocusOriginClick
  | SyncFromViewClick (view : View)
  | ImportLoaded (parsed : option Document).

Definition step (ev : Event) (st : State) : State :=
  match ev with
  | AddSphere => createSphereEntity st
  | AddCube => createCubeEntity st
  | AddLight => createLightEntity st
  | ObjectListChange value => selectEntity (Some value) st
  | PointerDown hit => pointerDown hit st
  | DeleteClick => deleteClick st
  | NumberFieldChange field input_value => numberFieldChange field input_value st
  | ColorFieldInput input_value => colorFieldInput input_value st
  | GizmoDrag p => gizmoDrag p st
  | TransformRadioChange value => transformRadioChange value st
  | CameraFormChange formData => updateCameraStateFromForm formData st
  | FocusOriginClick => focusOrigin st
  | SyncFromViewClick view => syncFromView view st
  | ImportLoaded parsed => importOnLoad parsed st
  end.

(** The events are handled one after the other, each to completion. *)
Definition run (evs : list Event) (st : State) : State :=
  foldl (λ st ev, step ev st) st evs.

(** The state once the script has run: no entity, nothing selected, the
    counter at 1, the camera of the initial view. *)
Definition initial_camera : CameraState :=
  mkCameraState (vec (int 8) (int 6) (int 8)) (vec (int 0) (int 1) (int 0))
    (vec (int 0) (int 1) (int 0)) (int 60) (int 640) (int 480).

Definition initial_state : State :=
  selectEntity None
    (refreshSceneJson
       (mkState [] [] None 1%N initial_camera [] None [] true None
          (mkDocument None None None) [] [])).

End Editor.

(** ** The built-in parsers on plain literals

    A reading of [parseFloat], [Number] and [parseInt(_, 16)] on decimal and
    hexadecimal literals and on [Infinity], used to run the handlers on
    concrete texts.  A finite result is exact; a magnitude of
    [2^1024 - 2^970] or more, which is nearer to [2^1024] than to the
    largest finite number, is read as an infinity. *)

Definition is_space (c : ascii) : bool :=
  let n := nat_of_ascii c in
  (n =? 32) || (n =? 9) || (n =? 10) || (n =? 11) || (n =? 12) || (n =? 13).

Fixpoint skip_spaces (s : string) : string :=
  match s with
  | String c s' => if is_space c then skip_spaces s' else s
  | EmptyString => s
  end.

(** Whether a minus sign was read, and the rest. *)
Definition read_sign (s : string) : bool * string :=
  match s with
  | String "-" s' => (true, s')
  | String "+" s' => (false, s')
  | _ => (false, s)
  end.

Definition digit_value (base : N) (c : ascii) : option N :=
  let n := N_of_ascii c in
  let d :=
    if (48 <=? n)%N && (n <=? 57)%N then Some (n - 48)%N
    else if (97 <=? n)%N && (n <=? 102)%N then Some (n - 87)%N
    else if (65 <=? n)%N && (n <=? 70)%N then Some (n - 55)%N
    else None in
  match d with
  | Some v => if (v <? base)%N then Some v else None
  | None => None
  end.

(** The digits at the front of [s]: their value, their number, the rest. *)
Fixpoint read_digits (base : N) (s : string) (acc : N) (count : nat) : N * nat * string :=
  match s with
  | String c s' =>
      match digit_value base c with
      | Some d => read_digits base s' (base * acc + d)%N (S count)
      | None => (acc, count, s)
      end
  | EmptyString => (acc, count, s)
  end.

Definition read_exponent (s : string) : Z * string :=
  match s with
  | String c s' =>
      if (nat_of_ascii c =? 101) || (nat_of_ascii c =? 69) then
        let '(negative, s1) := read_sign s' in
        let '(e, count, s2) := read_digits 10 s1 0 0 in
        match count with
        | O => (0%Z, s)
        | _ => ((if negative then - Z.of_N e else Z.of_N e)%Z, s2)
        end
      else (0%Z, s)
  | EmptyString => (0%Z, s)
  end.

(** An unsigned decimal literal at the front of [s], and the rest. *)
Definition read_decimal (s : string) : option (Qc * string) :=
  let '(i, ni, s1) := read_digits 10 s 0 0 in
  let '(f, nf, s2) :=
    match s1 with
    | String "." s' => read_digits 10 s' 0 0
    | _ => (0%N, O, s1)
    end in
  match (ni + nf)%nat with
  | O => None
  | _ =>
      let '(e, s3) := read_exponent s2 in
      let numerator := (Z.of_N (i * 10 ^ N.of_nat nf + f) * 10 ^ Z.max e 0)%Z in
      let denominator := Z.to_pos (10 ^ Z.of_nat nf * 10 ^ Z.max (- e) 0) in
      Some (Q2Qc (numerator # denominator), s3)
  end.

Definition overflow (negative : bool) (q : Qc) : num :=
  if bool_decide (Q2Qc (inject_Z (2 ^ 1024 - 2 ^ 970)) ≤ q)%Qc
  then (if negative then NInf else PInf)
  else Fin (if negative then - q else q)%Qc.

Definition decimal_parseFloat (text : string) : num :=
  let '(negative, s) := read_sign (skip_spaces text) in
  if String.prefix "Infinity" s then (if negative then NInf else PInf)
  else match read_decimal s with
       | Some (q, _) => overflow negative q
       | None => NaN
       end.

Definition decimal_Number (text : string) : num :=
  let s := skip_spaces text in
  match s with
  | EmptyString => int 0
  | _ =>
      let '(negative, s) := read_sign s in
      if String.prefix "Infinity" s
      then match skip_spaces (String.substring 8 (String.length s) s) with
           | EmptyString => if negative then NInf else PInf
           | _ => NaN
           end
      else match read_decimal s with
           | Some (q, rest) =>
               match skip_spaces rest with
               | EmptyString => overflow negative q
               | _ => NaN
               end
           | None => NaN
           end
  end.

Definition hex_parseInt (text : string) : num :=
  let '(negative, s) := read_sign (skip_spaces text) in
  let s :=
    match s with
    | String "0" (String c s') =>
        if (nat_of_ascii c =? 120) || (nat_of_ascii c =? 88) then s' else s
    | _ => s
    end in
  let '(v, count, _) := read_digits 16 s 0 0 in
  match count with
  | O => NaN
  | _ => int (if negative then - Z.of_N v else Z.of_N v)
  end.

(** ** The number input

    The fields [createNumberField] builds are inputs of type number
    ([input.type = "number"]).  The [value] such a control hands out is
    the text put into it when that text is a valid floating-point number
    with a finite value, and the empty string otherwise. *)






(** ** binary64

    The numbers of JavaScript are the binary64 values: [NaN], the two
    infinities, and the finite values [m * 2^e] with [|m| < 2^53] and
    [-1074 <= e <= 971].  The arithmetic above does not round its results
    to binary64; what follows tells the values that are binary64 values and
    gives the rounding, for the statements that depend on it. *)

(** The odd part of a positive number. *)
Fixpoint odd_part (p : positive) : positive :=
  match p with
  | xO p' => odd_part p'
  | _ => p
  end.

(** Whether a number is a binary64 value.  A finite one is a fraction
    whose denominator is a power of two up to [2^1074], whose numerator has
    an odd part below [2^53], and which is below [2^1024]. *)
Definition binary64 (v : num) : bool :=
  match v with
  | Fin q =>
      match Qnum q with
      | Z0 => true
      | Zpos n | Zneg n =>
          (odd_part (Qden q) =? 1)%positive && (Z.log2 (Zpos (Qden q)) <=? 1074)%Z &&
          (Zpos (odd_part n) <? 2 ^ 53)%Z && (Zpos n <? 2 ^ 1024 * Zpos (Qden q))%Z
      end
  | _ => true
  end.

(** The integer nearest to [a / b], for [b > 0]; the even one of two. *)
Definition round_half_even (a b : Z) : Z :=
  let q := (a / b)%Z in
  match (2 * (a mod b) ?= b)%Z with
  | Lt => q
  | Gt => (q + 1)%Z
  | Eq => if Z.even q then q else (q + 1)%Z
  end.

(** [(n / d) / 2^e] as a fraction of integers. *)
Definition scaled (n d e : Z) : Z * Z :=
  if (0 <=? e)%Z then (n, d * 2 ^ e)%Z else (n * 2 ^ (- e), d)%Z.

(** The exponent of the last place of a binary64 value near [n / d], for
    [n, d > 0]: the [e] with [2^52 <= (n / d) / 2^e < 2^53], and -1074 for
    the values too small for it. *)
Definition last_place (n d : Z) : Z :=
  let e := (Z.log2 n - Z.log2 d - 52)%Z in
  let '(a, b) := scaled n d e in
  let e := if (a <? 2 ^ 52 * b)%Z then (e - 1)%Z else e in
  Z.max e (-1074).

(** Rounding to binary64: the nearest value, the one with the even
    significand of two, an infinity from [2^1024 - 2^970] on. *)
Definition round64 (q : Qc) : num :=
  match Qnum q with
  | Z0 => Fin q
  | _ =>
      let negative := (Qnum q <? 0)%Z in
      let n := Z.abs (Qnum q) in
      let d := Zpos (Qden q) in
      let e := last_place n d in
      let '(a, b) := scaled n d e in
      let m := round_half_even a b in
      if (0 <=? e)%Z && (2 ^ 1024 <=? m * 2 ^ e)%Z
      then (if negative then NInf else PInf)
      else
        let m := if negative then (- m)%Z else m in
        Fin (Q2Qc (if (0 <=? e)%Z then (m * 2 ^ e) # 1 else m # Z.to_pos (2 ^ (- e))))
  end.

Definition to_binary64 (v : num) : num :=
  match v with
  | Fin q => round64 q
  | _ => v
  end.

(** [Number(text)] on the literals [decimal_Number] reads, as a binary64
    value. *)
Definition binary64_Number (text : string) : num :=
  to_binary64 (decimal_Number text).

(** * Properties *)

(** ** Vocabulary of the statements *)

(** The entity that owns the node of a resource. *)
Definition owner (r : Resource) : loc :=
  match r with
  | MeshGeometry l | MeshMaterial l | HelperGeometry l | HelperMaterial l => l
  end.

(** The structural invariant of the registry: the list holds distinct, valid
    references; the selection is in the list; the gizmo is attached to the
    selection; a visible form is bound to the selection; nothing released
    belongs to an entity of the list. *)
Record wf (st : State) : Prop := mk_wf {
  wf_bound : ∀ l, l ∈ entities st → l < length (heap st);
  wf_nodup : NoDup (entities st);
  wf_selected : ∀ l, selectedEntity st = Some l → l ∈ entities st;
  wf_gizmo : ∀ l, transform_object st = Some l → selectedEntity st = Some l;
  wf_form : entityEditor_hidden st = false →
            entityForm st = selectedEntity st ∧ is_Some (selectedEntity st);
  wf_disposed : ∀ r, r ∈ disposed st →
                owner r < length (heap st) ∧ owner r ∉ entities st;
}.

(** Two states with the same structure, as far as [wf] reads it. *)
Record same_core (st st' : State) : Prop := mk_same_core {
  sc_heap : length (heap st') = length (heap st);
  sc_entities : entities st' = entities st;
  sc_selected : selectedEntity st' = selectedEntity st;
  sc_gizmo : transform_object st' = transform_object st;
  sc_hidden : entityEditor_hidden st' = entityEditor_hidden st;
  sc_form : entityForm st' = entityForm st;
  sc_disposed : disposed st' = disposed st;
}.


(** [m] keeps [I], whether it returns or throws. *)
Definition preserves (I : State → Prop) {A} (m : Exec A) : Prop :=
  ∀ st, I st → I (snd (m st)).


(** The first step of [loadSceneFromJson]: every entity of the list is
    removed. *)
Definition clear_entities (st : State) : State :=
  foldl (λ st entity, removeEntity entity st) st (entities st).

(** What an invariant has to survive, besides the loading of the records,
    to hold after an import. *)
Record import_stable (I : State → Prop) : Prop := mk_import_stable {
  is_clear : ∀ st, I st → I (clear_entities st);
  is_select : ∀ id st, I st → I (selectEntity id st);
  is_refresh : ∀ st, I st → I (refreshSceneJson st);
  is_alert : ∀ a st, I st → I (set_alerts a st);
}.

(** What the handlers may change of the identifiers: the ids of the entity
    objects, in allocation order, and the counter. *)
Definition id_view (st : State) : list string * N :=
  (e_id <$> heap st, idCounter st).

Definition prefixes : list string := ["sphere"; "cube"; "light"].

(** One more object, named by [generateId prefix]. *)
Definition alloc (v : list string * N) (prefix : string) : list string * N :=
  (v.1 ++ [prefix +:+ "-" +:+ pretty (v.2 + 1)%N], (v.2 + 1)%N).

Definition grows_from (v0 : list string * N) (st : State) : Prop :=
  ∃ ps, Forall (λ p, p ∈ prefixes) ps ∧ id_view st = foldl alloc v0 ps.


(** The editor run with the literal parsers, for concrete runs. *)
Definition editor_step : Event → State → State :=
  step decimal_parseFloat decimal_Number hex_parseInt.
Definition editor_run : list Event → State → State :=
  run decimal_parseFloat decimal_Number hex_parseInt.

(** The state an import is left in when the camera block has no [position]
    or no [look_at]: the list has been cleared, and a [position] that was
    present has been stored. *)
Definition aborted_import (cam : CameraDoc) (st : State) : State :=
  match cam_position cam with
  | None => clear_entities st
  | Some position =>
      let c := cameraState st in
      set_cameraState
        (mkCameraState (vec_of_arr position) (cs_lookAt c) (cs_up c) (cs_fov c)
           (cs_width c) (cs_height c))
        (clear_entities st)
  end.

(** [P] holds of every entity object allocated so far. *)
Definition all_entities (P : Entity → Prop) (st : State) : Prop :=
  Forall P (heap st).

(** The imports a run may contain, for an invariant of the entity objects:
    the object and light records of an imported document satisfy [Qo] and
    [Ql].  An import that fails to parse is always allowed. *)
Definition import_ok (Qo : ObjectDoc → Prop) (Ql : LightDoc → Prop) (ev : Event) : Prop :=
  match ev with
  | ImportLoaded (Some data) =>
      Forall Qo (default [] (doc_objects data)) ∧
      Forall Ql (default [] (doc_lights data))
  | _ => True
  end.

(** A property of entity objects that every way of building or changing an
    entity object keeps.  A number field hands a value that is not [NaN] to
    its callback; a drag moves the node and then reads the record back. *)
Record entity_invariant (parseInt16 : string → num) (P : Entity → Prop)
    (Qo : ObjectDoc → Prop) (Ql : LightDoc → Prop) : Prop := mk_entity_invariant {
  ei_sphere : ∀ id, P (newSphereEntity id);
  ei_cube : ∀ id, P (newCubeEntity id);
  ei_light : ∀ id, P (newLightEntity id);
  ei_loaded_sphere : ∀ id center radius spread,
    Qo (SphereDoc (Some center) radius (Some spread)) →
    P (loadedSphereEntity id center radius spread);
  ei_loaded_cube : ∀ id min max spread,
    Qo (CubeDoc (Some min) (Some max) (Some spread)) →
    P (loadedCubeEntity id min max spread);
  ei_loaded_light : ∀ id position intensity direction,
    Ql (PointDoc position intensity direction) →
    P (loadedLightEntity id position intensity direction);
  ei_move : ∀ axis value e,
    Number_isNaN value = false → P e → P (moveEntity (axisUpdater axis value) e);
  ei_radius : ∀ value e,
    Number_isNaN value = false → P e → P (onRadiusChange value e);
  ei_size : ∀ axis value e,
    Number_isNaN value = false → P e → P (onSizeChange axis value e);
  ei_intensity : ∀ channel value e,
    Number_isNaN value = false → P e → P (onIntensityChange channel value e);
  ei_direction : ∀ axis value e,
    Number_isNaN value = false → P e → P (onDirectionChange axis value e);
  ei_color : ∀ hex e, P e → P (onColorChange parseInt16 hex e);
  ei_drag : ∀ p e, P e → P (updateEntityFromTransform (dragMesh p e));
}.

(** The radius of the sphere behind [l], and the extent of the cube behind
    [l] along an axis, as the canonical record has them. *)
Definition radius_of (l : loc) (st : State) : option num :=
  match e_data <$> heap st !! l with
  | Some (SphereData _ radius _) => Some radius
  | _ => None
  end.

Definition component (axis : Axis) (v : Vector3) : num :=
  match axis with AxisX => v_x v | AxisY => v_y v | AxisZ => v_z v end.

Definition extent_of (axis : Axis) (l : loc) (st : State) : option num :=
  match e_data <$> heap st !! l with
  | Some (CubeData _ size _) => Some (component axis size)
  | _ => None
  end.

(** The mesh of a cube has a box for its base geometry. *)
Definition box_shaped (e : Entity) : Prop :=
  match e_data e with
  | CubeData _ _ _ =>
      ∃ width height depth,
        m_geometry (e_mesh e) = Some (BoxGeometry width height depth)
  | _ => True
  end.

(** A channel within [0, 1]. *)
Definition in_unit (v : num) : Prop :=
  js_le (int 0) v = true ∧ js_le v (int 1) = true.

Definition unit_color (c : Color) : Prop :=
  in_unit (c_r c) ∧ in_unit (c_g c) ∧ in_unit (c_b c).

Definition unit_arr (a : arr3) : Prop :=
  let '(r, g, b) := a in in_unit r ∧ in_unit g ∧ in_unit b.

(** The colour of the canonical record of a sphere or cube is within
    [0, 1]. *)
Definition colors_in_unit (e : Entity) : Prop :=
  match e_data e with
  | SphereData _ _ color | CubeData _ _ color => unit_color color
  | LightData _ _ _ => True
  end.

(** The colour of an object record, when it has one, is within [0, 1]. *)
Definition record_colors_in_unit (obj : ObjectDoc) : Prop :=
  match obj with
  | SphereDoc _ _ (Some color) | CubeDoc _ _ (Some color) => unit_arr color
  | _ => True
  end.

Definition document_colors_in_unit (d : Document) : Prop :=
  Forall record_colors_in_unit (default [] (doc_objects d)).















(** What the round trip needs of a document that conforms to the schema:
    every field is present, the corners of a cube are finite, and [fov],
    [width] and [height] are not zero. *)
Definition finite_arr (a : arr3) : Prop :=
  let '(a0, a1, a2) := a in
  Number_isFinite a0 = true ∧ Number_isFinite a1 = true ∧ Number_isFinite a2 = true.

Definition complete_camera (cam : CameraDoc) : Prop :=
  is_Some (cam_position cam) ∧ is_Some (cam_look_at cam) ∧ is_Some (cam_up cam) ∧
  (∃ fov, cam_fov cam = Some fov ∧ truthy fov = true) ∧
  (∃ width, cam_width cam = Some width ∧ truthy width = true) ∧
  (∃ height, cam_height cam = Some height ∧ truthy height = true).

Definition complete_object (obj : ObjectDoc) : Prop :=
  match obj with
  | SphereDoc (Some _) _ (Some _) => True
  | CubeDoc (Some min) (Some max) (Some _) => finite_arr min ∧ finite_arr max
  | _ => False
  end.

Definition complete_light (lightData : LightDoc) : Prop :=
  match lightData with
  | PointDoc (Some _) (Some [_; _; _]) (Some [_; _; _]) => True
  | _ => False
  end.

Definition complete_document (data : Document) : Prop :=
  (∃ cam, doc_camera data = Some cam ∧ complete_camera cam) ∧
  (∃ objects, doc_objects data = Some objects ∧ Forall complete_object objects) ∧
  (∃ lights, doc_lights data = Some lights ∧ Forall complete_light lights).

(** The canonical record a complete object record stands for: a cube given
    by its corners has the centre [(min + max) / 2] and the extents
    [max - min]. *)
Definition decoded_object (obj : ObjectDoc) : option EntityData :=
  match obj with
  | SphereDoc (Some center) radius (Some color) =>
      Some (SphereData (vec_of_arr center) radius (color_of_arr color))
  | CubeDoc (Some (min0, min1, min2)) (Some (max0, max1, max2)) (Some color) =>
      Some (CubeData
              (mkVector3 (js_div (js_add min0 max0) (int 2))
                         (js_div (js_add min1 max1) (int 2))
                         (js_div (js_add min2 max2) (int 2)))
              (mkVector3 (js_sub max0 min0) (js_sub max1 min1) (js_sub max2 min2))
              (color_of_arr color))
  | _ => None
  end.

Definition decoded_light (lightData : LightDoc) : option EntityData :=
  match lightData with
  | PointDoc (Some position) (Some [r; g; b]) (Some [x; y; z]) =>
      Some (LightData (vec_of_arr position) (mkColor r g b) (mkVector3 x y z))
  | _ => None
  end.

(** The references of the list are allocated objects. *)
Definition bounded (st : State) : Prop :=
  ∀ l, l ∈ entities st → l < length (heap st).

(** The state after loading records: the run went through, the camera
    and the alerts are as before, and the list has grown by entity objects
    with the given document records and canonical records. *)
Record loaded (st st' : State) (objects : list ObjectDoc) (lights : list LightDoc)
    (records : list EntityData) : Prop := mk_loaded {
  ld_bounded : bounded st';
  ld_camera : cameraState st' = cameraState st;
  ld_alerts : alerts st' = alerts st;
  ld_live : ∃ es, live st' = live st ++ es ∧
                  omap object_record es = objects ∧
                  omap light_record es = lights ∧
                  e_data <$> es = records;
}.

(** Scenario B of the specification: one cube, no light. *)
Definition scenario_B : Document :=
  mkDocument
    (Some (mkCameraDoc (Some (int 0, int 0, int (-5))) (Some (int 0, int 0, int 0))
             (Some (int 0, int 1, int 0)) (Some (int 60)) (Some (int 400))
             (Some (int 300))))
    (Some [CubeDoc (Some (int (-2), int (-1), int 3)) (Some (int (-1), int 1, int 4))
             (Some (lit 2 10, lit 2 10, lit 10 10))])
    (Some []).

(** The same document with a field of view of 0 degrees. *)
Definition scenario_B_zero_fov : Document :=
  mkDocument
    (Some (mkCameraDoc (Some (int 0, int 0, int (-5))) (Some (int 0, int 0, int 0))
             (Some (int 0, int 1, int 0)) (Some (int 0)) (Some (int 400))
             (Some (int 300))))
    (doc_objects scenario_B) (doc_lights scenario_B).

(** A byte divided by 255, as [hexToColor] computes a channel, is in the
    unit interval. *)
Definition channel_in_unit (n : Z) : bool :=
  js_le (int 0) (js_div (int n) (int 255)) && js_le (js_div (int n) (int 255)) (int 1).

(** *** Finite numbers *)

Definition finite_vec (v : Vector3) : Prop :=
  Number_isFinite (v_x v) = true ∧ Number_isFinite (v_y v) = true ∧
  Number_isFinite (v_z v) = true.




(** An integer of at least 1. *)
Definition positive_integer (v : num) : Prop := ∃ n : Z, (1 ≤ n)%Z ∧ v = int n.

(** A camera state the renderer can use: finite vectors, a finite field of
    view, a resolution in whole pixels. *)
Definition camera_valid (c : CameraState) : Prop :=
  finite_vec (cs_position c) ∧ finite_vec (cs_lookAt c) ∧ finite_vec (cs_up c) ∧
  Number_isFinite (cs_fov c) = true ∧
  positive_integer (cs_width c) ∧ positive_integer (cs_height c).



(** ** Vocabulary of the further properties *)

(** The options of the object list bear the ids of the entities of the
    list, in order. *)
Definition listed (st : State) : Prop :=
  objectList_options st = e_id <$> live st.

(** The JSON text area shows the document of the present scene. *)
Definition current (st : State) : Prop :=
  sceneJsonText st = buildSceneJson st.

(** The property form is visible when an entity is selected. *)
Definition shown (st : State) : Prop :=
  is_Some (selectedEntity st) → entityEditor_hidden st = false.

(** [floor <= v], which fails for [NaN]. *)
Definition at_least (floor v : num) : Prop := js_le floor v = true.

(** The canonical record respects the floors: radius and extents are at
    least 0.1, the channels of an intensity at least 0. *)
Definition above_floor (e : Entity) : Prop :=
  match e_data e with
  | SphereData _ radius _ => at_least (lit 1 10) radius
  | CubeData _ size _ =>
      at_least (lit 1 10) (v_x size) ∧ at_least (lit 1 10) (v_y size) ∧
      at_least (lit 1 10) (v_z size)
  | LightData _ intensity _ =>
      at_least (int 0) (c_r intensity) ∧ at_least (int 0) (c_g intensity) ∧
      at_least (int 0) (c_b intensity)
  end.

(** The object records that are loaded into such an entity. *)
Definition object_above_floor (obj : ObjectDoc) : Prop :=
  match obj with
  | SphereDoc _ radius _ => at_least (lit 1 10) radius
  | CubeDoc (Some (min0, min1, min2)) (Some (max0, max1, max2)) _ =>
      at_least (lit 1 10) (js_sub max0 min0) ∧ at_least (lit 1 10) (js_sub max1 min1) ∧
      at_least (lit 1 10) (js_sub max2 min2)
  | _ => True
  end.

(** The corners of a cube record are binary64 values, as the numbers that
    [JSON.parse] returns are. *)
Definition binary64_arr (a : arr3) : Prop :=
  let '(a0, a1, a2) := a in
  binary64 a0 = true ∧ binary64 a1 = true ∧ binary64 a2 = true.

Definition corners_binary64 (obj : ObjectDoc) : Prop :=
  match obj with
  | CubeDoc (Some min) (Some max) _ => binary64_arr min ∧ binary64_arr max
  | _ => True
  end.

(** The light records that are loaded into such an entity: an intensity
    element that is present is at least 0. *)
Definition light_above_floor (lightData : LightDoc) : Prop :=
  match lightData with
  | PointDoc _ intensity _ =>
      at_least (int 0) (element_or intensity 0 (lit 10 10)) ∧
      at_least (int 0) (element_or intensity 1 (lit 10 10)) ∧
      at_least (int 0) (element_or intensity 2 (lit 10 10))
  | OtherLight _ => True
  end.

(** The same of the fields a camera block has. *)
Definition camera_block_valid (cam : CameraDoc) : Prop :=
  from_option finite_arr True (cam_position cam) ∧
  from_option finite_arr True (cam_look_at cam) ∧
  from_option finite_arr True (cam_up cam) ∧
  from_option (λ fov, Number_isFinite fov = true) True (cam_fov cam) ∧
  from_option positive_integer True (cam_width cam) ∧
  from_option positive_integer True (cam_height cam).

(** The same of what is read from the navigation camera. *)
Definition view_valid (view : View) : Prop :=
  finite_vec (view_position view) ∧ finite_vec (view_target view) ∧
  finite_vec (view_up view) ∧ Number_isFinite (view_fov view) = true.

(** The events that bring camera values in from outside, an import and a
    'Sync from view', bring valid ones. *)
Definition camera_input_ok (ev : Event) : Prop :=
  match ev with
  | ImportLoaded (Some data) => from_option camera_block_valid True (doc_camera data)
  | SyncFromViewClick view => view_valid view
  | _ => True
  end.

(** The value of [fov], [width] or [height] after an import: the field of
    the camera block when it is present and truthy, else the stored one. *)
Definition kept (field : option num) (stored : num) : num :=
  match field with
  | Some v => if truthy v then v else stored
  | None => stored
  end.

(** The camera state after the import of a camera block that has
    [position] and [look_at]. *)
Definition merged_camera (c : CameraState) (cam : CameraDoc) : CameraState :=
  mkCameraState
    (from_option vec_of_arr (cs_position c) (cam_position cam))
    (from_option vec_of_arr (cs_lookAt c) (cam_look_at cam))
    (from_option vec_of_arr (cs_up c) (cam_up cam))
    (kept (cam_fov cam) (cs_fov c)) (kept (cam_width cam) (cs_width c))
    (kept (cam_height cam) (cs_height c)).

(** *** Import of an arbitrary document *)

(** The records [loadSceneFromJson] reads without an exception: a sphere
    with [center] and [color], a cube with [min], [max] and [color], any
    record with another [type]. *)
Definition object_loadable (obj : ObjectDoc) : bool :=
  match obj with
  | SphereDoc (Some _) _ (Some _) => true
  | CubeDoc (Some _) (Some _) (Some _) => true
  | OtherObject _ => true
  | _ => false
  end.

Definition camera_loadable (cam : CameraDoc) : bool :=
  match cam_position cam, cam_look_at cam with
  | Some _, Some _ => true
  | _, _ => false
  end.

Definition loadable (data : Document) : bool :=
  from_option camera_loadable true (doc_camera data) &&
  forallb object_loadable (default [] (doc_objects data)).

(** The canonical record a light record is loaded into: a missing position
    is [0, 5, 0], a missing element of the intensity is 1, a missing
    element of the direction is that of [0, -1, 0]. *)
Definition loaded_light_data (lightData : LightDoc) : option EntityData :=
  match lightData with
  | PointDoc position intensity direction =>
      Some (LightData
              (vec_of_arr (default (int 0, int 5, int 0) position))
              (mkColor (element_or intensity 0 (lit 10 10))
                       (element_or intensity 1 (lit 10 10))
                       (element_or intensity 2 (lit 10 10)))
              (mkVector3 (element_or direction 0 (lit 0 10))
                         (element_or direction 1 (lit (-10) 10))
                         (element_or direction 2 (lit 0 10))))
  | OtherLight _ => None
  end.

(** The corner of a cube found again from centre and extent. *)
Definition corner (sign : num → num → num) (min max : num) : num :=
  sign (js_div (js_add min max) (int 2)) (js_div (js_sub max min) (int 2)).

(** The record written for a loaded object record. *)
Definition reexported_object (obj : ObjectDoc) : option ObjectDoc :=
  match obj with
  | SphereDoc (Some center) radius (Some color) => Some obj
  | CubeDoc (Some (min0, min1, min2)) (Some (max0, max1, max2)) (Some color) =>
      Some (CubeDoc
              (Some (corner js_sub min0 max0, corner js_sub min1 max1,
                     corner js_sub min2 max2))
              (Some (corner js_add min0 max0, corner js_add min1 max1,
                     corner js_add min2 max2))
              (Some color))
  | _ => None
  end.

(** The record written for a loaded light record. *)
Definition reexported_light (lightData : LightDoc) : option LightDoc :=
  match lightData with
  | PointDoc position intensity direction =>
      Some (PointDoc
              (Some (default (int 0, int 5, int 0) position))
              (Some [element_or intensity 0 (lit 10 10);
                     element_or intensity 1 (lit 10 10);
                     element_or intensity 2 (lit 10 10)])
              (Some [element_or direction 0 (lit 0 10);
                     element_or direction 1 (lit (-10) 10);
                     element_or direction 2 (lit 0 10)]))
  | OtherLight _ => None
  end.

(** The document written after the import of a loadable document into an
    editor with the camera state [c]. *)
Definition reexported (c : CameraState) (data : Document) : Document :=
  mkDocument
    (Some (camera_record (from_option (merged_camera c) c (doc_camera data))))
    (Some (omap reexported_object (default [] (doc_objects data))))
    (Some (omap reexported_light (default [] (doc_lights data)))).

(** *** Footprints *)

(** [st'] is [st] with one more entity object [e], at the end of the list,
    selected, the form and the gizmo on it, and the text rewritten. *)
Definition appended (st st' : State) (e : Entity) : Prop :=
  heap st' = heap st ++ [e] ∧
  entities st' = entities st ++ [length (heap st)] ∧
  live st' = live st ++ [e] ∧
  selectedEntity st' = Some (length (heap st)) ∧
  form_entity st' = Some (length (heap st), e) ∧
  transform_object st' = Some (length (heap st)) ∧
  cameraState st' = cameraState st ∧
  sceneJsonText st' = buildSceneJson st'.

(** The id [generateId prefix] hands out in [st]. *)
Definition next_id (prefix : string) (st : State) : string :=
  prefix +:+ "-" +:+ pretty (idCounter st + 1)%N.

(** The events that neither add nor remove an entity. *)
Definition keeps_the_list (ev : Event) : bool :=
  match ev with
  | AddSphere | AddCube | AddLight | DeleteClick | ImportLoaded _ => false
  | _ => true
  end.

(** *** The fields of the form *)

(** The centre of a sphere or cube, the position of a light. *)
Definition record_position (d : EntityData) : Vector3 :=
  match d with
  | SphereData center _ _ | CubeData center _ _ => center
  | LightData position _ _ => position
  end.

(** The node of the entity is where the record says. *)
Definition placed (e : Entity) : Prop :=
  m_position (e_mesh e) = record_position (e_data e).

(** The canonical record after [value] has been committed in [field]. *)
Definition committed (field : NumberField) (value : num) (d : EntityData) : EntityData :=
  match field, d with
  | PositionField axis, SphereData center radius color =>
      SphereData (axisUpdater axis value center) radius color
  | PositionField axis, CubeData center size color =>
      CubeData (axisUpdater axis value center) size color
  | PositionField axis, LightData position intensity direction =>
      LightData (axisUpdater axis value position) intensity direction
  | RadiusField, SphereData center _ color =>
      SphereData center (Math_max (lit 1 10) value) color
  | SizeField axis, CubeData center size color =>
      CubeData center (axisUpdater axis (Math_max (lit 1 10) value) size) color
  | IntensityField channel, LightData position intensity direction =>
      LightData position (set_channel channel (Math_max (int 0) value) intensity) direction
  | DirectionField axis, LightData position intensity direction =>
      LightData position intensity (axisUpdater axis value direction)
  | _, _ => d
  end.

(** ** Numbers as text

    [Number.prototype.toString] and [Number.prototype.toFixed], as far as
    the editor uses them: [toString] on whole numbers, NaN and the
    infinities, [toFixed] on every number.  The digits [toString] writes
    for a fraction and the exponent notation of magnitudes of 10^21 and
    more are not represented: the functions return [None] there. *)

(** The character of a digit below 36. *)
Definition digit_char (d : N) : ascii :=
  if (d <? 10)%N then ascii_of_N (48 + d) else ascii_of_N (87 + d).

Fixpoint digits_go (fuel : nat) (base n : N) (acc : string) : string :=
  match fuel with
  | O => acc
  | S fuel' =>
      if (n =? 0)%N then acc
      else digits_go fuel' base (n / base) (String (digit_char (n mod base)) acc)
  end.

(** The digits of a natural number in a base of at least 2, most
    significant first; a number has no more digits than bits. *)
Definition N_digits (base n : N) : string :=
  if (n =? 0)%N then "0" else digits_go (N.to_nat (N.size n)) base n "".

Definition sign_text (negative : bool) : string :=
  if negative then "-" else "".

(** [v.toString(radix)] for radix 10 and 16. *)
Definition Number_toString (radix : N) (v : num) : option string :=
  match v with
  | NaN => Some "NaN"
  | PInf => Some "Infinity"
  | NInf => Some "-Infinity"
  | Fin q =>
      if negb (Qden q =? 1)%positive then None
      else if (radix =? 10)%N && (10 ^ 21 <=? Z.abs (Qnum q))%Z then None
      else Some (sign_text (Qnum q <? 0)%Z +:+ N_digits radix (Z.abs_N (Qnum q)))
  end.

(** The left shift [a << count] of an integer count: on 32 bits, the count
    taken modulo 32. *)
Definition wrap32 (z : Z) : Z := ((z + 2 ^ 31) mod 2 ^ 32 - 2 ^ 31)%Z.

Definition js_shl (a : num) (count : Z) : num :=
  int (wrap32 (Z.shiftl (ToInt32 a) (count mod 32))).

(** *** The colour field *)

Definition colorToHex (color : Color) : option string :=
  let r := Math_round (js_mul (clamp01 (c_r color)) (int 255)) in
  let g := Math_round (js_mul (clamp01 (c_g color)) (int 255)) in
  let b := Math_round (js_mul (clamp01 (c_b color)) (int 255)) in
  (λ digits, "#" +:+ slice1 digits) <$>
    Number_toString 16
      (js_add (js_add (js_add (js_shl (int 1) 24) (js_shl r 16)) (js_shl g 8)) b).

(** [k] digits of [v], with leading zeros. *)
Fixpoint fixed_digits (k : nat) (base v : N) : string :=
  match k with
  | O => ""
  | S k' => fixed_digits k' base (v / base) +:+ String (digit_char (v mod base)) ""
  end.

(** The text [#rrggbb] of three bytes, in lower case. *)
Definition hex_color_text (r g b : N) : string :=
  "#" +:+ fixed_digits 2 16 r +:+ fixed_digits 2 16 g +:+ fixed_digits 2 16 b.

(** The byte [colorToHex] writes for a channel: the channel clamped to
    [0, 1], times 255, rounded; 0 for [NaN]. *)
Definition channel_byte (v : num) : N :=
  Z.to_N (ToInt32 (Math_round (js_mul (clamp01 v) (int 255)))).

(** *** Fixed-point notation and the camera form *)

Fixpoint zeros (k : nat) : string :=
  match k with
  | O => ""
  | S k' => String "0" (zeros k')
  end.

(** [s.slice(0, n)] and [s.slice(n)] for [n] within the text. *)
Fixpoint slice_to (n : nat) (s : string) : string :=
  match n, s with
  | S n', String c s' => String c (slice_to n' s')
  | _, _ => ""
  end.

Fixpoint slice_from (n : nat) (s : string) : string :=
  match n, s with
  | S n', String _ s' => slice_from n' s'
  | _, _ => s
  end.

(** The integer [n] for which [n / 10^f] is nearest to [x >= 0], the
    larger one of two. *)
Definition nearest (f : nat) (x : Qc) : N :=
  Z.to_N (Qfloor (x * Q2Qc (10 ^ Z.of_nat f # 1) + Q2Qc (1 # 2))%Qc).

(** [v.toFixed(f)]. *)
Definition Number_toFixed (f : nat) (v : num) : option string :=
  match v with
  | NaN => Some "NaN"
  | PInf => Some "Infinity"
  | NInf => Some "-Infinity"
  | Fin q =>
      let negative := bool_decide (q < 0)%Qc in
      let x := Qcabs q in
      if bool_decide (Q2Qc (10 ^ 21 # 1) ≤ x)%Qc then None
      else
        let n := nearest f x in
        let m := N_digits 10 n in
        let m :=
          match f with
          | O => m
          | _ =>
              let k := String.length m in
              let m := if bool_decide (k ≤ f) then zeros (f + 1 - k) +:+ m else m in
              let k := String.length m in
              slice_to (k - f) m +:+ "." +:+ slice_from (k - f) m
          end in
        Some (sign_text negative +:+ m)
  end.

(** The texts [populateCameraForm] writes into the fields of the camera
    form. *)
Definition populateCameraForm (c : CameraState) : option CameraForm :=
  posX ← Number_toFixed 3 (v_x (cs_position c));
  posY ← Number_toFixed 3 (v_y (cs_position c));
  posZ ← Number_toFixed 3 (v_z (cs_position c));
  lookX ← Number_toFixed 3 (v_x (cs_lookAt c));
  lookY ← Number_toFixed 3 (v_y (cs_lookAt c));
  lookZ ← Number_toFixed 3 (v_z (cs_lookAt c));
  upX ← Number_toFixed 3 (v_x (cs_up c));
  upY ← Number_toFixed 3 (v_y (cs_up c));
  upZ ← Number_toFixed 3 (v_z (cs_up c));
  fov ← Number_toFixed 2 (cs_fov c);
  width ← Number_toString 10 (cs_width c);
  height ← Number_toString 10 (cs_height c);
  Some (mkCameraForm posX posY posZ lookX lookY lookZ upX upY upZ fov width height).

(** A finite number rounded to [f] decimals, halves away from zero: the
    number the text of [toFixed(f)] stands for. *)
Definition round_to (f : nat) (v : num) : num :=
  match v with
  | Fin q =>
      let n := Z.of_N (nearest f (Qcabs q)) in
      Fin (Q2Qc ((if bool_decide (q < 0)%Qc then - n else n) # Z.to_pos (10 ^ Z.of_nat f)))
  | _ => v
  end.

(** The number [Number] reads from that text: the binary64 value nearest
    to it. *)
Definition read_back_from (f : nat) (v : num) : num := to_binary64 (round_to f v).

Definition shown_vec (f : nat) (v : Vector3) : Vector3 :=
  mkVector3 (read_back_from f (v_x v)) (read_back_from f (v_y v))
    (read_back_from f (v_z v)).

(** The camera state as the camera form shows it. *)
Definition shown_camera (c : CameraState) : CameraState :=
  mkCameraState (shown_vec 3 (cs_position c)) (shown_vec 3 (cs_lookAt c))
    (shown_vec 3 (cs_up c)) (read_back_from 2 (cs_fov c)) (cs_width c) (cs_height c).

Definition binary64_vec (v : Vector3) : Prop :=
  binary64 (v_x v) = true ∧ binary64 (v_y v) = true ∧ binary64 (v_z v) = true.

(** A camera state of binary64 values, as every camera state of the
    editor is. *)
Definition camera_binary64 (c : CameraState) : Prop :=
  binary64_vec (cs_position c) ∧ binary64_vec (cs_lookAt c) ∧ binary64_vec (cs_up c) ∧
  binary64 (cs_fov c) = true ∧ binary64 (cs_width c) = true ∧
  binary64 (cs_height c) = true.

(** A finite number below 10^21 in magnitude. *)
Definition in_range (v : num) : Prop :=
  ∃ q, v = Fin q ∧ (Qcabs q < Q2Qc (10 ^ 21 # 1))%Qc.

Definition vec_in_range (v : Vector3) : Prop :=
  in_range (v_x v) ∧ in_range (v_y v) ∧ in_range (v_z v).

(** A camera state whose numbers the form can show in fixed-point
    notation: finite, below 10^21, the resolution in whole pixels. *)
Definition camera_in_range (c : CameraState) : Prop :=
  vec_in_range (cs_position c) ∧ vec_in_range (cs_lookAt c) ∧ vec_in_range (cs_up c) ∧
  in_range (cs_fov c) ∧
  (positive_integer (cs_width c) ∧ in_range (cs_width c)) ∧
  (positive_integer (cs_height c) ∧ in_range (cs_height c)).

(** A text of digits of the base only. *)
Fixpoint only_digits (base : N) (s : string) : bool :=
  match s with
  | EmptyString => true
  | String c s' => bool_decide (is_Some (digit_value base c)) && only_digits base s'
  end.

(** The digits [toFixed] writes for [n] with [f] decimals, before the
    point is put in: at least [f + 1] of them. *)
Definition padded (f : nat) (n : N) : string :=
  let m := N_digits 10 n in
  let k := String.length m in
  if bool_decide (k ≤ f) then zeros (f + 1 - k) +:+ m else m.


(** ** Reading the fields of a state after a handler *)

Ltac sproj :=
  unfold update, refreshSceneJson, addListItem, push_entity, scene_add_next,
    lookup_entity in *;
  cbn [heap entities selectedEntity idCounter cameraState scene_children
       transform_object objectList_options entityEditor_hidden entityForm
       sceneJsonText disposed alerts
       set_heap set_entities set_selectedEntity set_idCounter set_cameraState
       set_scene_children set_transform_object set_objectList_options
       set_entityEditor_hidden set_entityForm set_sceneJsonText set_disposed
       set_alerts fst snd] in *.


(** A closed equation between values with decidable equality, settled by
    running the decision. *)
Ltac by_decision :=
  match goal with |- ?P => apply (bool_decide_eq_true_1 P); by vm_compute end.

(** ** Arithmetic on [num] *)


Lemma int_two : Q2Qc (2 # 1) = (1 + 1)%Qc.
Proof. by apply Qc_is_canon. Qed.

Lemma js_div_fin p q : q ≠ 0%Qc → js_div (Fin p) (Fin q) = Fin (p / q)%Qc.
Proof. intros H. simpl. by rewrite bool_decide_eq_false_2. Qed.

Lemma two_nonzero : (1 + 1)%Qc ≠ 0%Qc.
Proof. intros H. apply (f_equal this) in H. by vm_compute in H. Qed.





Lemma js_mul_one_r r : js_mul r (int 1) = r.
Proof.
  unfold int, lit. destruct r as [q| | |]; try by vm_compute.
  simpl. f_equal. ring.
Qed.




(** The minimum corner is found again from centre and extent. *)
Lemma corner_min a b :
  js_sub (js_div (js_add (Fin a) (Fin b)) (int 2))
         (js_div (js_sub (Fin b) (Fin a)) (int 2)) = Fin a.
Proof.
  unfold int, lit. rewrite int_two.
  change (js_add (Fin a) (Fin b)) with (Fin (a + b)%Qc).
  change (js_sub (Fin b) (Fin a)) with (Fin (b + - a)%Qc).
  rewrite !js_div_fin by apply two_nonzero.
  cbn [js_sub js_add js_neg]. f_equal. field. apply two_nonzero.
Qed.

Lemma corner_max a b :
  js_add (js_div (js_add (Fin a) (Fin b)) (int 2))
         (js_div (js_sub (Fin b) (Fin a)) (int 2)) = Fin b.
Proof.
  unfold int, lit. rewrite int_two.
  change (js_add (Fin a) (Fin b)) with (Fin (a + b)%Qc).
  change (js_sub (Fin b) (Fin a)) with (Fin (b + - a)%Qc).
  rewrite !js_div_fin by apply two_nonzero.
  cbn [js_sub js_add js_neg]. f_equal. field. apply two_nonzero.
Qed.

(** [Math.max(floor, v)] is [floor] for every [v] below a finite [floor]. *)
Lemma Math_max_floor floor v :
  js_lt v (Fin floor) = true → Math_max (Fin floor) v = Fin floor.
Proof.
  destruct v as [q| | |]; simpl; try done.
  intros H%bool_decide_eq_true. rewrite bool_decide_eq_false_2; [done|].
  by apply Qcle_not_lt, Qclt_le_weak.
Qed.

Lemma js_lt_not_NaN v w : js_lt v w = true → Number_isNaN v = false.
Proof. by destruct v, w. Qed.

(** Whole numbers. *)
Lemma Math_round_int n : Math_round (int n) = int n.
Proof.
  unfold Math_round, int at 1, lit. f_equal.
  assert (this (Q2Qc (n # 1) + Q2Qc (1 # 2))%Qc == (n * 2 + 1) # 2)%Q as E.
  { simpl. rewrite !Qred_correct. unfold Qeq. simpl. lia. }
  rewrite (Qfloor_comp _ _ E). unfold Qfloor.
  symmetry. apply (Z.div_unique _ _ _ 1); lia.
Qed.

Lemma int_lt_iff a b : js_lt (int a) (int b) = bool_decide (a < b)%Z.
Proof.
  unfold int, lit. simpl. apply bool_decide_ext.
  unfold Qclt. simpl. rewrite !Qred_correct. unfold Qlt. simpl. lia.
Qed.

(** A whole number of at least 1 goes through [Math.max(1, Math.round(_))]
    as it is. *)
Lemma resolution_unchanged n :
  (1 ≤ n)%Z → Math_max (int 1) (Math_round (int n)) = int n.
Proof.
  intros Hn. rewrite Math_round_int.
  change (Math_max (int 1) (int n)) with (if js_lt (int 1) (int n) then int n else int 1).
  rewrite int_lt_iff. case_bool_decide; [done|]. by assert (n = 1)%Z as -> by lia.
Qed.

(** ** The structural invariant *)

Lemma wf_same_core st st' : same_core st st' → wf st → wf st'.
Proof.
  intros [H1 H2 H3 H4 H5 H6 H7] [W1 W2 W3 W4 W5 W6].
  constructor; rewrite ?H1, ?H2, ?H3, ?H4, ?H5, ?H6, ?H7; assumption.
Qed.

Lemma same_core_update l f st : same_core st (update l f st).
Proof. constructor; sproj; try reflexivity. apply length_alter. Qed.

Lemma same_core_refresh st : same_core st (refreshSceneJson st).
Proof. constructor; reflexivity. Qed.

Lemma find_entity_elem id st l : find_entity id st = Some l → l ∈ entities st.
Proof.
  unfold find_entity. intros H. apply find_some in H as [H _].
  by apply list_elem_of_In.
Qed.

Lemma wf_selectEntity id st : wf st → wf (selectEntity id st).
Proof.
  intros [W1 W2 W3 W4 W5 W6]. unfold selectEntity.
  destruct (id ≫= λ i, find_entity i st) as [l|] eqn:E.
  - assert (l ∈ entities st) as Hl.
    { destruct id as [i|]; simpl in E; [|done]. by eapply find_entity_elem. }
    unfold refreshEntityForm. sproj. constructor; sproj; try done.
    by intros ? [= <-].
  - constructor; sproj; try done.
Qed.

Lemma remove_first_elem v a l : l ∈ remove_first v a → l ∈ a.
Proof.
  induction a as [|w a IH]; simpl; [done|].
  case_bool_decide as E; [by right|]. intros [->|Hl]%elem_of_cons; [left | right; auto].
Qed.

Lemma remove_first_keep v a l : l ≠ v → l ∈ a → l ∈ remove_first v a.
Proof.
  intros Hne. induction a as [|w a IH]; simpl; [done|].
  intros [->|Hl]%elem_of_cons.
  - case_bool_decide as E; [congruence | left].
  - case_bool_decide as E; [done | right; auto].
Qed.

Lemma remove_first_NoDup v a : NoDup a → NoDup (remove_first v a).
Proof.
  induction 1 as [|w a Hw Ha IH]; simpl; [constructor|].
  case_bool_decide as E; [done|]. constructor; [|done].
  intros Hx. apply Hw. by eapply remove_first_elem.
Qed.

Lemma remove_first_gone v a : NoDup a → v ∉ remove_first v a.
Proof.
  induction 1 as [|w a Hw Ha IH]; simpl; [by intros ?%elem_of_nil|].
  case_bool_decide as E; [by subst|].
  intros [->|Hx]%elem_of_cons; [done | by apply IH].
Qed.

Lemma owner_disposeObject l e r : r ∈ disposeObject l e → owner r = l.
Proof.
  unfold disposeObject, dispose_node.
  destruct (m_geometry (e_mesh e)), (m_material (e_mesh e)), (e_helper e) as [h|];
    simpl; try destruct (m_geometry h); try destruct (m_material h); simpl;
    rewrite ?elem_of_cons, ?elem_of_nil; intros H; decompose [or] H; subst; done.
Qed.

Lemma wf_removed st st' l e :
  wf st → heap st !! l = Some e →
  length (heap st') = length (heap st) →
  entities st' = remove_first l (entities st) →
  disposed st' = disposed st ++ disposeObject l e →
  (selectedEntity st' = None ∧ transform_object st' = None ∧
   entityEditor_hidden st' = true) ∨
  (selectedEntity st ≠ Some l ∧ selectedEntity st' = selectedEntity st ∧
   transform_object st' = transform_object st ∧
   entityEditor_hidden st' = entityEditor_hidden st ∧
   entityForm st' = entityForm st) →
  wf st'.
Proof.
  intros [W1 W2 W3 W4 W5 W6] El Hh He Hd Hs.
  assert (∀ r, r ∈ disposed st' →
               owner r < length (heap st') ∧ owner r ∉ entities st') as D.
  { intros r. rewrite Hd, Hh, He. intros [Hr|Hr]%elem_of_app.
    - destruct (W6 r Hr) as [? Hn]. split; [done|].
      intros Hx. apply Hn. by eapply remove_first_elem.
    - apply owner_disposeObject in Hr as ->. split.
      + by eapply lookup_lt_Some.
      + by apply remove_first_gone. }
  assert (∀ x, x ∈ entities st' → x < length (heap st')) as B.
  { intros x. rewrite He, Hh. intros Hx. apply W1. by eapply remove_first_elem. }
  assert (NoDup (entities st')) as N.
  { rewrite He. by apply remove_first_NoDup. }
  destruct Hs as [(S1 & S2 & S3) | (S0 & S1 & S2 & S3 & S4)].
  - constructor; try done.
    + rewrite S1. done.
    + rewrite S2. done.
    + rewrite S3. done.
  - constructor; try done.
    + rewrite S1, He. intros x Hx. apply remove_first_keep; [congruence | by apply W3].
    + rewrite S1, S2. done.
    + rewrite S1, S3, S4. done.
Qed.

Lemma wf_removeEntity l st : wf st → wf (removeEntity l st).
Proof.
  intros W. unfold removeEntity.
  destruct (lookup_entity l st) as [e|] eqn:El; [|done].
  apply (wf_same_core _ _ (same_core_refresh _)).
  sproj.
  destruct (selectedEntity st) as [s|] eqn:Es; simpl.
  - destruct (heap st !! s) as [se|] eqn:Ese; simpl.
    + case_bool_decide as Eid.
      * eapply (wf_removed st _ l e W El); sproj; [reflexivity.. | by left].
      * eapply (wf_removed st _ l e W El); sproj; [reflexivity.. | right].
        rewrite Es. split_and!; try done. intros [= ->]. congruence.
    + eapply (wf_removed st _ l e W El); sproj; [reflexivity.. | right].
      rewrite Es. split_and!; try done. intros [= ->]. congruence.
  - eapply (wf_removed st _ l e W El); sproj; [reflexivity.. | right].
    rewrite Es. done.
Qed.

Lemma wf_deleteClick st : wf st → wf (deleteClick st).
Proof.
  intros W. unfold deleteClick. destruct (selectedEntity st); [|done].
  by apply wf_removeEntity, wf_selectEntity.
Qed.

Lemma wf_push e st : wf st → wf (push_entity e st).
Proof.
  intros [W1 W2 W3 W4 W5 W6]. constructor; sproj.
  - intros l. rewrite length_app, elem_of_app, list_elem_of_singleton. simpl.
    intros [Hl| ->]; [apply W1 in Hl|]; lia.
  - apply NoDup_app. split_and!; [done | | apply NoDup_singleton].
    intros x Hx ->%list_elem_of_singleton. apply W1 in Hx. lia.
  - intros l Hl. apply elem_of_app. left. by apply W3.
  - done.
  - done.
  - intros r Hr. destruct (W6 r Hr) as [Hb Hn]. rewrite length_app. split; [lia|].
    rewrite elem_of_app, list_elem_of_singleton. intros [?|E]; [done | lia].
Qed.

Lemma same_core_scene_add_next st : same_core st (scene_add_next st).
Proof. constructor; reflexivity. Qed.

Lemma same_core_generateId prefix st : same_core st (snd (generateId prefix st)).
Proof. constructor; reflexivity. Qed.

Lemma same_core_addListItem e st : same_core st (addListItem e st).
Proof. constructor; reflexivity. Qed.

Lemma same_core_set_cameraState c st : same_core st (set_cameraState c st).
Proof. constructor; reflexivity. Qed.

Lemma same_core_set_alerts a st : same_core st (set_alerts a st).
Proof. constructor; reflexivity. Qed.

Create HintDb editor.
#[local] Hint Resolve same_core_update same_core_refresh same_core_scene_add_next
  same_core_generateId same_core_addListItem same_core_set_cameraState
  same_core_set_alerts : editor.

(** Every way of putting a new entity into the list. *)
Lemma wf_new prefix e st :
  wf st → wf (addListItem e (push_entity e (snd (generateId prefix (scene_add_next st))))).
Proof.
  intros W.
  eapply wf_same_core; [apply same_core_addListItem|].
  apply wf_push.
  eapply wf_same_core; [apply same_core_generateId|].
  eapply wf_same_core; [apply same_core_scene_add_next|]. done.
Qed.

Lemma wf_createSphereEntity st : wf st → wf (createSphereEntity st).
Proof.
  intros W. unfold createSphereEntity.
  eapply wf_same_core; [apply same_core_refresh|].
  apply wf_selectEntity. by apply (wf_new "sphere").
Qed.

Lemma wf_createCubeEntity st : wf st → wf (createCubeEntity st).
Proof.
  intros W. unfold createCubeEntity.
  eapply wf_same_core; [apply same_core_refresh|].
  apply wf_selectEntity. by apply (wf_new "cube").
Qed.

Lemma wf_createLightEntity st : wf st → wf (createLightEntity st).
Proof.
  intros W. unfold createLightEntity.
  eapply wf_same_core; [apply same_core_refresh|].
  apply wf_selectEntity. by apply (wf_new "light").
Qed.

Lemma wf_setEntityPosition f st : wf st → wf (setEntityPosition f st).
Proof.
  intros W. unfold setEntityPosition. destruct (selectedEntity st); [|done].
  eapply wf_same_core; [apply same_core_refresh|].
  eapply wf_same_core; [apply same_core_update|]. done.
Qed.

Lemma wf_refreshEntityForm st : wf st → wf (refreshEntityForm st).
Proof.
  intros [W1 W2 W3 W4 W5 W6]. unfold refreshEntityForm. sproj.
  destruct (selectedEntity st) eqn:E; constructor; sproj; rewrite ?E; done.
Qed.

Lemma wf_objectChange st : wf st → wf (objectChange st).
Proof.
  intros W. unfold objectChange. destruct (selectedEntity st) as [l|] eqn:E; [|done].
  eapply wf_same_core; [apply same_core_refresh|].
  apply wf_refreshEntityForm.
  eapply wf_same_core; [apply same_core_update|]. done.
Qed.

Section WithParsers.

Variable parseFloat : string → num.
Variable js_Number : string → num.
Variable parseInt16 : string → num.

Lemma wf_numberFieldChange field text st :
  wf st → wf (numberFieldChange parseFloat field text st).
Proof.
  intros W. unfold numberFieldChange.
  destruct (form_entity st) as [[l e]|]; [|done].
  destruct (has_field field e); [|done].
  destruct (negb _); [|done].
  destruct field; simpl; try by apply wf_setEntityPosition.
  all: eapply wf_same_core; [apply same_core_refresh|].
  all: eapply wf_same_core; [apply same_core_update|]; done.
Qed.

Lemma wf_colorFieldInput text st : wf st → wf (colorFieldInput parseInt16 text st).
Proof.
  intros W. unfold colorFieldInput.
  destruct (form_entity st) as [[l e]|]; [|done].
  destruct (e_data e); try done.
  all: eapply wf_same_core; [apply same_core_refresh|].
  all: eapply wf_same_core; [apply same_core_update|]; done.
Qed.

Lemma wf_gizmoDrag p st : wf st → wf (gizmoDrag p st).
Proof.
  intros W. unfold gizmoDrag. destruct (transform_object st); [|done].
  apply wf_objectChange.
  eapply wf_same_core; [apply same_core_update|]. done.
Qed.

Lemma wf_transformRadioChange value st : wf st → wf (transformRadioChange value st).
Proof.
  intros W. pose proof W as [W1 W2 W3 W4 W5 W6]. unfold transformRadioChange.
  destruct (selectedEntity st) eqn:E; [|done].
  case_bool_decide; constructor; sproj; rewrite ?E; try done.
  all: intros ? [= <-]; by apply W3.
Qed.

Lemma wf_pointerDown hit st : wf st → wf (pointerDown hit st).
Proof.
  intros W. unfold pointerDown. destruct hit as [l|]; [|done].
  case_bool_decide; [|done]. destruct (lookup_entity l st); [|done].
  by apply wf_selectEntity.
Qed.

Lemma wf_updateCameraStateFromForm formData st :
  wf st → wf (updateCameraStateFromForm js_Number formData st).
Proof.
  intros W. unfold updateCameraStateFromForm.
  eapply wf_same_core; [apply same_core_refresh|].
  eapply wf_same_core; [apply same_core_set_cameraState|]. done.
Qed.

Lemma wf_focusOrigin st : wf st → wf (focusOrigin st).
Proof.
  intros W. unfold focusOrigin.
  eapply wf_same_core; [apply same_core_refresh|].
  eapply wf_same_core; [apply same_core_set_cameraState|]. done.
Qed.

Lemma wf_syncFromView view st : wf st → wf (syncFromView view st).
Proof.
  intros W. unfold syncFromView.
  eapply wf_same_core; [apply same_core_refresh|].
  eapply wf_same_core; [apply same_core_set_cameraState|]. done.
Qed.

End WithParsers.

(** ** Invariants through [Exec] *)

Lemma preserves_ret I {A} (a : A) : preserves I (ret a).
Proof. by intros st H. Qed.

Lemma preserves_throw I {A} error : preserves I (@throw A error).
Proof. by intros st H. Qed.

Lemma preserves_defined I {A} (o : option A) : preserves I (defined o).
Proof. destruct o; [apply preserves_ret | apply preserves_throw]. Qed.

Lemma preserves_modify I f : (∀ st, I st → I (f st)) → preserves I (modify f).
Proof. intros H st Hst. by apply H. Qed.

Lemma preserves_call I {A} (f : State → A * State) :
  (∀ st, I st → I (snd (f st))) → preserves I (call f).
Proof.
  intros H st Hst. unfold call. specialize (H st Hst). by destruct (f st).
Qed.

Lemma preserves_bind I {A B} (m : Exec A) (k : A → Exec B) :
  preserves I m → (∀ a, preserves I (k a)) → preserves I (bind m k).
Proof.
  intros Hm Hk st Hst. unfold bind. specialize (Hm st Hst).
  destruct (m st) as [[a|error] st']; simpl in *; [by apply Hk | done].
Qed.

Lemma preserves_for_of I {A} (xs : list A) body :
  (∀ x, preserves I (body x)) → preserves I (for_of xs body).
Proof.
  intros H. induction xs as [|x xs IH]; simpl.
  - apply preserves_ret.
  - apply preserves_bind; [apply H | by intros _].
Qed.

Lemma preserves_with_camera I f :
  (∀ c st, I st → I (set_cameraState c st)) → preserves I (with_camera f).
Proof. intros H. apply preserves_modify. intros st Hst. by apply H. Qed.

Lemma preserves_loadCamera I cam :
  (∀ c st, I st → I (set_cameraState c st)) → preserves I (loadCamera cam).
Proof.
  intros H. unfold loadCamera.
  repeat first
    [ apply preserves_bind; [|intros ?]
    | apply preserves_defined
    | apply preserves_ret
    | by apply preserves_with_camera
    | match goal with |- preserves _ (match ?o with Some _ => _ | None => _ end) =>
        destruct o end
    | match goal with |- preserves _ (if ?b then _ else _) => destruct b end ].
Qed.

Lemma preserves_loadObject I obj :
  (∀ prefix e st,
     I st → I (addListItem e (push_entity e (scene_add_next (snd (generateId prefix st)))))) →
  preserves I (loadObject obj).
Proof.
  intros H. intros st Hst. unfold loadObject.
  destruct obj as [[center|] radius [color|] | [min|] [max|] [color|] | type];
    try done; unfold bind, defined, ret, throw, call, modify; simpl;
    try destruct min as [[? ?] ?]; try destruct max as [[? ?] ?]; simpl; try done.
  - by apply (H "sphere").
  - by apply (H "cube").
Qed.

Lemma preserves_loadLight I lightData :
  (∀ prefix e st,
     I st → I (addListItem e (push_entity e (snd (generateId prefix (scene_add_next st)))))) →
  preserves I (loadLight lightData).
Proof.
  intros H st Hst. unfold loadLight. destruct lightData; [|done].
  unfold bind, defined, ret, throw, call, modify; simpl. by apply (H "light").
Qed.

Lemma preserves_clear (I : State → Prop) :
  (∀ l st, I st → I (removeEntity l st)) → ∀ st, I st → I (clear_entities st).
Proof.
  intros H st. unfold clear_entities. generalize (entities st) as ls.
  intros ls. revert st. induction ls as [|l ls IH]; simpl; [done|].
  intros st Hst. by apply IH, H.
Qed.

Lemma preserves_and (I J : State → Prop) {A} (m : Exec A) :
  preserves I m → preserves J m → preserves (λ st, I st ∧ J st) m.
Proof. intros HI HJ st [? ?]. split; [by apply HI | by apply HJ]. Qed.

Lemma preserves_loadSceneFromJson I data :
  import_stable I →
  (∀ cam, doc_camera data = Some cam → preserves I (loadCamera cam)) →
  (∀ obj, preserves I (loadObject obj)) →
  (∀ lightData, preserves I (loadLight lightData)) →
  preserves I (loadSceneFromJson data).
Proof.
  intros [H1 H3 H4 H5] Hc Ho Hl. unfold loadSceneFromJson.
  apply preserves_bind; [|intros _].
  { apply preserves_modify. intros st Hst. by apply H1. }
  apply preserves_bind; [|intros _].
  { destruct (doc_camera data); [by apply Hc | apply preserves_ret]. }
  apply preserves_bind; [|intros _].
  { destruct (doc_objects data); [by apply preserves_for_of | apply preserves_ret]. }
  apply preserves_bind; [|intros _].
  { destruct (doc_lights data); [by apply preserves_for_of | apply preserves_ret]. }
  apply preserves_bind; [|intros _].
  { apply preserves_modify. intros st Hst. destruct (last (entities st)); by apply H3. }
  by apply preserves_modify.
Qed.

Lemma preserves_importOnLoad I parsed st :
  import_stable I →
  (∀ data, parsed = Some data → preserves I (loadSceneFromJson data)) →
  I st → I (importOnLoad parsed st).
Proof.
  intros HI Hd Hst. unfold importOnLoad. destruct parsed as [data|].
  - specialize (Hd data eq_refl st Hst).
    destruct (loadSceneFromJson data st) as [[[]|error] st']; simpl in *; [done|].
    by apply (is_alert _ HI).
  - by apply (is_alert _ HI).
Qed.

Lemma wf_import_stable : import_stable wf.
Proof.
  constructor.
  - apply preserves_clear. intros. by apply wf_removeEntity.
  - intros. by apply wf_selectEntity.
  - intros. eapply wf_same_core; [apply same_core_refresh | done].
  - intros. eapply wf_same_core; [apply same_core_set_alerts | done].
Qed.

Lemma wf_loadCamera cam : preserves wf (loadCamera cam).
Proof.
  apply preserves_loadCamera. intros c st W.
  eapply wf_same_core; [apply same_core_set_cameraState | done].
Qed.

Lemma wf_loadObject obj : preserves wf (loadObject obj).
Proof.
  apply preserves_loadObject. intros prefix e st W.
  eapply wf_same_core; [apply same_core_addListItem|]. apply wf_push.
  eapply wf_same_core; [apply same_core_scene_add_next|].
  eapply wf_same_core; [apply same_core_generateId|]. done.
Qed.

Lemma wf_loadLight lightData : preserves wf (loadLight lightData).
Proof. apply preserves_loadLight. intros prefix e st W. by apply wf_new. Qed.

Lemma wf_importOnLoad parsed st : wf st → wf (importOnLoad parsed st).
Proof.
  apply preserves_importOnLoad; [apply wf_import_stable|].
  intros data _. apply preserves_loadSceneFromJson; [apply wf_import_stable | | |].
  - intros cam _. apply wf_loadCamera.
  - apply wf_loadObject.
  - apply wf_loadLight.
Qed.

Lemma wf_initial_state : wf initial_state.
Proof.
  constructor; cbn; try done.
  - intros l Hl. by apply elem_of_nil in Hl.
  - constructor.
  - intros r Hr. by apply elem_of_nil in Hr.
Qed.

Section Runs.

Variable parseFloat : string → num.
Variable js_Number : string → num.
Variable parseInt16 : string → num.

#[local] Abbreviation step := (step parseFloat js_Number parseInt16).
#[local] Abbreviation run := (run parseFloat js_Number parseInt16).

Lemma wf_step ev st : wf st → wf (step ev st).
Proof.
  intros W. destruct ev; simpl.
  - by apply wf_createSphereEntity.
  - by apply wf_createCubeEntity.
  - by apply wf_createLightEntity.
  - by apply wf_selectEntity.
  - by apply wf_pointerDown.
  - by apply wf_deleteClick.
  - by apply wf_numberFieldChange.
  - by apply wf_colorFieldInput.
  - by apply wf_gizmoDrag.
  - by apply wf_transformRadioChange.
  - by apply wf_updateCameraStateFromForm.
  - by apply wf_focusOrigin.
  - by apply wf_syncFromView.
  - by apply wf_importOnLoad.
Qed.

Lemma run_snoc evs ev st : run (evs ++ [ev]) st = step ev (run evs st).
Proof. unfold run. by rewrite foldl_app. Qed.

(** Induction over the runs from the initial state: a property of the
    initial state that every handler keeps, given the structural invariant,
    holds after every run. *)
Lemma run_ind (P : State → Prop) :
  P initial_state →
  (∀ ev st, wf st → P st → P (step ev st)) →
  ∀ evs, P (run evs initial_state).
Proof.
  intros H0 Hs evs.
  cut (wf (run evs initial_state) ∧ P (run evs initial_state)); [tauto|].
  induction evs as [|ev evs IH] using rev_ind.
  - split; [apply wf_initial_state | done].
  - rewrite run_snoc. destruct IH as [W HP]. split; [by apply wf_step | by apply Hs].
Qed.

Lemma wf_run evs : wf (run evs initial_state).
Proof. apply run_ind; [apply wf_initial_state | intros; by apply wf_step]. Qed.

End Runs.

(** ** Identifiers *)
Lemma grows_refl st : grows_from (id_view st) st.
Proof. by exists []. Qed.

Lemma grows_same v0 st st' :
  id_view st' = id_view st → grows_from v0 st → grows_from v0 st'.
Proof. intros E (ps & H1 & H2). exists ps. by rewrite E. Qed.

Lemma grows_alloc v0 st st' prefix :
  prefix ∈ prefixes → id_view st' = alloc (id_view st) prefix →
  grows_from v0 st → grows_from v0 st'.
Proof.
  intros Hp E (ps & H1 & H2). exists (ps ++ [prefix]). split.
  - apply Forall_app. split; [done | by constructor].
  - by rewrite foldl_app, <- H2.
Qed.

Lemma fmap_id_alter (f : Entity → Entity) l (h : list Entity) :
  (∀ e, e_id (f e) = e_id e) → e_id <$> alter f l h = e_id <$> h.
Proof.
  intros Hf. rewrite (list_fmap_alter e_id f (λ x, x)).
  - by apply list_alter_id.
  - apply Forall_forall. intros. apply Hf.
Qed.

Lemma view_update l f st :
  (∀ e, e_id (f e) = e_id e) → id_view (update l f st) = id_view st.
Proof. intros Hf. unfold id_view. sproj. by rewrite fmap_id_alter. Qed.

Ltac same_id := intros; repeat (simpl; case_match); reflexivity.

Lemma id_onRadiusChange v e : e_id (onRadiusChange v e) = e_id e.
Proof. unfold onRadiusChange. same_id. Qed.
Lemma id_onSizeChange a v e : e_id (onSizeChange a v e) = e_id e.
Proof. unfold onSizeChange. same_id. Qed.
Lemma id_onIntensityChange c v e : e_id (onIntensityChange c v e) = e_id e.
Proof. unfold onIntensityChange. same_id. Qed.
Lemma id_onDirectionChange a v e : e_id (onDirectionChange a v e) = e_id e.
Proof. unfold onDirectionChange. same_id. Qed.
Lemma id_moveEntity f e : e_id (moveEntity f e) = e_id e.
Proof. unfold moveEntity. same_id. Qed.
Lemma id_dragMesh p e : e_id (dragMesh p e) = e_id e.
Proof. reflexivity. Qed.
Lemma id_updateEntityFromTransform e : e_id (updateEntityFromTransform e) = e_id e.
Proof. unfold updateEntityFromTransform. same_id. Qed.

Lemma view_selectEntity id st : id_view (selectEntity id st) = id_view st.
Proof.
  unfold selectEntity, refreshEntityForm. sproj.
  by destruct (id ≫= λ i, find_entity i st).
Qed.

Lemma view_removeEntity l st : id_view (removeEntity l st) = id_view st.
Proof.
  unfold removeEntity. destruct (lookup_entity l st); [|done]. sproj.
  repeat case_match; reflexivity.
Qed.

Lemma view_deleteClick st : id_view (deleteClick st) = id_view st.
Proof.
  unfold deleteClick. destruct (selectedEntity st); [|done].
  by rewrite view_removeEntity, view_selectEntity.
Qed.

Lemma view_setEntityPosition f st : id_view (setEntityPosition f st) = id_view st.
Proof.
  unfold setEntityPosition. destruct (selectedEntity st); [|done].
  change (id_view (refreshSceneJson ?s)) with (id_view s).
  apply view_update, id_moveEntity.
Qed.

Lemma view_objectChange st : id_view (objectChange st) = id_view st.
Proof.
  unfold objectChange. destruct (selectedEntity st) as [l|] eqn:E; [|done].
  unfold refreshEntityForm. sproj. rewrite E. unfold id_view. sproj.
  by rewrite fmap_id_alter by apply id_updateEntityFromTransform.
Qed.

Lemma view_pushed prefix e st1 st :
  heap st1 = heap st → idCounter st1 = (idCounter st + 1)%N →
  e_id e = prefix +:+ "-" +:+ pretty (idCounter st + 1)%N →
  id_view (addListItem e (push_entity e st1)) = alloc (id_view st) prefix.
Proof.
  unfold id_view, alloc. sproj. intros -> -> He. rewrite fmap_app. simpl.
  by rewrite He.
Qed.

Lemma grows_createSphereEntity v0 st :
  grows_from v0 st → grows_from v0 (createSphereEntity st).
Proof.
  apply (grows_alloc _ _ _ "sphere"); [unfold prefixes; by repeat constructor|].
  unfold createSphereEntity, generateId. cbv beta iota zeta.
  change (id_view (refreshSceneJson ?s)) with (id_view s).
  rewrite view_selectEntity. by apply view_pushed.
Qed.

Lemma grows_createCubeEntity v0 st :
  grows_from v0 st → grows_from v0 (createCubeEntity st).
Proof.
  apply (grows_alloc _ _ _ "cube"); [unfold prefixes; by repeat constructor|].
  unfold createCubeEntity, generateId. cbv beta iota zeta.
  change (id_view (refreshSceneJson ?s)) with (id_view s).
  rewrite view_selectEntity. by apply view_pushed.
Qed.

Lemma grows_createLightEntity v0 st :
  grows_from v0 st → grows_from v0 (createLightEntity st).
Proof.
  apply (grows_alloc _ _ _ "light"); [unfold prefixes; by repeat constructor|].
  unfold createLightEntity, generateId. cbv beta iota zeta.
  change (id_view (refreshSceneJson ?s)) with (id_view s).
  rewrite view_selectEntity. by apply view_pushed.
Qed.

Lemma grows_import_stable v0 : import_stable (grows_from v0).
Proof.
  constructor.
  - apply preserves_clear. intros. eapply grows_same; [apply view_removeEntity | done].
  - intros. eapply grows_same; [apply view_selectEntity | done].
  - intros. by eapply grows_same.
  - intros. by eapply grows_same.
Qed.

Lemma grows_importOnLoad v0 parsed st :
  grows_from v0 st → grows_from v0 (importOnLoad parsed st).
Proof.
  apply preserves_importOnLoad; [apply grows_import_stable|].
  intros data _. apply preserves_loadSceneFromJson; [apply grows_import_stable | | |].
  - intros cam _. apply preserves_loadCamera. intros c st' Hst'.
    by eapply grows_same.
  - intros obj st' Hst'. unfold loadObject.
    destruct obj as [[center|] radius [color|] | [min|] [max|] [color|] | type];
      try done; unfold bind, defined, ret, throw, call, modify; simpl;
      try destruct min as [[? ?] ?]; try destruct max as [[? ?] ?]; simpl; try done.
    + revert Hst'. apply (grows_alloc _ _ _ "sphere"); [unfold prefixes; by repeat constructor|].
      by apply view_pushed.
    + revert Hst'. apply (grows_alloc _ _ _ "cube"); [unfold prefixes; by repeat constructor|].
      by apply view_pushed.
  - intros lightData st' Hst'. unfold loadLight. destruct lightData; [|done].
    unfold bind, defined, ret, throw, call, modify; simpl.
    revert Hst'. apply (grows_alloc _ _ _ "light"); [unfold prefixes; by repeat constructor|].
    by apply view_pushed.
Qed.

Section IdRuns.

Variable parseFloat : string → num.
Variable js_Number : string → num.
Variable parseInt16 : string → num.

#[local] Abbreviation step := (step parseFloat js_Number parseInt16).
#[local] Abbreviation run := (run parseFloat js_Number parseInt16).

Lemma grows_step v0 ev st : grows_from v0 st → grows_from v0 (step ev st).
Proof.
  destruct ev; simpl.
  - apply grows_createSphereEntity.
  - apply grows_createCubeEntity.
  - apply grows_createLightEntity.
  - apply grows_same, view_selectEntity.
  - apply grows_same. unfold pointerDown. repeat case_match; try done.
    apply view_selectEntity.
  - apply grows_same, view_deleteClick.
  - apply grows_same. unfold numberFieldChange. repeat case_match; try done.
    unfold onChange. destruct field.
    + apply view_setEntityPosition.
    + apply view_update, id_onRadiusChange.
    + apply view_update, id_onSizeChange.
    + apply view_update, id_onIntensityChange.
    + apply view_update, id_onDirectionChange.
  - apply grows_same. unfold colorFieldInput. repeat case_match; try done.
    all: apply view_update; unfold onColorChange; same_id.
  - apply grows_same. unfold gizmoDrag. destruct (transform_object st); [|done].
    rewrite view_objectChange. by apply view_update.
  - apply grows_same. unfold transformRadioChange. by repeat case_match.
  - by apply grows_same.
  - by apply grows_same.
  - by apply grows_same.
  - apply grows_importOnLoad.
Qed.

Lemma grows_run evs : grows_from ([], 1%N) (run evs initial_state).
Proof.
  induction evs as [|ev evs IH] using rev_ind.
  - by exists [].
  - rewrite run_snoc. by apply grows_step.
Qed.

End IdRuns.

Lemma foldl_alloc ids c ps :
  foldl alloc (ids, c) ps =
  (ids ++ imap (λ k p, p +:+ "-" +:+ pretty (c + N.of_nat k + 1)%N) ps,
   (c + N.of_nat (length ps))%N).
Proof.
  revert ids c. induction ps as [|p ps IH]; intros ids c; simpl.
  - by rewrite app_nil_r, N.add_0_r.
  - unfold alloc at 2. simpl. rewrite IH, <- app_assoc. simpl. f_equal.
    + f_equal. rewrite N.add_0_r. f_equal. apply imap_ext. intros k p' _. simpl.
      do 3 f_equal. lia.
    + lia.
Qed.

Lemma generated_id_inj p p' (n n' : N) :
  p ∈ prefixes → p' ∈ prefixes →
  p +:+ "-" +:+ pretty n = p' +:+ "-" +:+ pretty n' → n = n'.
Proof.
  unfold prefixes. rewrite !elem_of_cons, !elem_of_nil.
  intros [->|[->|[->|[]]]] [->|[->|[->|[]]]] H; cbn [String.append] in H;
    try discriminate; simplify_eq; by eapply (inj pretty).
Qed.

Lemma generated_ids_NoDup (c : N) ps :
  Forall (λ p, p ∈ prefixes) ps →
  NoDup (imap (λ k p, p +:+ "-" +:+ pretty (c + N.of_nat k + 1)%N) ps).
Proof.
  intros Hps. apply NoDup_alt. intros i j x.
  rewrite !list_lookup_imap. intros Hi Hj.
  destruct (ps !! i) as [p|] eqn:Ei; [|done].
  destruct (ps !! j) as [p'|] eqn:Ej; [|done].
  simpl in *. simplify_eq.
  assert (p ∈ prefixes) by (eapply (Forall_lookup_1 _ _ _ _ Hps Ei)).
  assert (p' ∈ prefixes) by (eapply (Forall_lookup_1 _ _ _ _ Hps Ej)).
  match goal with H : _ +:+ _ = _ |- _ => apply generated_id_inj in H; [lia | done..] end.
Qed.

Section IdTheorem.

Variable parseFloat : string → num.
Variable js_Number : string → num.
Variable parseInt16 : string → num.

#[local] Abbreviation step := (step parseFloat js_Number parseInt16).
#[local] Abbreviation run := (run parseFloat js_Number parseInt16).

Lemma ids_of_run evs :
  ∃ ps, Forall (λ p, p ∈ prefixes) ps ∧
        e_id <$> heap (run evs initial_state) =
          imap (λ k p, p +:+ "-" +:+ pretty (N.of_nat k + 2)%N) ps ∧
        idCounter (run evs initial_state) = (N.of_nat (length ps) + 1)%N.
Proof.
  destruct (grows_run parseFloat js_Number parseInt16 evs) as (ps & Hps & Hv).
  exists ps. rewrite foldl_alloc in Hv. unfold id_view in Hv.
  injection Hv as Hids Hc. split_and!; [done | | lia].
  rewrite Hids. simpl. apply imap_ext. intros k p _. simpl. do 3 f_equal. lia.
Qed.

Lemma ids_facts st ev ps :
  wf st → Forall (λ p, p ∈ prefixes) ps →
  e_id <$> heap st = imap (λ k p, p +:+ "-" +:+ pretty (N.of_nat k + 2)%N) ps →
  NoDup (e_id <$> heap st) ∧
  (∀ l1 l2 e1 e2,
     l1 ∈ entities st → l2 ∈ entities st →
     heap st !! l1 = Some e1 → heap st !! l2 = Some e2 →
     e_id e1 = e_id e2 → l1 = l2) ∧
  (e_id <$> heap st) `prefix_of` (e_id <$> heap (step ev st)).
Proof.
  intros W Hps Hids.
  assert (NoDup (e_id <$> heap st)) as Hnd.
  { rewrite Hids.
    replace (imap _ ps)
      with (imap (λ k p, p +:+ "-" +:+ pretty (1 + N.of_nat k + 1)%N) ps).
    - by apply generated_ids_NoDup.
    - apply imap_ext. intros k p _. simpl. do 3 f_equal. lia. }
  split_and!.
  - done.
  - intros l1 l2 e1 e2 _ _ H1 H2 He.
    eapply (NoDup_lookup _ _ _ (e_id e1) Hnd).
    + by rewrite list_lookup_fmap, H1.
    + by rewrite list_lookup_fmap, H2, He.
  - destruct (grows_step parseFloat js_Number parseInt16 (id_view st) ev st
                (grows_refl st)) as (qs & _ & Hv).
    unfold id_view in Hv at 2. rewrite foldl_alloc in Hv.
    unfold id_view in Hv. injection Hv as Hh _. rewrite Hh. by eexists.
Qed.

(** C5.  After every run of the editor: the k-th entity object ever
    allocated (k = 0, 1, ...) is named prefix-(k+2), so ids are generated
    by a strictly increasing counter; the ids of all entity objects ever
    allocated, deleted ones included, are pairwise distinct, so no id is
    used again and no two entities of the list share one; and a further
    event leaves the id of every existing object as it is, new ids being
    added after the existing ones. *)
Theorem ids_unique_monotone_stable (evs : list Event) (ev : Event) :
  let st := run evs initial_state in
  (∃ ps, Forall (λ p, p ∈ prefixes) ps ∧
         e_id <$> heap st = imap (λ k p, p +:+ "-" +:+ pretty (N.of_nat k + 2)%N) ps ∧
         idCounter st = (N.of_nat (length ps) + 1)%N) ∧
  NoDup (e_id <$> heap st) ∧
  NoDup (entities st) ∧
  (∀ l1 l2 e1 e2,
     l1 ∈ entities st → l2 ∈ entities st →
     heap st !! l1 = Some e1 → heap st !! l2 = Some e2 →
     e_id e1 = e_id e2 → l1 = l2) ∧
  (e_id <$> heap st) `prefix_of` (e_id <$> heap (step ev st)).
Proof.
  intros st. destruct (ids_of_run evs) as (ps & Hps & Hids & Hc).
  destruct (ids_facts st ev ps (wf_run parseFloat js_Number parseInt16 evs) Hps Hids)
    as (H1 & H2 & H3).
  split_and!; try done.
  - by exists ps.
  - apply wf_run.
Qed.

End IdTheorem.

(** ** Selection and removal *)

Ltac frame_step :=
  unfold createSphereEntity, createCubeEntity, createLightEntity, generateId,
    deleteClick, removeEntity, selectEntity, refreshEntityForm, pointerDown,
    numberFieldChange, onChange, colorFieldInput, gizmoDrag, objectChange,
    setEntityPosition, transformRadioChange, updateCameraStateFromForm, focusOrigin,
    syncFromView;
  repeat (sproj; case_match); sproj.

(** A field the handler does not write is read as before. *)
Ltac frame := intros; repeat (progress frame_step); try reflexivity.

Lemma find_entity_none id st :
  (∀ e, e ∈ live st → e_id e ≠ id) → find_entity id st = None.
Proof.
  intros H. unfold find_entity.
  destruct (find _ _) as [l|] eqn:E; [|done]. exfalso.
  apply find_some in E as [Hl Hid]. apply list_elem_of_In in Hl.
  destruct (lookup_entity l st) as [e|] eqn:El; [|done].
  apply bool_decide_eq_true in Hid. apply (H e); [|done].
  unfold live. apply list_elem_of_omap. eauto.
Qed.

Lemma selectEntity_unknown id st :
  (∀ e, e ∈ live st → e_id e ≠ id) → selectedEntity (selectEntity (Some id) st) = None.
Proof. intros H. unfold selectEntity. simpl. by rewrite find_entity_none. Qed.

Lemma selected_selectEntity_None st : selectedEntity (selectEntity None st) = None.
Proof. reflexivity. Qed.

Lemma selected_removeEntity_None l st :
  selectedEntity st = None → selectedEntity (removeEntity l st) = None.
Proof. intros H. unfold removeEntity. frame; sproj; by rewrite ?H in *. Qed.

Lemma selected_deleteClick st : selectedEntity (deleteClick st) = None.
Proof.
  unfold deleteClick. destruct (selectedEntity st) eqn:E; [|done].
  by apply selected_removeEntity_None.
Qed.

Lemma entities_removeEntity l e st :
  heap st !! l = Some e → entities (removeEntity l st) = remove_first l (entities st).
Proof. intros H. unfold removeEntity, lookup_entity. rewrite H. frame. Qed.


Lemma heap_removeEntity l st : heap (removeEntity l st) = heap st.
Proof. frame. Qed.

Lemma options_removeEntity l e st :
  heap st !! l = Some e →
  objectList_options (removeEntity l st) =
  filter (λ value, value ≠ e_id e) (objectList_options st).
Proof. intros H. unfold removeEntity, lookup_entity. rewrite H. frame. Qed.

Lemma text_removeEntity l e st :
  heap st !! l = Some e →
  sceneJsonText (removeEntity l st) = buildSceneJson (removeEntity l st).
Proof. intros H. unfold removeEntity, lookup_entity. rewrite H. frame. Qed.




(** ** Release of resources *)


Lemma entities_selectEntity id st : entities (selectEntity id st) = entities st.
Proof. frame. Qed.

Lemma heap_selectEntity id st : heap (selectEntity id st) = heap st.
Proof. frame. Qed.







Section Release.

Variable parseFloat : string → num.
Variable js_Number : string → num.
Variable parseInt16 : string → num.

#[local] Abbreviation step := (step parseFloat js_Number parseInt16).
#[local] Abbreviation run := (run parseFloat js_Number parseInt16).



End Release.

(** ** Clearing the list *)

Lemma selected_removeEntity l e st :
  heap st !! l = Some e →
  selectedEntity (removeEntity l st) = None ∨
  (selectedEntity (removeEntity l st) = selectedEntity st ∧ selectedEntity st ≠ Some l).
Proof.
  intros El. unfold removeEntity, lookup_entity. rewrite El. sproj.
  destruct (selectedEntity st) as [s|] eqn:Es; simpl; [|by left].
  destruct (heap st !! s) as [se|] eqn:Ese; simpl.
  - case_bool_decide as Eid; [by left|]. right. sproj. rewrite Es. split; [done|].
    intros [= ->]. congruence.
  - right. sproj. rewrite Es. split; [done|]. intros [= ->]. congruence.
Qed.

Lemma remove_all (es : list loc) : foldl (λ a l, remove_first l a) es es = [].
Proof.
  induction es as [|l es IH]; simpl; [done|]. by rewrite bool_decide_eq_true_2.
Qed.

Lemma clear_fold ls st :
  (∀ l, l ∈ ls → l < length (heap st)) →
  (∀ s, selectedEntity st = Some s → s ∈ ls) →
  let st' := foldl (λ st entity, removeEntity entity st) st ls in
  entities st' = foldl (λ a l, remove_first l a) (entities st) ls ∧
  selectedEntity st' = None.
Proof.
  revert st. induction ls as [|l ls IH]; intros st Hb Hs; simpl.
  - split; [done|]. destruct (selectedEntity st) as [s|]; [|done].
    specialize (Hs s eq_refl). by apply elem_of_nil in Hs.
  - assert (is_Some (heap st !! l)) as [e El].
    { apply lookup_lt_is_Some. apply Hb. left. }
    rewrite <- (entities_removeEntity l e st El). apply IH.
    + intros x Hx. rewrite heap_removeEntity. apply Hb. by right.
    + intros s Hs'. destruct (selected_removeEntity l e st El) as [E|[E Hne]];
        [congruence|]. rewrite E in Hs'.
      specialize (Hs s Hs'). apply elem_of_cons in Hs as [->|Hs]; [done | done].
Qed.

Lemma clear_entities_empty st :
  wf st → entities (clear_entities st) = [] ∧ selectedEntity (clear_entities st) = None.
Proof.
  intros W. unfold clear_entities.
  destruct (clear_fold (entities st) st) as [H1 H2].
  - apply W.
  - apply W.
  - by rewrite H1, remove_all.
Qed.

Lemma heap_clear_entities st : heap (clear_entities st) = heap st.
Proof.
  apply (preserves_clear (λ st', heap st' = heap st)); [|done].
  intros l st' H. by rewrite heap_removeEntity.
Qed.

Lemma idCounter_clear_entities st : idCounter (clear_entities st) = idCounter st.
Proof.
  apply (preserves_clear (λ st', idCounter st' = idCounter st)); [|done].
  intros l st' H. rewrite <- H. frame.
Qed.

Lemma cameraState_clear_entities st : cameraState (clear_entities st) = cameraState st.
Proof.
  apply (preserves_clear (λ st', cameraState st' = cameraState st)); [|done].
  intros l st' H. rewrite <- H. frame.
Qed.

Lemma alerts_clear_entities st : alerts (clear_entities st) = alerts st.
Proof.
  apply (preserves_clear (λ st', alerts st' = alerts st)); [|done].
  intros l st' H. rewrite <- H. frame.
Qed.

(** ** Failed imports *)

Lemma loadSceneFromJson_no_position cam objects lights st :
  cam_position cam = None ∨ cam_look_at cam = None →
  loadSceneFromJson (mkDocument (Some cam) objects lights) st =
  (Throw "TypeError", aborted_import cam st).
Proof.
  intros H. unfold loadSceneFromJson, aborted_import.
  destruct cam as [position look_at up fov width height]. simpl in *.
  unfold bind at 1. unfold modify at 1.
  fold (clear_entities st). unfold bind at 1.
  unfold loadCamera. simpl.
  destruct position as [position|].
  - destruct H as [H|H]; [done|]. subst look_at.
    unfold bind, defined, ret, throw, with_camera, modify. simpl.
    by rewrite cameraState_clear_entities.
  - reflexivity.
Qed.

Section ImportFailure.

Variable parseFloat : string → num.
Variable js_Number : string → num.
Variable parseInt16 : string → num.

#[local] Abbreviation step := (step parseFloat js_Number parseInt16).
#[local] Abbreviation run := (run parseFloat js_Number parseInt16).

(** C1, as the code has it.  After every run: an import whose text is not
    valid JSON raises the alert and changes nothing else.  An import whose
    camera block has no [position] or no [look_at] raises the same alert,
    but only after the entities have been removed: the list is empty and
    nothing is selected; the entity objects, the id counter and - when
    [position] is the missing field - the camera state are as before,
    while a [position] that is present has already been stored. *)
Theorem import_failure (evs : list Event) :
  let st := run evs initial_state in
  let message := "Failed to parse scene JSON" in
  importOnLoad None st = set_alerts (alerts st ++ [message]) st ∧
  ∀ cam objects lights,
    cam_position cam = None ∨ cam_look_at cam = None →
    let st' := importOnLoad (Some (mkDocument (Some cam) objects lights)) st in
    st' = set_alerts (alerts st ++ [message]) (aborted_import cam st) ∧
    entities st' = [] ∧
    selectedEntity st' = None ∧
    heap st' = heap st ∧
    idCounter st' = idCounter st ∧
    (cam_position cam = None → cameraState st' = cameraState st).
Proof.
  intros st message. split; [reflexivity|].
  intros cam objects lights H st'.
  assert (wf st) as W by apply wf_run.
  destruct (clear_entities_empty st W) as [He Hs].
  assert (st' = set_alerts (alerts st ++ [message]) (aborted_import cam st)) as ->.
  { unfold st', importOnLoad. rewrite loadSceneFromJson_no_position by done.
    f_equal. unfold aborted_import.
    destruct (cam_position cam); sproj; by rewrite alerts_clear_entities. }
  unfold aborted_import.
  destruct (cam_position cam) as [position|]; sproj;
    rewrite ?heap_clear_entities, ?idCounter_clear_entities; split_and!; try done.
  intros _. apply cameraState_clear_entities.
Qed.

End ImportFailure.

(** C1 fails as stated: a sphere is on the list, the camera block of the
    imported document has no [position]; the import is aborted with the
    alert, and the sphere is gone. *)
Lemma import_failure_clears_the_list :
  let st := createSphereEntity initial_state in
  let data := mkDocument (Some (mkCameraDoc None None None None None None)) None None in
  let st' := importOnLoad (Some data) st in
  alerts st' = ["Failed to parse scene JSON"] ∧
  entities st = [0] ∧ entities st' = [] ∧
  selectedEntity st = Some 0 ∧ selectedEntity st' = None ∧
  disposed st = [] ∧ disposed st' = [MeshGeometry 0; MeshMaterial 0].
Proof. vm_compute. repeat split. Qed.

(** The failure of [import_failure], on the same run. *)
Lemma import_failure_witness :
  let st := editor_run [AddSphere] initial_state in
  let cam := mkCameraDoc None None None None None None in
  let st' := importOnLoad (Some (mkDocument (Some cam) None None)) st in
  entities st' = [] ∧ selectedEntity st' = None ∧ idCounter st' = idCounter st.
Proof.
  intros st cam st'.
  destruct (import_failure decimal_parseFloat decimal_Number hex_parseInt [AddSphere])
    as [_ H].
  destruct (H cam None None (or_introl eq_refl)) as (_ & H1 & H2 & _ & H3 & _).
  by split_and!.
Defined.

Section SelectionAndDelete.

Variable parseFloat : string → num.
Variable js_Number : string → num.
Variable parseInt16 : string → num.

#[local] Abbreviation step := (step parseFloat js_Number parseInt16).
#[local] Abbreviation run := (run parseFloat js_Number parseInt16).

(** C7.  After every run: the selection is one optional reference, so at
    most one entity is selected; a selected entity is an entity of the
    list (and so an allocated object); selecting an id that no entity of
    the list bears leaves nothing selected; pressing delete leaves nothing
    selected. *)
Theorem single_live_selection (evs : list Event) :
  let st := run evs initial_state in
  (∀ l1 l2, selectedEntity st = Some l1 → selectedEntity st = Some l2 → l1 = l2) ∧
  (∀ l, selectedEntity st = Some l → l ∈ entities st ∧ is_Some (heap st !! l)) ∧
  (∀ id, (∀ e, e ∈ live st → e_id e ≠ id) →
         selectedEntity (step (ObjectListChange id) st) = None) ∧
  selectedEntity (step DeleteClick st) = None.
Proof.
  intros st. assert (wf st) as W by apply wf_run. split_and!.
  - congruence.
  - intros l Hl. pose proof (wf_selected _ W l Hl) as Hin. split; [done|].
    apply lookup_lt_is_Some. by apply W.
  - intros id Hid. by apply selectEntity_unknown.
  - apply selected_deleteClick.
Qed.


End SelectionAndDelete.


(** ** The camera block *)

Lemma camera_import_stable {A} (f : CameraState → A) v :
  import_stable (λ st, f (cameraState st) = v).
Proof.
  constructor.
  - intros st H. by rewrite cameraState_clear_entities.
  - intros id st H. rewrite <- H. f_equal. frame.
  - done.
  - done.
Qed.

Lemma camera_loadObject {A} (f : CameraState → A) v obj :
  preserves (λ st, f (cameraState st) = v) (loadObject obj).
Proof. by apply preserves_loadObject. Qed.

Lemma camera_loadLight {A} (f : CameraState → A) v lightData :
  preserves (λ st, f (cameraState st) = v) (loadLight lightData).
Proof. by apply preserves_loadLight. Qed.

Ltac camera_fields :=
  repeat first
    [ apply preserves_bind; [|intros ?]
    | apply preserves_defined
    | apply preserves_ret
    | (apply preserves_modify; let H := fresh in intros ? H; exact H)
    | match goal with |- preserves _ (match ?o with Some _ => _ | None => _ end) =>
        destruct o end
    | match goal with |- preserves _ (if ?b then _ else _) => destruct b eqn:? end ].

Lemma truthy_zero : truthy (int 0) = false.
Proof. by vm_compute. Qed.

(** A camera field that is absent or zero leaves the stored value. *)
Lemma loadCamera_keeps_fov cam v :
  cam_fov cam = None ∨ cam_fov cam = Some (int 0) →
  preserves (λ st, cs_fov (cameraState st) = v) (loadCamera cam).
Proof.
  intros H. unfold loadCamera, with_camera.
  destruct cam as [position look_at up fov width height]; simpl in *.
  destruct H as [->| ->]; rewrite ?truthy_zero; camera_fields.
Qed.

Lemma loadCamera_keeps_width cam v :
  cam_width cam = None ∨ cam_width cam = Some (int 0) →
  preserves (λ st, cs_width (cameraState st) = v) (loadCamera cam).
Proof.
  intros H. unfold loadCamera, with_camera.
  destruct cam as [position look_at up fov width height]; simpl in *.
  destruct H as [->| ->]; rewrite ?truthy_zero; camera_fields.
Qed.

Lemma loadCamera_keeps_height cam v :
  cam_height cam = None ∨ cam_height cam = Some (int 0) →
  preserves (λ st, cs_height (cameraState st) = v) (loadCamera cam).
Proof.
  intros H. unfold loadCamera, with_camera.
  destruct cam as [position look_at up fov width height]; simpl in *.
  destruct H as [->| ->]; rewrite ?truthy_zero; camera_fields.
Qed.

Lemma loadSceneFromJson_keeps {A} (f : CameraState → A) cam objects lights st :
  preserves (λ st', f (cameraState st') = f (cameraState st)) (loadCamera cam) →
  f (cameraState (loadSceneFromJson (mkDocument (Some cam) objects lights) st).2) =
  f (cameraState st).
Proof.
  intros H.
  apply (preserves_loadSceneFromJson (λ st', f (cameraState st') = f (cameraState st)));
    [apply camera_import_stable | | apply camera_loadObject | apply camera_loadLight
    | done].
  by intros cam' [= <-].
Qed.

(** C10.  During import a camera field [fov], [width] or [height] that is
    present and equal to 0 is treated exactly as a missing field: the
    import runs the same way and ends in the same state, and in that state
    the field of the camera state has the value it had before the
    import. *)
Theorem zero_camera_field_is_missing
    (position look_at up : option arr3) (fov width height : option num)
    (objects : option (list ObjectDoc)) (lights : option (list LightDoc))
    (st : State) :
  let load f w h :=
    loadSceneFromJson
      (mkDocument (Some (mkCameraDoc position look_at up f w h)) objects lights) st in
  load (Some (int 0)) width height = load None width height ∧
  load fov (Some (int 0)) height = load fov None height ∧
  load fov width (Some (int 0)) = load fov width None ∧
  cs_fov (cameraState (load (Some (int 0)) width height).2) = cs_fov (cameraState st) ∧
  cs_width (cameraState (load fov (Some (int 0)) height).2) = cs_width (cameraState st) ∧
  cs_height (cameraState (load fov width (Some (int 0))).2) = cs_height (cameraState st).
Proof.
  intros load. unfold load. split_and!.
  - unfold loadSceneFromJson, loadCamera.
    cbn [doc_camera cam_position cam_look_at cam_up cam_fov cam_width cam_height].
    by rewrite truthy_zero.
  - unfold loadSceneFromJson, loadCamera.
    cbn [doc_camera cam_position cam_look_at cam_up cam_fov cam_width cam_height].
    by rewrite truthy_zero.
  - unfold loadSceneFromJson, loadCamera.
    cbn [doc_camera cam_position cam_look_at cam_up cam_fov cam_width cam_height].
    by rewrite truthy_zero.
  - apply (loadSceneFromJson_keeps cs_fov), loadCamera_keeps_fov. by right.
  - apply (loadSceneFromJson_keeps cs_width), loadCamera_keeps_width. by right.
  - apply (loadSceneFromJson_keeps cs_height), loadCamera_keeps_height. by right.
Qed.

(** ** Invariants of the entity objects *)

Lemma heap_new e st1 : heap (addListItem e (push_entity e st1)) = heap st1 ++ [e].
Proof. reflexivity. Qed.

Lemma preserves_for_of_Forall I {A} (Q : A → Prop) (xs : list A) body :
  Forall Q xs → (∀ x, Q x → preserves I (body x)) → preserves I (for_of xs body).
Proof.
  intros HQ H. induction HQ as [|x xs Hx HQ IH]; simpl.
  - apply preserves_ret.
  - apply preserves_bind; [by apply H | by intros _].
Qed.

Section EntityInvariant.

Variable parseFloat : string → num.
Variable js_Number : string → num.
Variable parseInt16 : string → num.
Variable P : Entity → Prop.
Variable Qo : ObjectDoc → Prop.
Variable Ql : LightDoc → Prop.
Hypothesis HP : entity_invariant parseInt16 P Qo Ql.

#[local] Abbreviation step := (step parseFloat js_Number parseInt16).
#[local] Abbreviation run := (run parseFloat js_Number parseInt16).
#[local] Abbreviation holds := (all_entities P).

Lemma holds_update l f st :
  (∀ e, P e → P (f e)) → holds st → holds (update l f st).
Proof. intros Hf H. unfold all_entities in *. sproj. apply Forall_alter; [done | auto]. Qed.

Lemma holds_pushed e st st1 :
  heap st1 = heap st → P e → holds st → holds (addListItem e (push_entity e st1)).
Proof.
  intros Hh He H. unfold all_entities in *.
  rewrite heap_new, Hh. apply Forall_app. split; [done | by constructor].
Qed.

Lemma holds_import_stable : import_stable holds.
Proof.
  constructor; unfold all_entities.
  - intros st H. by rewrite heap_clear_entities.
  - intros id st H. by rewrite heap_selectEntity.
  - done.
  - done.
Qed.

Lemma holds_loadObject obj : Qo obj → preserves holds (loadObject obj).
Proof.
  intros HQ st Hst. unfold loadObject.
  destruct obj as [[center|] radius [color|] | [min|] [max|] [color|] | type];
    try done; unfold bind, defined, ret, throw, call, modify; simpl.
  - apply (holds_pushed _ st); [done | | done]. by apply (ei_loaded_sphere _ _ _ _ HP).
  - apply (holds_pushed _ st); [done | | done]. by apply (ei_loaded_cube _ _ _ _ HP).
Qed.

Lemma holds_loadLight lightData : Ql lightData → preserves holds (loadLight lightData).
Proof.
  intros HQ st Hst. unfold loadLight. destruct lightData; [|done].
  unfold bind, defined, ret, throw, call, modify; simpl.
  apply (holds_pushed _ st); [done | | done]. by apply (ei_loaded_light _ _ _ _ HP).
Qed.

Lemma holds_importOnLoad parsed st :
  import_ok Qo Ql (ImportLoaded parsed) → holds st → holds (importOnLoad parsed st).
Proof.
  intros Hok. apply preserves_importOnLoad; [apply holds_import_stable|].
  intros data ->. destruct Hok as [Ho Hl]. unfold loadSceneFromJson.
  apply preserves_bind; [|intros _].
  { apply preserves_modify. apply holds_import_stable. }
  apply preserves_bind; [|intros _].
  { destruct (doc_camera data); [|apply preserves_ret].
    by apply preserves_loadCamera. }
  apply preserves_bind; [|intros _].
  { destruct (doc_objects data); [|apply preserves_ret].
    eapply preserves_for_of_Forall; [exact Ho | apply holds_loadObject]. }
  apply preserves_bind; [|intros _].
  { destruct (doc_lights data); [|apply preserves_ret].
    eapply preserves_for_of_Forall; [exact Hl | apply holds_loadLight]. }
  apply preserves_bind; [|intros _].
  { apply preserves_modify. unfold all_entities. intros st' H.
    destruct (last (entities st')); by rewrite heap_selectEntity. }
  by apply preserves_modify.
Qed.

Lemma holds_step ev st :
  wf st → import_ok Qo Ql ev → holds st → holds (step ev st).
Proof.
  intros W Hok H. destruct ev; simpl; unfold all_entities.
  - unfold createSphereEntity, generateId. cbv beta iota zeta.
    change (heap (refreshSceneJson ?s)) with (heap s). rewrite heap_selectEntity.
    apply (holds_pushed _ st); [done | apply (ei_sphere _ _ _ _ HP) | done].
  - unfold createCubeEntity, generateId. cbv beta iota zeta.
    change (heap (refreshSceneJson ?s)) with (heap s). rewrite heap_selectEntity.
    apply (holds_pushed _ st); [done | apply (ei_cube _ _ _ _ HP) | done].
  - unfold createLightEntity, generateId. cbv beta iota zeta.
    change (heap (refreshSceneJson ?s)) with (heap s). rewrite heap_selectEntity.
    apply (holds_pushed _ st); [done | apply (ei_light _ _ _ _ HP) | done].
  - by rewrite heap_selectEntity.
  - unfold pointerDown. repeat case_match; try done. by rewrite heap_selectEntity.
  - unfold deleteClick. case_match; [|done].
    by rewrite heap_removeEntity, heap_selectEntity.
  - unfold numberFieldChange. repeat case_match; try done.
    match goal with H : negb (Number_isNaN ?v) = true |- _ =>
      apply negb_true_iff in H; rename H into Hv end.
    unfold onChange. destruct field.
    + unfold setEntityPosition. case_match; [|done].
      change (heap (refreshSceneJson ?s)) with (heap s).
      apply holds_update; [|done]. intros. by apply (ei_move _ _ _ _ HP).
    + change (heap (refreshSceneJson ?s)) with (heap s).
      apply holds_update; [|done]. intros. by apply (ei_radius _ _ _ _ HP).
    + change (heap (refreshSceneJson ?s)) with (heap s).
      apply holds_update; [|done]. intros. by apply (ei_size _ _ _ _ HP).
    + change (heap (refreshSceneJson ?s)) with (heap s).
      apply holds_update; [|done]. intros. by apply (ei_intensity _ _ _ _ HP).
    + change (heap (refreshSceneJson ?s)) with (heap s).
      apply holds_update; [|done]. intros. by apply (ei_direction _ _ _ _ HP).
  - unfold colorFieldInput. repeat case_match; try done.
    all: change (heap (refreshSceneJson ?s)) with (heap s).
    all: apply holds_update; [|done]; intros; by apply (ei_color _ _ _ _ HP).
  - unfold gizmoDrag. destruct (transform_object st) as [l|] eqn:Et; [|done].
    pose proof (wf_gizmo _ W l Et) as Hs.
    unfold objectChange, refreshEntityForm. sproj. rewrite Hs. sproj.
    rewrite list_alter_alter_eq. apply Forall_alter; [done|].
    intros e _ He. by apply (ei_drag _ _ _ _ HP).
  - unfold transformRadioChange. by repeat case_match.
  - done.
  - done.
  - done.
  - by apply holds_importOnLoad.
Qed.

Lemma holds_run evs :
  Forall (import_ok Qo Ql) evs → holds (run evs initial_state).
Proof.
  induction evs as [|ev evs IH] using rev_ind; intros Hok.
  - by constructor.
  - apply Forall_app in Hok as [Hok Hev]. apply Forall_cons in Hev as [Hev _].
    rewrite run_snoc. apply holds_step; [apply wf_run | done | by apply IH].
Qed.

(** The invariant, for the entities of the list. *)
Lemma holds_live evs e :
  Forall (import_ok Qo Ql) evs → e ∈ live (run evs initial_state) → P e.
Proof.
  intros Hok He. apply list_elem_of_omap in He as (l & _ & Hl).
  pose proof (holds_run evs Hok) as H.
  eapply (Forall_lookup_1 _ _ _ _ H Hl).
Qed.

End EntityInvariant.

(** ** The floor of radius and extents *)

(** All the cases of an entity object: its fields, the base geometry of
    its mesh and the shape of its record. *)
Ltac entity_fields :=
  cbn [e_id e_label e_mesh e_helper e_light e_data m_position m_scale m_geometry
       m_material set_mesh set_data set_helper set_light set_position set_scale
       set_material v_x v_y v_z c_r c_g c_b vec ones origin vec_of_arr
       color_of_arr] in *.

Ltac entity_cases e :=
  destruct e as [? ? [? ? [[?|? ? ?]|] ?] ? ? [? ? ?|? ? ?|? ? ?]]; entity_fields.

Lemma box_shaped_invariant parseInt16 :
  entity_invariant parseInt16 box_shaped (λ _, True) (λ _, True).
Proof.
  constructor; unfold box_shaped; try done.
  - intros. simpl. eauto.
  - intros id [[? ?] ?] [[? ?] ?] spread _. simpl. eauto.
  - intros axis value e _. unfold moveEntity. entity_cases e; eauto.
  - intros value e _. unfold onRadiusChange. entity_cases e; eauto.
  - intros axis value e _. unfold onSizeChange. entity_cases e; eauto.
  - intros channel value e _. unfold onIntensityChange. entity_cases e; eauto.
  - intros axis value e _. unfold onDirectionChange. entity_cases e; eauto.
  - intros hex e. unfold onColorChange. entity_cases e; eauto.
  - intros p e. unfold updateEntityFromTransform, dragMesh. entity_cases e; eauto.
Qed.

Lemma refresh_update_idem l f st :
  (∀ e, heap st !! l = Some e → f (f e) = f e) →
  refreshSceneJson (update l f (refreshSceneJson (update l f st))) =
  refreshSceneJson (update l f st).
Proof.
  intros Hf.
  assert (alter f l (alter f l (heap st)) = alter f l (heap st)) as Hh.
  { rewrite list_alter_alter_eq. apply list_alter_ext; [|done].
    intros e He. by apply Hf. }
  unfold refreshSceneJson, buildSceneJson, live. sproj. by rewrite !Hh.
Qed.

Lemma onRadiusChange_floor value e center radius color :
  e_data e = SphereData center radius color →
  js_lt value (lit 1 10) = true →
  e_data (onRadiusChange value e) = SphereData center (lit 1 10) color ∧
  onRadiusChange value (onRadiusChange value e) = onRadiusChange value e.
Proof.
  intros E Hv. unfold onRadiusChange, lit in *.
  entity_cases e; try discriminate; injection E as -> -> ->;
    rewrite !Math_max_floor by done; (split; [done|]); by destruct center.
Qed.

Lemma onSizeChange_floor axis value e center size color width height depth :
  e_data e = CubeData center size color →
  m_geometry (e_mesh e) = Some (BoxGeometry width height depth) →
  js_lt value (lit 1 10) = true →
  (∃ size', e_data (onSizeChange axis value e) = CubeData center size' color ∧
            component axis size' = lit 1 10) ∧
  onSizeChange axis value (onSizeChange axis value e) = onSizeChange axis value e.
Proof.
  intros E G Hv. unfold onSizeChange, lit in *.
  entity_cases e; try discriminate; injection E as -> -> ->; injection G as -> -> ->.
  rewrite !Math_max_floor by done. split.
  - eexists. split; [done|]. by destruct axis.
  - destruct size, axis; reflexivity.
Qed.

Section Floor.

Variable parseFloat : string → num.
Variable js_Number : string → num.
Variable parseInt16 : string → num.

#[local] Abbreviation step := (step parseFloat js_Number parseInt16).
#[local] Abbreviation run := (run parseFloat js_Number parseInt16).

Lemma form_entity_after l e f st :
  form_entity st = Some (l, e) →
  form_entity (refreshSceneJson (update l f st)) = Some (l, f e).
Proof.
  unfold form_entity. sproj. destruct (entityEditor_hidden st); [done|].
  destruct (entityForm st) as [l'|]; [|done]. simpl.
  destruct (heap st !! l') as [e'|] eqn:E; [|done]. simpl. intros [= -> ->].
  by rewrite list_lookup_alter_eq, E.
Qed.

Lemma form_entity_lookup l e st : form_entity st = Some (l, e) → heap st !! l = Some e.
Proof.
  unfold form_entity. sproj. destruct (entityEditor_hidden st); [done|].
  destruct (entityForm st) as [l'|]; [|done]. simpl.
  destruct (heap st !! l') as [e'|] eqn:E; [|done]. simpl. by intros [= -> ->].
Qed.

(** C9.  After every run, when the form shows a sphere and a text whose
    value is below 0.1 is committed in its Radius field, the radius of the
    sphere is exactly 0.1, and committing the same text again leaves the
    state as it is (the radius is 0.1 again); the same holds for the Width,
    Height and Depth fields of a cube and the extent along that axis.  The
    handler is a total function: there is no error. *)
Theorem radius_and_extent_floor (evs : list Event) (l : loc) (e : Entity) (text : string) :
  let st := run evs initial_state in
  form_entity st = Some (l, e) →
  js_lt (parseFloat text) (lit 1 10) = true →
  match e_data e with
  | SphereData _ _ _ =>
      let st1 := step (NumberFieldChange RadiusField text) st in
      radius_of l st1 = Some (lit 1 10) ∧
      step (NumberFieldChange RadiusField text) st1 = st1
  | CubeData _ _ _ =>
      ∀ axis,
        let st1 := step (NumberFieldChange (SizeField axis) text) st in
        extent_of axis l st1 = Some (lit 1 10) ∧
        step (NumberFieldChange (SizeField axis) text) st1 = st1
  | LightData _ _ _ => True
  end.
Proof.
  intros st Hform Hv.
  pose proof (form_entity_lookup l e st Hform) as Hl.
  pose proof (js_lt_not_NaN _ _ Hv) as Hnan.
  assert (box_shaped e) as Hbox.
  { pose proof (holds_run parseFloat js_Number parseInt16 _ _ _
                  (box_shaped_invariant parseInt16) evs) as H.
    eapply (Forall_lookup_1 _ _ _ _ (H _) Hl). Unshelve.
    apply Forall_forall. intros ev _. destruct ev as [| | | | | | | | | | | | |[?|]]; simpl; try done.
    split; apply Forall_forall; done. }
  destruct (e_data e) as [center radius color|center size color|] eqn:E; [| |done].
  - destruct (onRadiusChange_floor _ e center radius color E Hv) as [Hd Hidem].
    intros st1.
    assert (st1 = refreshSceneJson (update l (onRadiusChange (parseFloat text)) st)) as ->.
    { unfold st1. simpl. unfold numberFieldChange. rewrite Hform.
      unfold has_field. by rewrite E, Hnan. }
    split.
    + unfold radius_of. sproj. by rewrite list_lookup_alter_eq, Hl; simpl; rewrite Hd.
    + simpl. unfold numberFieldChange.
      rewrite (form_entity_after l e _ st Hform). unfold has_field.
      rewrite Hd, Hnan. simpl. apply refresh_update_idem.
      intros e' He'. rewrite Hl in He'. by injection He' as <-.
  - unfold box_shaped in Hbox. rewrite E in Hbox. destruct Hbox as (w & h & d & G).
    intros axis.
    destruct (onSizeChange_floor axis _ e center size color w h d E G Hv)
      as [(size' & Hd & Hc) Hidem].
    intros st1.
    assert (st1 = refreshSceneJson (update l (onSizeChange axis (parseFloat text)) st))
      as ->.
    { unfold st1. simpl. unfold numberFieldChange. rewrite Hform.
      unfold has_field. by rewrite E, Hnan. }
    split.
    + unfold extent_of. sproj.
      by rewrite list_lookup_alter_eq, Hl; simpl; rewrite Hd, Hc.
    + simpl. unfold numberFieldChange.
      rewrite (form_entity_after l e _ st Hform). unfold has_field.
      rewrite Hd, Hnan. simpl. apply refresh_update_idem.
      intros e' He'. rewrite Hl in He'. by injection He' as <-.
Qed.

End Floor.

(** [radius_and_extent_floor] on two runs: a sphere, then a cube, with the
    text -5 committed twice. *)
Lemma radius_and_extent_floor_witness :
  (let st := editor_run [AddSphere] initial_state in
   let st1 := editor_step (NumberFieldChange RadiusField "-5") st in
   radius_of 0 st1 = Some (lit 1 10) ∧
   editor_step (NumberFieldChange RadiusField "-5") st1 = st1) ∧
  (let st := editor_run [AddCube] initial_state in
   let st1 := editor_step (NumberFieldChange (SizeField AxisY) "-5") st in
   extent_of AxisY 0 st1 = Some (lit 1 10) ∧
   editor_step (NumberFieldChange (SizeField AxisY) "-5") st1 = st1).
Proof.
  split.
  - assert (form_entity (editor_run [AddSphere] initial_state) =
            Some (0, newSphereEntity "sphere-2")) as Hform by (by vm_compute).
    assert (js_lt (decimal_parseFloat "-5") (lit 1 10) = true) as Hv by (by vm_compute).
    exact (radius_and_extent_floor decimal_parseFloat decimal_Number hex_parseInt
             [AddSphere] 0 (newSphereEntity "sphere-2") "-5" Hform Hv).
  - assert (form_entity (editor_run [AddCube] initial_state) =
            Some (0, newCubeEntity "cube-2")) as Hform by (by vm_compute).
    assert (js_lt (decimal_parseFloat "-5") (lit 1 10) = true) as Hv by (by vm_compute).
    exact (radius_and_extent_floor decimal_parseFloat decimal_Number hex_parseInt
             [AddCube] 0 (newCubeEntity "cube-2") "-5" Hform Hv AxisY).
Defined.

(** ** Texts that are not finite numbers *)

Section NumberFields.

Variable parseFloat : string → num.
Variable js_Number : string → num.


(** The listener tests for [NaN] only: a text that [parseFloat] reads as
    an infinity would reach the callback of the Radius field, which stores
    it.  An input of type number hands out no such text. *)
Lemma numberFieldChange_infinity text st l e center radius color :
  parseFloat text = PInf →
  form_entity st = Some (l, e) → e_data e = SphereData center radius color →
  radius_of l (numberFieldChange parseFloat RadiusField text st) = Some PInf.
Proof.
  intros H Hform E. unfold numberFieldChange. rewrite Hform, H.
  unfold has_field. rewrite E. simpl.
  unfold radius_of, form_entity in *. sproj.
  destruct (entityEditor_hidden st); [done|].
  destruct (entityForm st) as [l'|]; [|done]. simpl in Hform.
  destruct (heap st !! l') as [e'|] eqn:El; [|done]. simpl in Hform.
  injection Hform as -> ->.
  rewrite list_lookup_alter_eq, El. simpl. unfold onRadiusChange. by rewrite E.
Qed.

(** The camera form takes the other path: [parseNumber] falls back on the
    stored value unless the text is a finite number. *)
Lemma parseNumber_finite value fallback :
  Number_isFinite fallback = true →
  Number_isFinite (parseNumber js_Number value fallback) = true.
Proof. intros H. unfold parseNumber. by destruct (Number_isFinite (js_Number value)) eqn:E. Qed.

End NumberFields.

(** ** Colours *)

Lemma channels_in_unit : forallb channel_in_unit (Z.of_nat <$> seq 0 256) = true.
Proof. by vm_compute. Qed.

Lemma byte_in_unit (v : Z) : in_unit (js_div (int (Z.land v 255)) (int 255)).
Proof.
  assert (0 ≤ Z.land v 255 < 256)%Z as Hb.
  { change 255%Z with (Z.ones 8). rewrite Z.land_ones by lia.
    apply Z.mod_pos_bound. lia. }
  pose proof channels_in_unit as H. rewrite forallb_forall in H.
  specialize (H (Z.land v 255)).
  assert (channel_in_unit (Z.land v 255) = true) as Hc.
  { apply H. apply list_elem_of_In, list_elem_of_fmap.
    exists (Z.to_nat (Z.land v 255)). split; [lia|].
    apply elem_of_seq. lia. }
  unfold channel_in_unit in Hc. apply andb_true_iff in Hc. exact Hc.
Qed.

Lemma hexToColor_in_unit parseInt16 hex : unit_color (hexToColor parseInt16 hex).
Proof. unfold hexToColor, unit_color. simpl. split_and!; apply byte_in_unit. Qed.

Lemma colors_in_unit_invariant parseInt16 :
  entity_invariant parseInt16 colors_in_unit record_colors_in_unit (λ _, True).
Proof.
  constructor; unfold colors_in_unit; try done.
  - intros id center radius [[r g] b] H. exact H.
  - intros id [[? ?] ?] [[? ?] ?] [[r g] b] H. exact H.
  - intros axis value e _. unfold moveEntity. entity_cases e; eauto.
  - intros value e _. unfold onRadiusChange. entity_cases e; eauto.
  - intros axis value e _. unfold onSizeChange. entity_cases e; eauto.
  - intros channel value e _. unfold onIntensityChange. entity_cases e; eauto.
  - intros axis value e _. unfold onDirectionChange. entity_cases e; eauto.
  - intros hex e _. unfold onColorChange.
    entity_cases e; try done; apply hexToColor_in_unit.
  - intros p e. unfold updateEntityFromTransform, dragMesh. entity_cases e; eauto.
Qed.

Section Colours.

Variable parseFloat : string → num.
Variable js_Number : string → num.
Variable parseInt16 : string → num.

#[local] Abbreviation run := (run parseFloat js_Number parseInt16).

(** C4, as the code has it.  The codec writes the stored colour of a
    sphere or cube as it is ([colorToArray] does not clamp; [clamp01] serves
    the colour field only).  After every run whose imported documents have
    their object colours within [0, 1], every colour channel of every object
    record of the encoded document is within [0, 1]: the creation defaults
    and the colours set through the colour field are. *)
Theorem encoded_colours_in_unit (evs : list Event) :
  Forall (import_ok record_colors_in_unit (λ _, True)) evs →
  document_colors_in_unit (buildSceneJson (run evs initial_state)).
Proof.
  intros Hok. unfold document_colors_in_unit, buildSceneJson. simpl.
  apply Forall_forall. intros obj Hobj.
  apply list_elem_of_omap in Hobj as (e & He & Hrec).
  pose proof (holds_live parseFloat js_Number parseInt16 _ _ _
                (colors_in_unit_invariant parseInt16) evs e Hok He) as Hc.
  unfold colors_in_unit, object_record in *.
  destruct (e_data e) as [center radius [r g b]|center size [r g b]|]; [| |done].
  - injection Hrec as <-. exact Hc.
  - injection Hrec as <-. exact Hc.
Qed.

End Colours.

(** C4 fails as stated: a sphere imported with the colour [2, -1, 0.5] is
    written back with the same colour, where clamping gives [1, 0, 0.5]. *)
Lemma imported_colour_is_not_clamped :
  let colour := (int 2, int (-1), lit 5 10) in
  let sphere := SphereDoc (Some (int 0, int 0, int 0)) (int 1) (Some colour) in
  let st := importOnLoad (Some (mkDocument None (Some [sphere]) None)) initial_state in
  doc_objects (buildSceneJson st) = Some [sphere] ∧
  js_le (int 2) (int 1) = false ∧ js_le (int 0) (int (-1)) = false ∧
  clamp01 (int 2) = int 1 ∧ clamp01 (int (-1)) = int 0.
Proof. by vm_compute. Qed.

(** [encoded_colours_in_unit] on a run: a sphere is added, its colour is
    set through the colour field, and a document with a colour within
    [0, 1] is imported. *)
Lemma encoded_colours_in_unit_witness :
  let sphere :=
    SphereDoc (Some (int 0, int 0, int 0)) (int 1) (Some (lit 2 10, lit 2 10, int 1)) in
  let evs :=
    [AddSphere; ColorFieldInput "#ff8000";
     ImportLoaded (Some (mkDocument None (Some [sphere]) None)); AddCube] in
  document_colors_in_unit (buildSceneJson (editor_run evs initial_state)).
Proof.
  intros sphere evs.
  apply (encoded_colours_in_unit decimal_parseFloat decimal_Number hex_parseInt evs).
  repeat (constructor; simpl; try done).
Defined.

(** ** Node and canonical record *)


Lemma axisUpdater_same axis v : axisUpdater axis (component axis v) v = v.
Proof. by destruct v, axis. Qed.










Section Sync.

Variable parseFloat : string → num.
Variable js_Number : string → num.
Variable parseInt16 : string → num.

#[local] Abbreviation run := (run parseFloat js_Number parseInt16).



End Sync.



(** ** Import followed by export *)

Lemma toArray_vec_of_arr a : toArray (vec_of_arr a) = a.
Proof. by destruct a as [[? ?] ?]. Qed.

Lemma colorToArray_color_of_arr a : colorToArray (color_of_arr a) = a.
Proof. by destruct a as [[? ?] ?]. Qed.

Lemma live_new e st : bounded st → live (addListItem e (push_entity e st)) = live st ++ [e].
Proof.
  intros Hb. unfold live. sproj. rewrite omap_app. f_equal.
  - apply list_omap_ext. apply Forall2_same_length_lookup. split; [done|].
    intros i l l' Hl Hl'. rewrite Hl in Hl'. injection Hl' as <-.
    apply lookup_app_l. apply Hb. by eapply list_elem_of_lookup_2.
  - simpl. rewrite lookup_app_r by lia. by rewrite Nat.sub_diag.
Qed.

Lemma bounded_new e st : bounded st → bounded (addListItem e (push_entity e st)).
Proof.
  intros Hb l. sproj. rewrite length_app, elem_of_app, list_elem_of_singleton. simpl.
  intros [Hl| ->]; [apply Hb in Hl|]; lia.
Qed.

Lemma loaded_refl st : bounded st → loaded st st [] [] [].
Proof. intros Hb. constructor; try done. exists []. by rewrite app_nil_r. Qed.

Lemma loaded_step st st1 s1 e objects lights records o l :
  loaded st st1 objects lights records →
  heap s1 = heap st1 → entities s1 = entities st1 →
  cameraState s1 = cameraState st1 → alerts s1 = alerts st1 →
  object_record e = o → light_record e = l →
  loaded st (addListItem e (push_entity e s1))
    (objects ++ from_option (λ x, [x]) [] o)
    (lights ++ from_option (λ x, [x]) [] l) (records ++ [e_data e]).
Proof.
  intros [Hb Hc Ha (es & H1 & H2 & H3 & H4)] Hh He Hcam Hal Ho Hl.
  assert (bounded s1) as Hb1.
  { intros x. rewrite He, Hh. apply Hb. }
  assert (live s1 = live st1) as Hlive.
  { unfold live, lookup_entity. by rewrite He, Hh. }
  constructor.
  - by apply bounded_new.
  - sproj. congruence.
  - sproj. congruence.
  - exists (es ++ [e]).
    rewrite live_new, Hlive, H1, app_assoc, !omap_app, fmap_app, H2, H3, H4 by done.
    simpl. rewrite Ho, Hl. split_and!; try done; by destruct o, l.
Qed.

Lemma loaded_object st st1 s1 e objects lights records o d :
  loaded st st1 objects lights records →
  heap s1 = heap st1 → entities s1 = entities st1 →
  cameraState s1 = cameraState st1 → alerts s1 = alerts st1 →
  object_record e = Some o → light_record e = None → e_data e = d →
  loaded st (addListItem e (push_entity e s1)) (objects ++ [o]) lights (records ++ [d]).
Proof.
  intros Hl Hh He Hc Ha Ho Hli <-.
  pose proof (loaded_step st st1 s1 e objects lights records _ _ Hl Hh He Hc Ha Ho Hli)
    as H.
  simpl in H. by rewrite app_nil_r in H.
Qed.

Lemma loaded_light st st1 s1 e objects lights records o d :
  loaded st st1 objects lights records →
  heap s1 = heap st1 → entities s1 = entities st1 →
  cameraState s1 = cameraState st1 → alerts s1 = alerts st1 →
  object_record e = None → light_record e = Some o → e_data e = d →
  loaded st (addListItem e (push_entity e s1)) objects (lights ++ [o]) (records ++ [d]).
Proof.
  intros Hl Hh He Hc Ha Ho Hli <-.
  pose proof (loaded_step st st1 s1 e objects lights records _ _ Hl Hh He Hc Ha Ho Hli)
    as H.
  simpl in H. by rewrite app_nil_r in H.
Qed.

Lemma object_record_sphere id center radius color :
  object_record (loadedSphereEntity id center radius color) =
  Some (SphereDoc (Some center) radius (Some color)).
Proof.
  unfold object_record, loadedSphereEntity. entity_fields.
  by rewrite toArray_vec_of_arr, colorToArray_color_of_arr.
Qed.

Lemma object_record_cube id min max color :
  finite_arr min → finite_arr max →
  object_record (loadedCubeEntity id min max color) =
  Some (CubeDoc (Some min) (Some max) (Some color)).
Proof.
  destruct min as [[[a0| | |] [a1| | |]] [a2| | |]]; try (by intros (? & ? & ?)).
  destruct max as [[[b0| | |] [b1| | |]] [b2| | |]]; try (by intros _ (? & ? & ?)).
  intros _ _. unfold object_record, loadedCubeEntity. entity_fields.
  by rewrite !corner_min, !corner_max, colorToArray_color_of_arr.
Qed.

Lemma for_of_loadObject objects st0 st ob li re :
  Forall complete_object objects →
  loaded st0 st ob li re →
  ∃ st',
    for_of objects loadObject st = (Normal tt, st') ∧
    loaded st0 st' (ob ++ objects) li (re ++ omap decoded_object objects).
Proof.
  intros Hobj. revert st ob re.
  induction Hobj as [|obj objects Ho Hobj IH]; intros st ob re Hl; simpl.
  - exists st. by rewrite !app_nil_r.
  - destruct obj as [[center|] radius [color|] | [min|] [max|] [color|] | type];
      try done; unfold bind at 1; unfold loadObject.
    + unfold bind, defined, ret, call, modify. simpl.
      match goal with |- ∃ _, for_of _ _ ?s = _ ∧ _ =>
        destruct (IH s (ob ++ [SphereDoc (Some center) radius (Some color)])
                    (re ++ [SphereData (vec_of_arr center) radius (color_of_arr color)]))
          as (st' & Hrun & Hld) end.
      { eapply (loaded_object st0 st); [done.. | apply object_record_sphere | done | done]. }
      exists st'. split; [done|]. by rewrite <- !app_assoc in Hld.
    + destruct Ho as [Hmin Hmax]. unfold bind, defined, ret, call, modify. simpl.
      destruct min as [[a0 a1] a2], max as [[b0 b1] b2].
      match goal with |- ∃ _, for_of _ _ ?s = _ ∧ _ =>
        destruct (IH s (ob ++ [CubeDoc (Some (a0, a1, a2)) (Some (b0, b1, b2)) (Some color)])
                    (re ++ [CubeData
                              (mkVector3 (js_div (js_add a0 b0) (int 2))
                                         (js_div (js_add a1 b1) (int 2))
                                         (js_div (js_add a2 b2) (int 2)))
                              (mkVector3 (js_sub b0 a0) (js_sub b1 a1) (js_sub b2 a2))
                              (color_of_arr color)]))
          as (st' & Hrun & Hld) end.
      { eapply (loaded_object st0 st);
          [done.. | by apply object_record_cube | done | done]. }
      exists st'. split; [done|]. by rewrite <- !app_assoc in Hld.
Qed.

Lemma for_of_loadLight lights st0 st ob li re :
  Forall complete_light lights →
  loaded st0 st ob li re →
  ∃ st',
    for_of lights loadLight st = (Normal tt, st') ∧
    loaded st0 st' ob (li ++ lights) (re ++ omap decoded_light lights).
Proof.
  intros Hli. revert st li re.
  induction Hli as [|lightData lights Ho Hli IH]; intros st li re Hl; simpl.
  - exists st. by rewrite !app_nil_r.
  - destruct lightData as [[position|] [[|r [|g [|b [|]]]]|] [[|x [|y [|z [|]]]]|] | type];
      try done; unfold bind at 1; unfold loadLight.
    unfold bind, defined, ret, call, modify. simpl.
    match goal with |- ∃ _, for_of _ _ ?s = _ ∧ _ =>
      destruct (IH s (li ++ [PointDoc (Some position) (Some [r; g; b]) (Some [x; y; z])])
                  (re ++ [LightData (vec_of_arr position) (mkColor r g b)
                            (mkVector3 x y z)]))
        as (st' & Hrun & Hld) end.
    { eapply (loaded_light st0 st); [done.. | done | | done].
      unfold light_record, loadedLightEntity. entity_fields. simpl.
      by rewrite toArray_vec_of_arr. }
    exists st'. split; [done|]. by rewrite <- !app_assoc in Hld.
Qed.

Lemma loadCamera_complete cam st :
  complete_camera cam →
  ∃ c, loadCamera cam st = (Normal tt, set_cameraState c st) ∧ camera_record c = cam.
Proof.
  destruct cam as [position look_at up fov width height].
  intros ([p ?] & [l ?] & [u ?] & (f & ? & Hf) & (w & ? & Hw) & (h & ? & Hh)).
  simpl in *. simplify_eq.
  exists (mkCameraState (vec_of_arr p) (vec_of_arr l) (vec_of_arr u) f w h). split.
  - unfold loadCamera, bind, defined, ret, with_camera, modify. simpl.
    by rewrite Hf, Hw, Hh.
  - unfold camera_record. simpl. by rewrite !toArray_vec_of_arr.
Qed.

Lemma live_selectEntity id st : live (selectEntity id st) = live st.
Proof.
  unfold live, lookup_entity. by rewrite entities_selectEntity, heap_selectEntity.
Qed.

Lemma cameraState_selectEntity id st : cameraState (selectEntity id st) = cameraState st.
Proof. frame. Qed.

Lemma alerts_selectEntity id st : alerts (selectEntity id st) = alerts st.
Proof. frame. Qed.

(** The import of a complete document into a state whose list holds
    allocated objects only. *)
Lemma loadSceneFromJson_complete cam objects lights st :
  wf st → complete_camera cam →
  Forall complete_object objects → Forall complete_light lights →
  ∃ st',
    loadSceneFromJson (mkDocument (Some cam) (Some objects) (Some lights)) st =
      (Normal tt, st') ∧
    alerts st' = alerts st ∧
    buildSceneJson st' = mkDocument (Some cam) (Some objects) (Some lights) ∧
    sceneJsonText st' = buildSceneJson st' ∧
    e_data <$> live st' = omap decoded_object objects ++ omap decoded_light lights.
Proof.
  intros W Hcam Hobj Hli.
  destruct (clear_entities_empty st W) as [He _].
  destruct (loadCamera_complete cam (clear_entities st) Hcam) as (c & Hc & Hrec).
  set (s1 := set_cameraState c (clear_entities st)) in *.
  assert (live s1 = []) as Hlive.
  { unfold live, s1. sproj. by rewrite He. }
  assert (loaded s1 s1 [] [] []) as Hl0.
  { apply loaded_refl. intros l. unfold s1. sproj. rewrite He. by intros ?%elem_of_nil. }
  destruct (for_of_loadObject objects s1 s1 [] [] [] Hobj Hl0) as (s2 & Hrun2 & Hl2).
  destruct (for_of_loadLight lights s1 s2 _ [] _ Hli Hl2) as (s3 & Hrun3 & Hl3).
  simpl in Hl3. destruct Hl3 as [_ Hcam3 Hal3 (es & L & O & Li & R)].
  rewrite Hlive in L. simpl in L.
  eexists. split.
  - unfold loadSceneFromJson. unfold bind at 1. unfold modify at 1.
    fold (clear_entities st). simpl. unfold bind at 1. rewrite Hc.
    unfold bind at 1. rewrite Hrun2. unfold bind at 1. rewrite Hrun3.
    unfold bind, modify. reflexivity.
  - set (s4 := match last (entities s3) with
               | Some l => selectEntity (entity_id l s3) s3
               | None => selectEntity None s3
               end).
    assert (live s4 = es ∧ cameraState s4 = c ∧ alerts s4 = alerts st) as (L4 & C4 & A4).
    { unfold s4. destruct (last (entities s3));
        rewrite live_selectEntity, cameraState_selectEntity, alerts_selectEntity,
          L, Hcam3, Hal3; unfold s1; sproj; by rewrite alerts_clear_entities. }
    change (live (refreshSceneJson s4)) with (live s4).
    change (alerts (refreshSceneJson s4)) with (alerts s4).
    change (buildSceneJson (refreshSceneJson s4)) with (buildSceneJson s4).
    change (sceneJsonText (refreshSceneJson s4)) with (buildSceneJson s4).
    split_and!; try done.
    + unfold buildSceneJson. by rewrite L4, C4, Hrec, O, Li.
    + by rewrite L4.
Qed.

Section RoundTrip.

Variable parseFloat : string → num.
Variable js_Number : string → num.
Variable parseInt16 : string → num.

#[local] Abbreviation run := (run parseFloat js_Number parseInt16).

(** C3, as the code has it.  After every run, importing a complete
    document (every field present, cube corners finite, [fov], [width] and
    [height] not zero) raises no alert, and the document then encoded from
    the registry, which is also the one shown in the JSON text area, is the
    imported document; field order plays no role in a record.  The list
    holds the decoded records in document order, objects before lights: a
    cube given by its corners has the centre [(min + max) / 2] and the
    extents [max - min]. *)
Theorem import_then_export (evs : list Event) (data : Document) :
  complete_document data →
  let st := run evs initial_state in
  let st' := importOnLoad (Some data) st in
  alerts st' = alerts st ∧
  buildSceneJson st' = data ∧
  sceneJsonText st' = data ∧
  e_data <$> live st' =
    omap decoded_object (default [] (doc_objects data)) ++
    omap decoded_light (default [] (doc_lights data)).
Proof.
  intros ((cam & Hc & Hcam) & (objects & Ho & Hobj) & (lights & Hl & Hli)) st st'.
  destruct data as [dc dobj dli]. simpl in *. subst dc dobj dli.
  destruct (loadSceneFromJson_complete cam objects lights st) as (s & Hrun & Ha & Hb & Ht & Hd);
    [apply wf_run | done..|].
  unfold st', importOnLoad. rewrite Hrun. split_and!; try done. congruence.
Qed.

End RoundTrip.

(** C3 fails as stated for a field of view of 0: the import succeeds, the
    editor keeps its field of view of 60 degrees, and 60 is written back. *)
Lemma zero_fov_is_not_written_back :
  let st' := importOnLoad (Some scenario_B_zero_fov) initial_state in
  alerts st' = [] ∧
  cam_fov <$> doc_camera scenario_B_zero_fov = Some (Some (int 0)) ∧
  cam_fov <$> doc_camera (buildSceneJson st') = Some (Some (int 60)) ∧
  buildSceneJson st' ≠ scenario_B_zero_fov.
Proof.
  split_and!; by vm_compute.
Qed.

(** [import_then_export] on scenario B, imported over a scene with a
    sphere: the registry holds one cube with centre (-1.5, 0, 3.5) and
    extents (1, 2, 1), and the export is the imported document. *)
Lemma import_then_export_witness :
  let st := editor_run [AddSphere] initial_state in
  let st' := importOnLoad (Some scenario_B) st in
  buildSceneJson st' = scenario_B ∧
  e_data <$> live st' =
    [CubeData (vec (lit (-15) 10) (int 0) (lit 35 10)) (vec (int 1) (int 2) (int 1))
       (mkColor (lit 2 10) (lit 2 10) (lit 10 10))].
Proof.
  intros st st'.
  assert (complete_document scenario_B) as Hc.
  { unfold scenario_B. split_and!.
    - eexists. split; [done|]. unfold complete_camera. simpl.
      split_and!; try (by eexists); eexists; (split; [done | by vm_compute]).
    - eexists. split; [done|]. repeat constructor.
    - eexists. split; [done|]. constructor. }
  destruct (import_then_export decimal_parseFloat decimal_Number hex_parseInt
              [AddSphere] scenario_B Hc) as (_ & H1 & _ & H2).
  split; [exact H1|]. etrans; [exact H2|]. by_decision.
Defined.

From Stdlib Require Import Lqa.

(** * Further properties of the handlers *)

(** ** Runs, identifiers and imports *)

Lemma heap_ids_NoDup parseFloat js_Number parseInt16 evs :
  NoDup (e_id <$> heap (run parseFloat js_Number parseInt16 evs initial_state)).
Proof.
  destruct (ids_of_run parseFloat js_Number parseInt16 evs) as (ps & Hps & Hids & _).
  rewrite Hids.
  replace (imap _ ps)
    with (imap (λ k p, p +:+ "-" +:+ pretty (1 + N.of_nat k + 1)%N) ps).
  - by apply generated_ids_NoDup.
  - apply imap_ext. intros k p _. simpl. do 3 f_equal. lia.
Qed.

(** Induction over the runs from the initial state, with the structural
    invariant and the distinctness of the ids at hand. *)
Lemma run_ind_ids parseFloat js_Number parseInt16 (P : State → Prop) :
  P initial_state →
  (∀ ev st, wf st → NoDup (e_id <$> heap st) → P st →
            P (step parseFloat js_Number parseInt16 ev st)) →
  ∀ evs, P (run parseFloat js_Number parseInt16 evs initial_state).
Proof.
  intros H0 Hs evs. induction evs as [|ev evs IH] using rev_ind; [done|].
  rewrite run_snoc. apply Hs; [apply wf_run | apply heap_ids_NoDup | done].
Qed.

(** [loadSceneFromJson] is the loading of the blocks after the list has
    been cleared. *)
Lemma load_after_clear (I J : State → Prop) data :
  (∀ st, I st → J (clear_entities st)) →
  (∀ id st, J st → J (selectEntity id st)) →
  (∀ st, J st → J (refreshSceneJson st)) →
  (∀ cam, doc_camera data = Some cam → preserves J (loadCamera cam)) →
  (∀ obj, obj ∈ default [] (doc_objects data) → preserves J (loadObject obj)) →
  (∀ lightData, lightData ∈ default [] (doc_lights data) →
                preserves J (loadLight lightData)) →
  ∀ st, I st → J (snd (loadSceneFromJson data st)).
Proof.
  intros Hclear Hsel Href Hc Ho Hl st Hst. unfold loadSceneFromJson.
  unfold bind at 1. unfold modify at 1. fold (clear_entities st).
  match goal with |- J (snd (?m _)) => assert (preserves J m) as Hm end.
  { apply preserves_bind; [|intros _].
    { destruct (doc_camera data); [by apply Hc | apply preserves_ret]. }
    apply preserves_bind; [|intros _].
    { destruct (doc_objects data) as [objects|]; [|apply preserves_ret].
      apply (preserves_for_of_Forall J (λ obj, obj ∈ objects)); [|done].
      by apply Forall_forall. }
    apply preserves_bind; [|intros _].
    { destruct (doc_lights data) as [lights|]; [|apply preserves_ret].
      apply (preserves_for_of_Forall J (λ lightData, lightData ∈ lights)); [|done].
      by apply Forall_forall. }
    apply preserves_bind; [|intros _].
    { apply preserves_modify. intros s Hs. destruct (last (entities s)); by apply Hsel. }
    by apply preserves_modify. }
  apply Hm. by apply Hclear.
Qed.

Lemma import_after_clear (I J : State → Prop) parsed st :
  (∀ st, I st → J st) →
  (∀ st, I st → J (clear_entities st)) →
  (∀ id st, J st → J (selectEntity id st)) →
  (∀ st, J st → J (refreshSceneJson st)) →
  (∀ a st, J st → J (set_alerts a st)) →
  (∀ data cam, parsed = Some data → doc_camera data = Some cam →
               preserves J (loadCamera cam)) →
  (∀ data obj, parsed = Some data → obj ∈ default [] (doc_objects data) →
               preserves J (loadObject obj)) →
  (∀ data lightData, parsed = Some data → lightData ∈ default [] (doc_lights data) →
                     preserves J (loadLight lightData)) →
  I st → J (importOnLoad parsed st).
Proof.
  intros HIJ Hclear Hsel Href Hal Hc Ho Hl Hst. unfold importOnLoad.
  destruct parsed as [data|]; [|by apply Hal, HIJ].
  pose proof (load_after_clear I J data Hclear Hsel Href (λ cam, Hc data cam eq_refl)
                (λ obj, Ho data obj eq_refl) (λ lightData, Hl data lightData eq_refl)
                st Hst) as H.
  destruct (loadSceneFromJson data st) as [[[]|error] st']; simpl in *; [done|].
  by apply Hal.
Qed.

(** ** The scene graph and the object list follow the registry *)

Lemma scene_removeEntity l st :
  scene_children st = entities st →
  scene_children (removeEntity l st) = entities (removeEntity l st).
Proof. intros H. unfold removeEntity. frame; sproj; by rewrite ?H. Qed.

Lemma scene_selectEntity id st :
  scene_children (selectEntity id st) = scene_children st.
Proof. frame. Qed.

Lemma scene_import_parts :
  let J := λ st, scene_children st = entities st in
  (∀ st, J st → J (clear_entities st)) ∧
  (∀ id st, J st → J (selectEntity id st)) ∧
  (∀ cam, preserves J (loadCamera cam)) ∧
  (∀ obj, preserves J (loadObject obj)) ∧
  (∀ lightData, preserves J (loadLight lightData)).
Proof.
  intros J. unfold J. split_and!.
  - apply preserves_clear. intros l st. apply scene_removeEntity.
  - intros id st H. by rewrite scene_selectEntity, entities_selectEntity.
  - intros cam. by apply preserves_loadCamera.
  - intros obj. apply preserves_loadObject. intros prefix e st H. unfold generateId. sproj.
    by rewrite H.
  - intros lightData. apply preserves_loadLight. intros prefix e st H. unfold generateId. sproj.
    by rewrite H.
Qed.

Section Mirror.

Variable parseFloat : string → num.
Variable js_Number : string → num.
Variable parseInt16 : string → num.

#[local] Abbreviation step := (step parseFloat js_Number parseInt16).
#[local] Abbreviation run := (run parseFloat js_Number parseInt16).

Lemma scene_step ev st :
  scene_children st = entities st →
  scene_children (step ev st) = entities (step ev st).
Proof.
  intros H. destruct scene_import_parts as (H1 & H2 & H3 & H4 & H5).
  destruct ev; simpl.
  - unfold createSphereEntity. frame; sproj; by rewrite ?H.
  - unfold createCubeEntity. frame; sproj; by rewrite ?H.
  - unfold createLightEntity. frame; sproj; by rewrite ?H.
  - by apply H2.
  - unfold pointerDown. repeat case_match; try done. by apply H2.
  - unfold deleteClick. destruct (selectedEntity st); [|done].
    apply scene_removeEntity. by apply H2.
  - unfold numberFieldChange. frame; sproj; by rewrite ?H.
  - unfold colorFieldInput. frame; sproj; by rewrite ?H.
  - unfold gizmoDrag. frame; sproj; by rewrite ?H.
  - unfold transformRadioChange. frame; sproj; by rewrite ?H.
  - done.
  - done.
  - done.
  - apply (import_after_clear (λ st, scene_children st = entities st)
             (λ st, scene_children st = entities st)); try done; intros; eauto.
Qed.

(** After every run the entity nodes that are children of the scene are
    the nodes of the entities of the list, in the same order: no node of a
    removed entity stays in the scene, and every entity of the list is
    drawn. *)
Theorem scene_holds_the_listed_nodes (evs : list Event) :
  scene_children (run evs initial_state) = entities (run evs initial_state).
Proof.
  induction evs as [|ev evs IH] using rev_ind; [done|].
  rewrite run_snoc. by apply scene_step.
Qed.

End Mirror.

(** *** The object list *)

Lemma ids_live_update l f st :
  (∀ e, e_id (f e) = e_id e) →
  e_id <$> live (update l f st) = e_id <$> live st.
Proof.
  intros Hf. unfold live. sproj. induction (entities st) as [|x xs IH]; [done|].
  simpl. destruct (decide (x = l)) as [->|Hne].
  - rewrite list_lookup_alter_eq. destruct (heap st !! l) as [e|]; simpl; [|done].
    f_equal; [apply Hf | apply IH].
  - rewrite list_lookup_alter_ne by done.
    destruct (heap st !! x); simpl; [f_equal|]; apply IH.
Qed.

Lemma filter_all {A} (P : A → Prop) `{∀ x, Decision (P x)} (l : list A) :
  Forall P l → filter P l = l.
Proof.
  induction 1 as [|x l Hx Hl IH]; [done|]. by rewrite filter_cons_True, IH.
Qed.

(** Taking an entity out: its id leaves the ids of the list, the other ids
    stay in order. *)
Lemma ids_live_remove (h : list Entity) l e (ents : list loc) :
  NoDup (e_id <$> h) → NoDup ents → h !! l = Some e →
  e_id <$> omap (λ x, h !! x) (remove_first l ents) =
  filter (λ value, value ≠ e_id e) (e_id <$> omap (λ x, h !! x) ents).
Proof.
  intros Hh Hnd El. induction Hnd as [|x xs Hx Hxs IH]; csimpl; [done|].
  case_bool_decide as E.
  - subst x. rewrite El. csimpl. rewrite filter_cons_False by (by intros ?).
    symmetry. apply filter_all. apply Forall_forall. intros id Hid.
    apply list_elem_of_fmap in Hid as (e' & -> & He').
    apply list_elem_of_omap in He' as (l' & Hl' & El').
    intros Heq. apply Hx.
    assert (l' = l) as <-; [|done].
    eapply (NoDup_lookup _ _ _ (e_id e) Hh).
    + rewrite list_lookup_fmap, El'. csimpl. by rewrite Heq.
    + by rewrite list_lookup_fmap, El.
  - csimpl. destruct (h !! x) as [e'|] eqn:Ex; csimpl; [|done].
    rewrite filter_cons_True.
    + by rewrite IH.
    + intros Heq. apply E.
      eapply (NoDup_lookup _ _ _ (e_id e) Hh).
      * rewrite list_lookup_fmap, Ex. csimpl. by rewrite Heq.
      * by rewrite list_lookup_fmap, El.
Qed.

Lemma listed_removeEntity l st :
  wf st → NoDup (e_id <$> heap st) → listed st → listed (removeEntity l st).
Proof.
  intros W Hh H. unfold listed in *.
  destruct (heap st !! l) as [e|] eqn:El.
  - rewrite (options_removeEntity l e) by done. unfold live, lookup_entity.
    rewrite (entities_removeEntity l e), heap_removeEntity by done.
    rewrite (ids_live_remove _ l e); [|done | apply W | done]. by rewrite H.
  - unfold removeEntity, lookup_entity. by rewrite El.
Qed.

Lemma listed_selectEntity id st : listed st → listed (selectEntity id st).
Proof.
  unfold listed. intros H. rewrite live_selectEntity. rewrite <- H. frame.
Qed.

Lemma listed_same st st' :
  objectList_options st' = objectList_options st →
  entities st' = entities st → e_id <$> heap st' = e_id <$> heap st →
  listed st → listed st'.
Proof.
  unfold listed, live, lookup_entity. intros Ho He Hh H. rewrite Ho, He, H.
  clear H Ho He. induction (entities st) as [|x xs IH]; [done|]. simpl.
  assert (e_id <$> heap st' !! x = e_id <$> heap st !! x) as Hx.
  { by rewrite <- !list_lookup_fmap, Hh. }
  destruct (heap st' !! x), (heap st !! x); simpl in *; simplify_eq;
    [f_equal; [done | apply IH] | apply IH].
Qed.

Lemma listed_pushed e st s1 :
  heap s1 = heap st → entities s1 = entities st →
  objectList_options s1 = objectList_options st →
  bounded st → listed st → listed (addListItem e (push_entity e s1)).
Proof.
  intros Hh He Ho Hb H. unfold listed in *.
  assert (bounded s1) as Hb1 by (intros x; rewrite He, Hh; apply Hb).
  rewrite live_new by done. sproj. rewrite Ho, H, fmap_app. simpl.
  unfold live, lookup_entity. by rewrite He, Hh.
Qed.

Lemma listed_update l f st :
  (∀ e, e_id (f e) = e_id e) → listed st → listed (update l f st).
Proof.
  intros Hf. apply listed_same; try done. sproj. by apply fmap_id_alter.
Qed.

Lemma listed_refresh st : listed st → listed (refreshSceneJson st).
Proof. done. Qed.

Lemma listed_new prefix e st :
  wf st → listed st →
  listed (addListItem e (push_entity e (snd (generateId prefix (scene_add_next st))))).
Proof. intros W H. apply (listed_pushed e st); try done. exact (wf_bound _ W). Qed.

Lemma listed_import parsed st :
  wf st → NoDup (e_id <$> heap st) → listed st → listed (importOnLoad parsed st).
Proof.
  intros W Hh H.
  cut (wf (importOnLoad parsed st) ∧ listed (importOnLoad parsed st)); [tauto|].
  apply (import_after_clear
           (λ st, wf st ∧ NoDup (e_id <$> heap st) ∧ listed st)
           (λ st, wf st ∧ listed st)); try done.
  - tauto.
  - intros s Hs.
    cut (wf (clear_entities s) ∧ NoDup (e_id <$> heap (clear_entities s)) ∧
         listed (clear_entities s)); [tauto|].
    revert s Hs. apply preserves_clear. intros l s (W' & Hh' & H'). split_and!.
    + by apply wf_removeEntity.
    + by rewrite heap_removeEntity.
    + by apply listed_removeEntity.
  - intros id s [W' H']. split; [by apply wf_selectEntity | by apply listed_selectEntity].
  - intros s [W' H']. split; [|done].
    eapply wf_same_core; [apply same_core_refresh | done].
  - intros a s [W' H']. split; [|done].
    eapply wf_same_core; [apply same_core_set_alerts | done].
  - intros data cam _ _. apply preserves_and; [apply wf_loadCamera|].
    by apply preserves_loadCamera.
  - intros data obj _ _. apply preserves_loadObject. intros prefix e s [W' H']. split.
    + eapply wf_same_core; [apply same_core_addListItem|]. apply wf_push.
      eapply wf_same_core; [apply same_core_scene_add_next|].
      eapply wf_same_core; [apply same_core_generateId|]. done.
    + apply (listed_pushed e s); try done. exact (wf_bound _ W').
  - intros data lightData _ _. apply preserves_loadLight. intros prefix e s [W' H']. split.
    + by apply wf_new.
    + apply (listed_pushed e s); try done. exact (wf_bound _ W').
Qed.

Section ObjectList.

Variable parseFloat : string → num.
Variable js_Number : string → num.
Variable parseInt16 : string → num.

#[local] Abbreviation step := (step parseFloat js_Number parseInt16).
#[local] Abbreviation run := (run parseFloat js_Number parseInt16).

Lemma listed_step ev st :
  wf st → NoDup (e_id <$> heap st) → listed st → listed (step ev st).
Proof.
  intros W Hh H. destruct ev; simpl.
  - unfold createSphereEntity. apply listed_refresh, listed_selectEntity.
    by apply (listed_new "sphere").
  - unfold createCubeEntity. apply listed_refresh, listed_selectEntity.
    by apply (listed_new "cube").
  - unfold createLightEntity. apply listed_refresh, listed_selectEntity.
    by apply (listed_new "light").
  - by apply listed_selectEntity.
  - unfold pointerDown. repeat case_match; try done. by apply listed_selectEntity.
  - unfold deleteClick. destruct (selectedEntity st); [|done].
    apply listed_removeEntity.
    + by apply wf_selectEntity.
    + by rewrite heap_selectEntity.
    + by apply listed_selectEntity.
  - unfold numberFieldChange. repeat case_match; try done.
    unfold onChange. destruct field.
    + unfold setEntityPosition. case_match; [|done].
      apply listed_refresh, listed_update; [apply id_moveEntity | done].
    + apply listed_refresh, listed_update; [apply id_onRadiusChange | done].
    + apply listed_refresh, listed_update; [apply id_onSizeChange | done].
    + apply listed_refresh, listed_update; [apply id_onIntensityChange | done].
    + apply listed_refresh, listed_update; [apply id_onDirectionChange | done].
  - unfold colorFieldInput. repeat case_match; try done.
    all: apply listed_refresh, listed_update; [|done]; unfold onColorChange; same_id.
  - unfold gizmoDrag. destruct (transform_object st); [|done].
    unfold objectChange. sproj. case_match.
    + apply listed_refresh. apply (listed_same st); [| | | done].
      1, 2: unfold refreshEntityForm; by repeat (sproj; case_match).
      assert (∀ s, heap (refreshEntityForm s) = heap s) as ->.
      { intros s. unfold refreshEntityForm. by repeat (sproj; case_match). }
      sproj.
      rewrite fmap_id_alter by apply id_updateEntityFromTransform.
      apply fmap_id_alter, id_dragMesh.
    + by apply listed_update.
  - unfold transformRadioChange. by repeat case_match.
  - done.
  - done.
  - done.
  - by apply listed_import.
Qed.

(** After every run the options of the object list bear the ids of the
    entities of the list, one option per entity, in the order of the list:
    an entity that is added, deleted or replaced by an import is added to
    or taken out of the object list with it. *)
Theorem object_list_follows_the_registry (evs : list Event) :
  objectList_options (run evs initial_state) = e_id <$> live (run evs initial_state).
Proof.
  apply (run_ind_ids parseFloat js_Number parseInt16 listed); [done|].
  intros ev st. apply listed_step.
Qed.

End ObjectList.

(** ** The JSON text *)

Lemma bind_normal {A B} (m : Exec A) (k : A → Exec B) st b st' :
  bind m k st = (Normal b, st') →
  ∃ a s, m st = (Normal a, s) ∧ k a s = (Normal b, st').
Proof.
  unfold bind. destruct (m st) as [[a|error] s]; [|done]. intros H. by exists a, s.
Qed.

(** An import that returns ends with [refreshSceneJson]. *)
Lemma loadSceneFromJson_current data st st' :
  loadSceneFromJson data st = (Normal tt, st') → current st'.
Proof.
  unfold loadSceneFromJson. intros H.
  repeat (apply bind_normal in H as (? & ? & _ & H)).
  unfold modify in H. by injection H as <-.
Qed.

Lemma buildSceneJson_selectEntity id st :
  buildSceneJson (selectEntity id st) = buildSceneJson st.
Proof.
  unfold buildSceneJson. by rewrite live_selectEntity, cameraState_selectEntity.
Qed.

Lemma current_selectEntity id st : current st → current (selectEntity id st).
Proof.
  unfold current. intros H. rewrite buildSceneJson_selectEntity, <- H. frame.
Qed.

Lemma alerts_loadSceneFromJson data st :
  alerts (snd (loadSceneFromJson data st)) = alerts st.
Proof.
  apply (load_after_clear (λ s, alerts s = alerts st) (λ s, alerts s = alerts st));
    try done.
  - intros s H. by rewrite alerts_clear_entities.
  - intros id s H. by rewrite alerts_selectEntity.
  - intros cam _. by apply preserves_loadCamera.
  - intros obj _. by apply preserves_loadObject.
  - intros lightData _. by apply preserves_loadLight.
Qed.

(** What an import does to the alerts and to the JSON text: either it
    returns, without an alert and with the text rewritten, or it raises
    the one alert. *)
Lemma importOnLoad_outcome parsed st :
  (∃ data, parsed = Some data ∧
           loadSceneFromJson data st = (Normal tt, importOnLoad parsed st) ∧
           alerts (importOnLoad parsed st) = alerts st) ∨
  alerts (importOnLoad parsed st) = alerts st ++ ["Failed to parse scene JSON"].
Proof.
  unfold importOnLoad. destruct parsed as [data|]; [|by right].
  pose proof (alerts_loadSceneFromJson data st) as Ha.
  destruct (loadSceneFromJson data st) as [[[]|error] st'] eqn:E; simpl in *.
  - left. by exists data.
  - right. by rewrite Ha.
Qed.

Section JsonText.

Variable parseFloat : string → num.
Variable js_Number : string → num.
Variable parseInt16 : string → num.

#[local] Abbreviation step := (step parseFloat js_Number parseInt16).
#[local] Abbreviation run := (run parseFloat js_Number parseInt16).

Lemma alerts_step ev st :
  alerts (step ev st) = alerts st ∨
  alerts (step ev st) = alerts st ++ ["Failed to parse scene JSON"].
Proof.
  destruct ev; simpl; try (left; by frame).
  destruct (importOnLoad_outcome parsed st) as [(data & _ & _ & Hl)|Hl]; auto.
Qed.

Lemma current_step ev st :
  wf st → current st → alerts (step ev st) = alerts st → current (step ev st).
Proof.
  intros W H Ha. destruct ev; simpl in *; try done.
  - by apply current_selectEntity.
  - unfold pointerDown. repeat case_match; try done. by apply current_selectEntity.
  - unfold deleteClick. destruct (selectedEntity st) as [l|] eqn:El; [|done].
    assert (is_Some (heap st !! l)) as [e He].
    { apply lookup_lt_is_Some. apply W. by apply W. }
    apply (text_removeEntity l e). by rewrite heap_selectEntity.
  - unfold numberFieldChange, onChange, setEntityPosition. by repeat case_match.
  - unfold colorFieldInput. by repeat case_match.
  - unfold gizmoDrag. destruct (transform_object st) as [l|] eqn:El; [|done].
    unfold objectChange. sproj. by rewrite (wf_gizmo _ W l El).
  - unfold transformRadioChange. by repeat case_match.
  - destruct (importOnLoad_outcome parsed st) as [(data & _ & Hl & _)|Hl].
    + by eapply loadSceneFromJson_current.
    + rewrite Hl in Ha. apply (f_equal length) in Ha. rewrite length_app in Ha.
      simpl in Ha. lia.
Qed.

(** As long as no import has failed, the JSON text area shows the document
    of the present scene after every event: this is the text the export
    and copy buttons hand out. *)
Theorem json_text_is_current (evs : list Event) :
  alerts (run evs initial_state) = [] →
  sceneJsonText (run evs initial_state) = buildSceneJson (run evs initial_state).
Proof.
  induction evs as [|ev evs IH] using rev_ind; [done|].
  rewrite run_snoc. intros Ha.
  assert (alerts (run evs initial_state) = []) as Ha0.
  { destruct (alerts_step ev (run evs initial_state)) as [Hm|Hm].
    - congruence.
    - rewrite Ha in Hm. symmetry in Hm. by apply app_eq_nil in Hm as [? _]. }
  apply current_step; [apply wf_run | by apply IH | congruence].
Qed.

End JsonText.

(** A failed import can leave the text behind: with no [look_at] the
    position of the camera has been stored when the exception is raised,
    and the text is not rewritten. *)
Lemma json_text_after_a_failed_import :
  let cam := mkCameraDoc (Some (int 1, int 2, int 3)) None None None None None in
  let st := importOnLoad (Some (mkDocument (Some cam) None None)) initial_state in
  alerts st = ["Failed to parse scene JSON"] ∧
  cam_position <$> doc_camera (buildSceneJson st) = Some (Some (int 1, int 2, int 3)) ∧
  cam_position <$> doc_camera (sceneJsonText st) = Some (Some (int 8, int 6, int 8)).
Proof. by vm_compute. Qed.

(** [json_text_is_current] on a run with an import that returns. *)
Lemma json_text_is_current_witness :
  let evs := [AddSphere; ImportLoaded (Some scenario_B); AddLight; DeleteClick] in
  sceneJsonText (editor_run evs initial_state) = buildSceneJson (editor_run evs initial_state).
Proof.
  intros evs.
  apply (json_text_is_current decimal_parseFloat decimal_Number hex_parseInt evs).
  by vm_compute.
Defined.

(** ** The property form and the gizmo *)

Lemma shown_selectEntity id st : shown (selectEntity id st).
Proof.
  unfold shown, selectEntity.
  destruct (id ≫= λ i, find_entity i st); unfold refreshEntityForm; sproj; [done|].
  by intros [? ?].
Qed.

Lemma shown_removeEntity l st : shown st → shown (removeEntity l st).
Proof.
  unfold shown, removeEntity. intros H. repeat (sproj; case_match); sproj; try done.
  all: by intros [? ?].
Qed.

Lemma shown_same st st' :
  selectedEntity st' = selectedEntity st →
  entityEditor_hidden st' = entityEditor_hidden st → shown st → shown st'.
Proof. unfold shown. by intros -> ->. Qed.

Section Form.

Variable parseFloat : string → num.
Variable js_Number : string → num.
Variable parseInt16 : string → num.

#[local] Abbreviation step := (step parseFloat js_Number parseInt16).
#[local] Abbreviation run := (run parseFloat js_Number parseInt16).

Lemma shown_step ev st : shown st → shown (step ev st).
Proof.
  intros H. destruct ev; simpl.
  - unfold createSphereEntity. eapply shown_same; [| |apply shown_selectEntity]; done.
  - unfold createCubeEntity. eapply shown_same; [| |apply shown_selectEntity]; done.
  - unfold createLightEntity. eapply shown_same; [| |apply shown_selectEntity]; done.
  - apply shown_selectEntity.
  - unfold pointerDown. repeat case_match; try done. apply shown_selectEntity.
  - unfold deleteClick. destruct (selectedEntity st); [|done].
    apply shown_removeEntity, shown_selectEntity.
  - revert H. apply shown_same; frame; done.
  - revert H. apply shown_same; frame; done.
  - unfold gizmoDrag, objectChange, refreshEntityForm. unfold shown in *.
    repeat (sproj; case_match); sproj; simplify_eq; try done.
    all: intros Hs; apply H; congruence.
  - revert H. apply shown_same; frame; done.
  - done.
  - done.
  - done.
  - apply (import_after_clear shown shown); try done.
    + apply preserves_clear. intros l s. apply shown_removeEntity.
    + intros id s _. apply shown_selectEntity.
    + intros data cam _ _. by apply preserves_loadCamera.
    + intros data obj _ _. by apply preserves_loadObject.
    + intros data lightData _ _. by apply preserves_loadLight.
Qed.

(** After every run the property form is visible exactly when an entity is
    selected, and it is then bound to the selected entity, so that the
    callbacks of its fields, which hold the entity the form was built for,
    change the selected entity; the gizmo is attached to no node or to the
    node of the selected entity. *)
Theorem form_and_gizmo_follow_the_selection (evs : list Event) :
  let st := run evs initial_state in
  (entityEditor_hidden st = false ↔ is_Some (selectedEntity st)) ∧
  (∀ l e, form_entity st = Some (l, e) → selectedEntity st = Some l) ∧
  (∀ l, selectedEntity st = Some l → ∃ e, form_entity st = Some (l, e)) ∧
  (∀ l, transform_object st = Some l → selectedEntity st = Some l).
Proof.
  intros st. assert (wf st) as W by apply wf_run.
  assert (shown st) as Hs.
  { unfold st. apply (run_ind parseFloat js_Number parseInt16 shown).
    - by intros [? ?].
    - intros ev s _. apply shown_step. }
  split_and!.
  - split; [apply W | apply Hs].
  - unfold form_entity. intros l e H.
    destruct (entityEditor_hidden st) eqn:Eh; [done|].
    destruct (wf_form _ W Eh) as [Hf _]. rewrite Hf in H.
    destruct (selectedEntity st) as [s|]; [|done]. simpl in H.
    destruct (lookup_entity s st); simpl in H; by simplify_eq.
  - intros l Hl. unfold form_entity. rewrite Hs by (by rewrite Hl).
    destruct (wf_form _ W (Hs ltac:(by rewrite Hl))) as [-> _]. rewrite Hl. simpl.
    assert (is_Some (heap st !! l)) as [e He].
    { apply lookup_lt_is_Some. apply W. by apply W. }
    exists e. unfold lookup_entity. by rewrite He.
  - apply W.
Qed.

End Form.

(** ** Selecting an entity of the list *)

Lemma find_entity_listed l e st :
  NoDup (e_id <$> heap st) → l ∈ entities st → heap st !! l = Some e →
  find_entity (e_id e) st = Some l.
Proof.
  intros Hh Hl He. unfold find_entity.
  destruct (find _ _) as [l'|] eqn:E.
  - apply find_some in E as [_ Hid]. unfold lookup_entity in Hid.
    destruct (heap st !! l') as [e'|] eqn:El'; [|done].
    apply bool_decide_eq_true in Hid. f_equal.
    eapply (NoDup_lookup _ _ _ (e_id e) Hh).
    + rewrite list_lookup_fmap, El'. csimpl. by rewrite Hid.
    + by rewrite list_lookup_fmap, He.
  - exfalso. apply list_elem_of_In in Hl.
    pose proof (find_none _ _ E l Hl) as Hn. unfold lookup_entity in Hn.
    rewrite He in Hn. by apply bool_decide_eq_false in Hn.
Qed.

Section Select.

Variable parseFloat : string → num.
Variable js_Number : string → num.
Variable parseInt16 : string → num.

#[local] Abbreviation step := (step parseFloat js_Number parseInt16).
#[local] Abbreviation run := (run parseFloat js_Number parseInt16).

(** After every run, a pointer press that hits the node of an entity of
    the list, and the choice of its option in the object list, select that
    very entity and no other: it becomes the selection, the form is shown
    for it, and the gizmo is attached to its node; nothing else of the
    editor changes. *)
Theorem pointer_and_list_select_the_entity (evs : list Event) (l : loc) (e : Entity) :
  let st := run evs initial_state in
  l ∈ entities st → heap st !! l = Some e →
  let st' := step (PointerDown (Some l)) st in
  step (ObjectListChange (e_id e)) st = st' ∧
  selectedEntity st' = Some l ∧
  form_entity st' = Some (l, e) ∧
  transform_object st' = Some l ∧
  st' = set_transform_object (Some l)
          (set_entityForm (Some l)
             (set_entityEditor_hidden false (set_selectedEntity (Some l) st))).
Proof.
  intros st Hl He st'.
  assert (find_entity (e_id e) st = Some l) as Hf.
  { apply find_entity_listed; [apply heap_ids_NoDup | done..]. }
  assert (st' = selectEntity (Some (e_id e)) st) as ->.
  { unfold st'. simpl. unfold pointerDown, lookup_entity.
    by rewrite bool_decide_eq_true_2, He. }
  unfold form_entity, selectEntity, refreshEntityForm, lookup_entity. simpl.
  rewrite Hf. sproj. split_and!; try done.
  - unfold selectEntity, refreshEntityForm. simpl. by rewrite Hf.
  - simpl. by rewrite He.
Qed.

End Select.

(** [pointer_and_list_select_the_entity] on a scene of three entities: the
    cube, the second entity, is picked. *)
Lemma pointer_and_list_select_the_entity_witness :
  let st := editor_run [AddSphere; AddCube; AddLight] initial_state in
  selectedEntity st = Some 2 ∧
  selectedEntity (editor_step (PointerDown (Some 1)) st) = Some 1 ∧
  editor_step (ObjectListChange "cube-3") st = editor_step (PointerDown (Some 1)) st.
Proof.
  intros st.
  assert (1 ∈ entities st) as Hl by (by vm_compute; repeat constructor).
  assert (heap st !! 1 = Some (newCubeEntity "cube-3")) as He by (by vm_compute).
  destruct (pointer_and_list_select_the_entity decimal_parseFloat decimal_Number
              hex_parseInt [AddSphere; AddCube; AddLight] 1 (newCubeEntity "cube-3")
              Hl He) as (H1 & H2 & _).
  split_and!; [by vm_compute | exact H2 | exact H1].
Defined.

(** ** The floors of radius, extents and intensity *)

Lemma Math_max_at_least floor v :
  Number_isNaN v = false → at_least (Fin floor) (Math_max (Fin floor) v).
Proof.
  unfold at_least. destruct v as [q| | |]; simpl; try done; intros _.
  - case_bool_decide as E; simpl.
    + apply negb_true_iff, bool_decide_eq_false_2. by apply Qcle_not_lt, Qclt_le_weak.
    + apply negb_true_iff, bool_decide_eq_false_2. apply Qcle_not_lt, Qcle_refl.
  - apply negb_true_iff, bool_decide_eq_false_2. apply Qcle_not_lt, Qcle_refl.
Qed.

Lemma above_floor_invariant parseInt16 :
  entity_invariant parseInt16 above_floor object_above_floor light_above_floor.
Proof.
  constructor; unfold above_floor.
  - intros id. by vm_compute.
  - intros id. by vm_compute.
  - intros id. by vm_compute.
  - intros id [[? ?] ?] radius spread H. exact H.
  - intros id [[? ?] ?] [[? ?] ?] spread H. exact H.
  - intros id position intensity direction H. exact H.
  - intros axis value e _. unfold moveEntity. entity_cases e; eauto.
  - intros value e Hv. unfold onRadiusChange, lit.
    entity_cases e; try done; intros _; by apply Math_max_at_least.
  - intros axis value e Hv. unfold onSizeChange, lit.
    entity_cases e; try done; intros (H1 & H2 & H3);
      destruct axis; simpl; split_and!; try done; by apply Math_max_at_least.
  - intros channel value e Hv. unfold onIntensityChange, int, lit.
    entity_cases e; try done; intros (H1 & H2 & H3);
      destruct channel; simpl;
      match goal with light : option PointLight |- _ => destruct light end;
      simpl; split_and!; try done;
      by apply Math_max_at_least.
  - intros axis value e _. unfold onDirectionChange. entity_cases e; eauto.
  - intros hex e. unfold onColorChange. entity_cases e; eauto.
  - intros p e. unfold updateEntityFromTransform, dragMesh. entity_cases e; eauto.
Qed.

Lemma import_ok_weaken (Qo Qo' : ObjectDoc → Prop) (Ql : LightDoc → Prop) ev :
  (∀ obj, Qo obj → Qo' obj) → import_ok Qo Ql ev → import_ok Qo' Ql ev.
Proof.
  intros H. unfold import_ok. destruct ev as [| | | | | | | | | | | | |[data|]]; try done.
  intros [Ho Hl]. split; [|done]. by eapply Forall_impl.
Qed.

Section Floors.

Variable parseFloat : string → num.
Variable js_Number : string → num.
Variable parseInt16 : string → num.

#[local] Abbreviation run := (run parseFloat js_Number parseInt16).

(** After every run whose imported documents respect the floors - spheres
    with a radius of at least 0.1, cubes whose corners are binary64 values
    at least 0.1 apart along each axis, intensity elements of at least 0 -
    every entity of the list respects them: a radius or an extent is at
    least 0.1, a channel of an intensity at least 0, and none of them is
    [NaN].  The defaults do, and every commit of a field puts the floor
    under the value; an import does not, it takes the radius and the
    difference of the corners as they are.  (The difference is not rounded
    here, and the code rounds it to binary64: of corners that are binary64
    values the difference that is at least 0.1 is rounded to a value that
    is at least the binary64 value 0.1; the decimals 0.3 and 0.2 stand for
    binary64 values that are less than 0.1 apart.) *)
Theorem floors_hold_after_every_run (evs : list Event) :
  Forall (import_ok (λ obj, corners_binary64 obj ∧ object_above_floor obj)
            light_above_floor) evs →
  ∀ e, e ∈ live (run evs initial_state) → above_floor e.
Proof.
  intros Hok e He.
  assert (Forall (import_ok object_above_floor light_above_floor) evs) as Hok'.
  { eapply Forall_impl; [exact Hok|]. intros ev. apply import_ok_weaken. tauto. }
  exact (holds_live parseFloat js_Number parseInt16 _ _ _
           (above_floor_invariant parseInt16) evs e Hok' He).
Qed.

End Floors.

(** [floors_hold_after_every_run] on a run that commits a negative radius,
    a negative extent and a negative intensity, and imports a cube with
    the corners (0, 0, 0) and (0.5, 1, 0.125) and a light without
    intensity.  The binary64 values of 0.2 and 0.3 are less than 0.1
    apart. *)
Lemma floors_hold_after_every_run_witness :
  let cube :=
    CubeDoc (Some (int 0, int 0, int 0)) (Some (lit 1 2, int 1, lit 1 8))
      (Some (int 1, int 1, int 1)) in
  let evs :=
    [AddSphere; NumberFieldChange RadiusField "-3"; AddCube;
     NumberFieldChange (SizeField AxisX) "-1"; AddLight;
     NumberFieldChange (IntensityField ChannelG) "-0.5";
     ImportLoaded (Some (mkDocument None (Some [cube]) (Some [PointDoc None None None])));
     AddSphere; NumberFieldChange RadiusField "0.01"] in
  Forall above_floor (live (editor_run evs initial_state)) ∧
  at_least (lit 1 10) (js_sub (lit 3 10) (lit 2 10)) ∧
  js_le (lit 1 10) (js_sub (binary64_Number "0.3") (binary64_Number "0.2")) = false.
Proof.
  intros cube evs. split; [|split; by vm_compute]. apply Forall_forall.
  apply (floors_hold_after_every_run decimal_parseFloat decimal_Number hex_parseInt evs).
  repeat (constructor; simpl; try done).
Defined.

(** ** The camera state *)

Lemma int_lt a b : js_lt (int a) (int b) = true → (a < b)%Z.
Proof.
  unfold int, lit. simpl. intros H%bool_decide_eq_true.
  unfold Qclt in H. simpl in H. rewrite !Qred_correct in H.
  unfold Qlt in H. simpl in H. lia.
Qed.

Lemma Math_round_integer v :
  Number_isFinite v = true → ∃ n, Math_round v = int n.
Proof. destruct v as [q| | |]; try done. intros _. simpl. by eexists. Qed.

(** [Math.max(1, Math.round(v))] of a finite [v] is a whole number of at
    least 1. *)
Lemma resolution_positive v :
  Number_isFinite v = true → positive_integer (Math_max (int 1) (Math_round v)).
Proof.
  intros [n ->]%Math_round_integer.
  change (Math_max (int 1) (int n)) with (if js_lt (int 1) (int n) then int n else int 1).
  destruct (js_lt (int 1) (int n)) eqn:E.
  - apply int_lt in E. exists n. split; [lia | done].
  - by exists 1%Z.
Qed.

Lemma positive_integer_finite v : positive_integer v → Number_isFinite v = true.
Proof. by intros (n & _ & ->). Qed.

Lemma camera_valid_form js_Number formData st :
  camera_valid (cameraState st) →
  camera_valid (cameraState (updateCameraStateFromForm js_Number formData st)).
Proof.
  intros ((P1 & P2 & P3) & (L1 & L2 & L3) & (U1 & U2 & U3) & F & W & H).
  unfold updateCameraStateFromForm, camera_valid, finite_vec. sproj. simpl.
  split_and!; try (by apply parseNumber_finite).
  - apply resolution_positive, parseNumber_finite. by apply positive_integer_finite.
  - apply resolution_positive, parseNumber_finite. by apply positive_integer_finite.
Qed.

Lemma finite_vec_of_arr a : finite_arr a → finite_vec (vec_of_arr a).
Proof. by destruct a as [[? ?] ?]. Qed.

(** What [loadCamera] does: without [position] it throws at once, without
    [look_at] after the position has been stored, and else it stores the
    merged state. *)
Lemma loadCamera_outcome cam st :
  loadCamera cam st =
  match cam_position cam, cam_look_at cam with
  | None, _ => (Throw "TypeError", st)
  | Some position, None =>
      let c := cameraState st in
      (Throw "TypeError",
       set_cameraState
         (mkCameraState (vec_of_arr position) (cs_lookAt c) (cs_up c) (cs_fov c)
            (cs_width c) (cs_height c)) st)
  | Some _, Some _ => (Normal tt, set_cameraState (merged_camera (cameraState st) cam) st)
  end.
Proof.
  destruct cam as [[p|] [l|] up fov width height]; try done.
  unfold loadCamera, bind, defined, ret, throw, with_camera, modify, merged_camera, kept.
  cbn [cam_position cam_look_at cam_up cam_fov cam_width cam_height].
  destruct up as [u|], fov as [f|], width as [w|], height as [h|];
    try destruct (truthy f); try destruct (truthy w); try destruct (truthy h);
    reflexivity.
Qed.

Lemma kept_finite field stored :
  from_option (λ v, Number_isFinite v = true) True field →
  Number_isFinite stored = true → Number_isFinite (kept field stored) = true.
Proof. destruct field as [v|]; simpl; [|done]. by destruct (truthy v). Qed.

Lemma kept_positive field stored :
  from_option positive_integer True field →
  positive_integer stored → positive_integer (kept field stored).
Proof. destruct field as [v|]; simpl; [|done]. by destruct (truthy v). Qed.

Lemma camera_valid_loadCamera cam :
  camera_block_valid cam →
  preserves (λ st, camera_valid (cameraState st)) (loadCamera cam).
Proof.
  intros (Hp & Hl & Hu & Hf & Hw & Hh) st (P & L & U & F & W & H).
  rewrite loadCamera_outcome.
  destruct cam as [[p|] [l|] up fov width height]; simpl in *; try done.
  - split_and!; try (by apply finite_vec_of_arr).
    + destruct up; simpl in *; [by apply finite_vec_of_arr | done].
    + by apply kept_finite.
    + by apply kept_positive.
    + by apply kept_positive.
  - split_and!; try done. by apply finite_vec_of_arr.
Qed.

Section Camera.

Variable parseFloat : string → num.
Variable js_Number : string → num.
Variable parseInt16 : string → num.

#[local] Abbreviation step := (step parseFloat js_Number parseInt16).
#[local] Abbreviation run := (run parseFloat js_Number parseInt16).

Lemma camera_valid_step ev st :
  camera_input_ok ev →
  camera_valid (cameraState st) → camera_valid (cameraState (step ev st)).
Proof.
  intros Hev H. destruct ev; simpl.
  1-10: revert H; match goal with |- camera_valid ?c → camera_valid ?c' =>
                    assert (c' = c) as ->; [by frame | done] end.
  - by apply camera_valid_form.
  - unfold focusOrigin. sproj. destruct H as (? & ? & ? & ? & ? & ?).
    unfold camera_valid. simpl. split_and!; done.
  - unfold syncFromView. sproj. destruct H as (_ & _ & _ & _ & ? & ?).
    destruct Hev as (? & ? & ? & ?). unfold camera_valid. simpl. split_and!; done.
  - apply (import_after_clear (λ s, camera_valid (cameraState s))
             (λ s, camera_valid (cameraState s))); try done.
    + intros s Hs. by rewrite cameraState_clear_entities.
    + intros id s Hs. by rewrite cameraState_selectEntity.
    + intros data cam -> Hc. apply camera_valid_loadCamera. simpl in Hev.
      by rewrite Hc in Hev.
    + intros data obj _ _. by apply preserves_loadObject.
    + intros data lightData _ _. by apply preserves_loadLight.
Qed.

(** After every run in which the imported camera blocks hold finite
    numbers and a resolution in whole pixels of at least 1, and in which
    position, target, up vector and field of view of the navigation camera
    are finite whenever 'Sync from view' copies them: the camera state,
    which is the camera block of the exported document, holds finite
    numbers and such a resolution, whatever texts the camera form held.  A
    text that is not a finite number leaves the stored value, width and
    height are rounded and floored at 1, 'Focus origin' writes zeros, and
    'Sync from view' leaves width and height. *)
Theorem camera_stays_valid (evs : list Event) :
  Forall camera_input_ok evs →
  camera_valid (cameraState (run evs initial_state)).
Proof.
  intros Hok. induction evs as [|ev evs IH] using rev_ind.
  - unfold camera_valid. simpl. split_and!; try done; [by exists 640%Z | by exists 480%Z].
  - apply Forall_app in Hok as [Hok Hev]. apply Forall_cons in Hev as [Hev _].
    rewrite run_snoc. apply camera_valid_step; [done | by apply IH].
Qed.

End Camera.

(** [camera_stays_valid] on a run with the import of scenario B, a 'Sync
    from view' of the initial view, a 'Focus origin', and a camera form
    that holds texts that are not numbers, an infinite one, and a width and
    a height below 1. *)
Lemma camera_stays_valid_witness :
  let form :=
    mkCameraForm "1.5" "abc" "1e999" "0" "" "NaN" "0" "1" "Infinity" "45.5" "0.2" "-300" in
  let view :=
    mkView (vec (int 8) (int 6) (int 8)) (vec (int 0) (int 1) (int 0))
      (vec (int 0) (int 1) (int 0)) (int 60) in
  let evs :=
    [ImportLoaded (Some scenario_B); SyncFromViewClick view; FocusOriginClick;
     CameraFormChange form] in
  camera_valid (cameraState (editor_run evs initial_state)) ∧
  camera_record (cameraState (editor_run evs initial_state)) =
    mkCameraDoc (Some (lit 15 10, int 6, int 8)) (Some (int 0, int 0, int 0))
      (Some (int 0, int 1, int 0)) (Some (lit 455 10)) (Some (int 1)) (Some (int 1)).
Proof.
  intros form view evs. split.
  - apply (camera_stays_valid decimal_parseFloat decimal_Number hex_parseInt evs).
    apply Forall_cons. split.
    { unfold camera_input_ok, camera_block_valid. simpl.
      split_and!; try done; [by exists 400%Z | by exists 300%Z]. }
    apply Forall_cons. split; [|by repeat constructor].
    unfold camera_input_ok, view_valid. simpl. by split_and!.
  - by_decision.
Defined.

(** ** Import of an arbitrary document *)

Lemma record_loaded_sphere id center radius color :
  object_record (loadedSphereEntity id center radius color) =
    reexported_object (SphereDoc (Some center) radius (Some color)) ∧
  light_record (loadedSphereEntity id center radius color) = None ∧
  Some (e_data (loadedSphereEntity id center radius color)) =
    decoded_object (SphereDoc (Some center) radius (Some color)).
Proof. split_and!; [apply object_record_sphere | done..]. Qed.

Lemma record_loaded_cube id min max color :
  object_record (loadedCubeEntity id min max color) =
    reexported_object (CubeDoc (Some min) (Some max) (Some color)) ∧
  light_record (loadedCubeEntity id min max color) = None ∧
  Some (e_data (loadedCubeEntity id min max color)) =
    decoded_object (CubeDoc (Some min) (Some max) (Some color)).
Proof.
  destruct min as [[? ?] ?], max as [[? ?] ?]. split_and!; try done.
  unfold object_record, loadedCubeEntity. entity_fields.
  by rewrite colorToArray_color_of_arr.
Qed.

Lemma record_loaded_light id position intensity direction :
  light_record (loadedLightEntity id position intensity direction) =
    reexported_light (PointDoc position intensity direction) ∧
  object_record (loadedLightEntity id position intensity direction) = None ∧
  Some (e_data (loadedLightEntity id position intensity direction)) =
    loaded_light_data (PointDoc position intensity direction).
Proof.
  split_and!; try done.
  unfold light_record, loadedLightEntity. entity_fields. simpl.
  by rewrite toArray_vec_of_arr.
Qed.

(** A loadable list of object records is loaded to the end. *)
Lemma for_of_loadable objects st0 st ob li re :
  forallb object_loadable objects = true →
  loaded st0 st ob li re →
  ∃ st',
    for_of objects loadObject st = (Normal tt, st') ∧
    loaded st0 st' (ob ++ omap reexported_object objects) li
      (re ++ omap decoded_object objects).
Proof.
  revert st ob re.
  induction objects as [|obj objects IH]; intros st ob re Hobj Hl.
  - exists st. by rewrite !app_nil_r.
  - simpl in Hobj. apply andb_true_iff in Hobj as [Ho Hobj].
    destruct obj as [[center|] radius [color|] | [min|] [max|] [color|] | type];
      try done; cbn [for_of]; unfold bind at 1; unfold loadObject.
    + unfold bind, defined, ret, call, modify. simpl.
      destruct (record_loaded_sphere
                  ("sphere" +:+ "-" +:+ pretty (idCounter st + 1)%N) center radius color)
        as (R1 & R2 & R3).
      match goal with |- ∃ _, for_of _ _ ?s = _ ∧ _ =>
        destruct (IH s (ob ++ [SphereDoc (Some center) radius (Some color)])
                    (re ++ [SphereData (vec_of_arr center) radius (color_of_arr color)])
                    Hobj)
          as (st' & Hrun & Hld) end.
      { eapply (loaded_object st0 st); [done.. | apply R1 | done | done]. }
      exists st'. split; [done|]. by rewrite <- !app_assoc in Hld.
    + unfold bind, defined, ret, call, modify. simpl.
      destruct (record_loaded_cube
                  ("cube" +:+ "-" +:+ pretty (idCounter st + 1)%N) min max color)
        as (R1 & R2 & R3).
      destruct min as [[a0 a1] a2], max as [[b0 b1] b2].
      match goal with |- ∃ _, for_of _ _ ?s = _ ∧ _ =>
        destruct (IH s (ob ++ omap reexported_object
                                [CubeDoc (Some (a0, a1, a2)) (Some (b0, b1, b2)) (Some color)])
                    (re ++ omap decoded_object
                             [CubeDoc (Some (a0, a1, a2)) (Some (b0, b1, b2)) (Some color)])
                    Hobj)
          as (st' & Hrun & Hld) end.
      { eapply (loaded_object st0 st); [done.. | apply R1 | done | done]. }
      exists st'. split; [done|]. by rewrite <- !app_assoc in Hld.
    + unfold ret. apply IH; done.
Qed.

(** An object record either is loaded or raises the exception before
    anything is changed. *)
Lemma loadObject_outcome obj st :
  if object_loadable obj
  then ∃ st', loadObject obj st = (Normal tt, st')
  else loadObject obj st = (Throw "TypeError", st).
Proof.
  destruct obj as [[center|] radius [color|] | [min|] [max|] [color|] | type];
    simpl; try done; try (by eexists);
    unfold bind, defined, ret, call, modify; simpl; try (by eexists).
Qed.

(** A list of object records with a record that is not loadable ends in
    an exception. *)
Lemma for_of_not_loadable objects st :
  forallb object_loadable objects = false →
  ∃ st', for_of objects loadObject st = (Throw "TypeError", st').
Proof.
  revert st. induction objects as [|obj objects IH]; intros st Hobj; [done|].
  simpl in Hobj. apply andb_false_iff in Hobj.
  cbn [for_of]. unfold bind at 1.
  pose proof (loadObject_outcome obj st) as Ho.
  destruct (object_loadable obj).
  - destruct Hobj as [?|Hobj]; [done|]. destruct Ho as [s ->]. by apply IH.
  - rewrite Ho. by eexists.
Qed.

(** The light records never raise an exception. *)
Lemma for_of_lights lights st0 st ob li re :
  loaded st0 st ob li re →
  ∃ st',
    for_of lights loadLight st = (Normal tt, st') ∧
    loaded st0 st' ob (li ++ omap reexported_light lights)
      (re ++ omap loaded_light_data lights).
Proof.
  revert st li re.
  induction lights as [|lightData lights IH]; intros st li re Hl.
  - exists st. by rewrite !app_nil_r.
  - destruct lightData as [position intensity direction | type];
      cbn [for_of]; unfold bind at 1; unfold loadLight.
    + unfold bind, defined, ret, call, modify. simpl.
      destruct (record_loaded_light
                  ("light" +:+ "-" +:+ pretty (idCounter st + 1)%N)
                  position intensity direction) as (R1 & R2 & R3).
      match goal with |- ∃ _, for_of _ _ ?s = _ ∧ _ =>
        destruct (IH s (li ++ omap reexported_light [PointDoc position intensity direction])
                    (re ++ omap loaded_light_data [PointDoc position intensity direction]))
          as (st' & Hrun & Hld) end.
      { eapply (loaded_light st0 st); [done.. | done | apply R1 | done]. }
      exists st'. split; [done|]. by rewrite <- !app_assoc in Hld.
    + unfold ret. by apply IH.
Qed.

Lemma for_of_objects_return objects st :
  forallb object_loadable objects = true →
  ∃ st', for_of objects loadObject st = (Normal tt, st').
Proof.
  revert st. induction objects as [|obj objects IH]; intros st Hobj; [by eexists|].
  simpl in Hobj. apply andb_true_iff in Hobj as [Ho Hobj].
  cbn [for_of]. unfold bind at 1.
  pose proof (loadObject_outcome obj st) as H. rewrite Ho in H.
  destruct H as [s ->]. by apply IH.
Qed.

Lemma for_of_lights_return lights st :
  ∃ st', for_of lights loadLight st = (Normal tt, st').
Proof.
  revert st. induction lights as [|lightData lights IH]; intros st; [by eexists|].
  cbn [for_of]. unfold bind at 1.
  destruct lightData; unfold loadLight, bind, defined, ret, call, modify; simpl;
    apply IH.
Qed.

(** Whether [loadSceneFromJson] returns or throws is read off the
    document. *)
Lemma loadSceneFromJson_returns data st :
  ∃ st', loadSceneFromJson data st =
         (if loadable data then Normal tt else Throw "TypeError", st').
Proof.
  unfold loadSceneFromJson, loadable.
  unfold bind at 1. unfold modify at 1. fold (clear_entities st).
  generalize (clear_entities st) as s0. intros s0.
  unfold bind at 1.
  destruct (doc_camera data) as [cam|]; simpl.
  - rewrite loadCamera_outcome. unfold camera_loadable.
    destruct (cam_position cam), (cam_look_at cam); simpl; try (by eexists).
    generalize (set_cameraState (merged_camera (cameraState s0) cam) s0) as s1.
    intros s1. unfold bind at 1.
    destruct (doc_objects data) as [objects|]; simpl.
    + destruct (forallb object_loadable objects) eqn:Ho.
      * destruct (for_of_objects_return objects s1 Ho) as [s2 ->].
        unfold bind at 1.
        destruct (doc_lights data) as [lights|]; simpl.
        -- destruct (for_of_lights_return lights s2) as [s3 ->]. by eexists.
        -- by eexists.
      * destruct (for_of_not_loadable objects s1 Ho) as [s2 ->]. by eexists.
    + unfold bind at 1.
      destruct (doc_lights data) as [lights|]; simpl.
      * destruct (for_of_lights_return lights s1) as [s3 ->]. by eexists.
      * by eexists.
  - unfold ret at 1. unfold bind at 1.
    destruct (doc_objects data) as [objects|]; simpl.
    + destruct (forallb object_loadable objects) eqn:Ho.
      * destruct (for_of_objects_return objects s0 Ho) as [s2 ->].
        unfold bind at 1.
        destruct (doc_lights data) as [lights|]; simpl.
        -- destruct (for_of_lights_return lights s2) as [s3 ->]. by eexists.
        -- by eexists.
      * destruct (for_of_not_loadable objects s0 Ho) as [s2 ->]. by eexists.
    + unfold bind at 1.
      destruct (doc_lights data) as [lights|]; simpl.
      * destruct (for_of_lights_return lights s0) as [s3 ->]. by eexists.
      * by eexists.
Qed.

(** The import of a text that is not valid JSON, or that holds a scene
    document whose fields, where present, are of the types of [Document]
    (arrays of three numbers for vectors and colours, numbers for radius,
    field of view, width and height, arrays of numbers for intensity and
    direction).  It raises its alert exactly when the text is not valid
    JSON, the camera block lacks [position] or [look_at], a sphere lacks
    [center] or [color], or a cube lacks [min], [max] or [color]; it then
    raises the one alert.  Point light records of these types and records
    of an unknown type never make the import fail.  Values of other shapes
    ([null], a shorter array, a text for a number) are not values of
    [Document]. *)
Theorem import_alerts_exactly_when_not_loadable (parsed : option Document) (st : State) :
  alerts (importOnLoad parsed st) =
  if from_option loadable false parsed
  then alerts st
  else alerts st ++ ["Failed to parse scene JSON"].
Proof.
  destruct parsed as [data|]; [|done]. simpl.
  pose proof (alerts_loadSceneFromJson data st) as Ha.
  destruct (loadSceneFromJson_returns data st) as [st' Hl].
  unfold importOnLoad. rewrite Hl in *. simpl in Ha.
  destruct (loadable data); simpl; by rewrite Ha.
Qed.

(** The import of a loadable document: the blocks are loaded into the
    cleared editor [s1], then the last entity is selected and the text is
    rewritten. *)
Lemma loadSceneFromJson_loadable data st :
  wf st → loadable data = true →
  ∃ s1 s3,
    loadSceneFromJson data st =
      (Normal tt,
       refreshSceneJson
         (match last (entities s3) with
          | Some l => selectEntity (entity_id l s3) s3
          | None => selectEntity None s3
          end)) ∧
    live s1 = [] ∧
    cameraState s1 = from_option (merged_camera (cameraState st)) (cameraState st)
                       (doc_camera data) ∧
    loaded s1 s3 (omap reexported_object (default [] (doc_objects data)))
      (omap reexported_light (default [] (doc_lights data)))
      (omap decoded_object (default [] (doc_objects data)) ++
       omap loaded_light_data (default [] (doc_lights data))).
Proof.
  intros W Hld. unfold loadable in Hld. apply andb_true_iff in Hld as [Hcam Hobj].
  destruct (clear_entities_empty st W) as [He _].
  pose proof (cameraState_clear_entities st) as Hc0.
  set (s0 := clear_entities st) in *.
  set (s1 := match doc_camera data with
             | Some cam => set_cameraState (merged_camera (cameraState s0) cam) s0
             | None => s0
             end).
  assert (match doc_camera data with
          | Some cam => loadCamera cam
          | None => ret tt
          end s0 = (Normal tt, s1)) as Hrun1.
  { unfold s1. destruct (doc_camera data) as [cam|]; [|done]. simpl in Hcam.
    rewrite loadCamera_outcome. unfold camera_loadable in Hcam.
    by destruct (cam_position cam), (cam_look_at cam). }
  assert (entities s1 = []) as He1.
  { unfold s1. by destruct (doc_camera data). }
  assert (live s1 = []) as Hlive.
  { unfold live. by rewrite He1. }
  assert (loaded s1 s1 [] [] []) as Hl0.
  { apply loaded_refl. intros l. rewrite He1. by intros ?%elem_of_nil. }
  destruct (for_of_loadable (default [] (doc_objects data)) s1 s1 [] [] [] Hobj Hl0)
    as (s2 & Hrun2 & Hl2).
  destruct (for_of_lights (default [] (doc_lights data)) s1 s2 _ [] _ Hl2)
    as (s3 & Hrun3 & Hl3).
  simpl in Hl3.
  assert (match doc_objects data with
          | Some objects => for_of objects loadObject
          | None => ret tt
          end s1 = (Normal tt, s2)) as Hrun2'.
  { destruct (doc_objects data); [done|]. simpl in Hrun2. by injection Hrun2 as <-. }
  assert (match doc_lights data with
          | Some lights => for_of lights loadLight
          | None => ret tt
          end s2 = (Normal tt, s3)) as Hrun3'.
  { destruct (doc_lights data); [done|]. simpl in Hrun3. by injection Hrun3 as <-. }
  exists s1, s3. split_and!; try done.
  - unfold loadSceneFromJson. unfold bind at 1. unfold modify at 1.
    fold (clear_entities st). fold s0. unfold bind at 1. rewrite Hrun1.
    unfold bind at 1. rewrite Hrun2'. unfold bind at 1. rewrite Hrun3'.
    unfold bind, modify. reflexivity.
  - unfold s1. rewrite <- Hc0. by destruct (doc_camera data).
Qed.

Section ImportInGeneral.

Variable parseFloat : string → num.
Variable js_Number : string → num.
Variable parseInt16 : string → num.

#[local] Abbreviation step := (step parseFloat js_Number parseInt16).
#[local] Abbreviation run := (run parseFloat js_Number parseInt16).

(** After every run, the import of a loadable document replaces the scene
    by the one of the document.  The list holds, in order, the entities of
    the sphere and cube records and then those of the point light records;
    records of another type are skipped; a light without position is at
    [0, 5, 0], a missing element of its intensity is 1 (an element 0 stays
    0), a missing element of its direction is that of [0, -1, 0].  The
    document then written has the stored camera with the fields of the
    camera block merged in, the sphere records as read, the cube records
    with the corners computed from centre and extent, and the light records
    with the three fields filled in; it is also the JSON text.  The last
    entity of the list, if there is one, is selected. *)
Theorem import_replaces_the_scene (evs : list Event) (data : Document) :
  loadable data = true →
  let st := run evs initial_state in
  let st' := step (ImportLoaded (Some data)) st in
  e_data <$> live st' =
    omap decoded_object (default [] (doc_objects data)) ++
    omap loaded_light_data (default [] (doc_lights data)) ∧
  buildSceneJson st' = reexported (cameraState st) data ∧
  sceneJsonText st' = buildSceneJson st' ∧
  selectedEntity st' = last (entities st').
Proof.
  intros Hld st st'.
  assert (wf st) as W by apply wf_run.
  destruct (loadSceneFromJson_loadable data st W Hld)
    as (s1 & s3 & Hrun & Hlive & Hcam & [Hb Hc3 _ (es & L & O & Li & R)]).
  rewrite Hlive in L. simpl in L.
  set (s4 := match last (entities s3) with
             | Some l => selectEntity (entity_id l s3) s3
             | None => selectEntity None s3
             end) in *.
  assert (st' = refreshSceneJson s4) as Est.
  { unfold st'. simpl. unfold importOnLoad. by rewrite Hrun. }
  assert (live s4 = es ∧ cameraState s4 = cameraState s1 ∧ entities s4 = entities s3 ∧
          heap s4 = heap s3) as (L4 & C4 & E4 & H4).
  { unfold s4. destruct (last (entities s3));
      by rewrite live_selectEntity, cameraState_selectEntity, entities_selectEntity,
        heap_selectEntity. }
  rewrite Est.
  change (live (refreshSceneJson s4)) with (live s4).
  change (buildSceneJson (refreshSceneJson s4)) with (buildSceneJson s4).
  change (sceneJsonText (refreshSceneJson s4)) with (buildSceneJson s4).
  change (selectedEntity (refreshSceneJson s4)) with (selectedEntity s4).
  change (entities (refreshSceneJson s4)) with (entities s4).
  split_and!; try done.
  - by rewrite L4.
  - unfold buildSceneJson, reexported. by rewrite L4, C4, Hcam, O, Li.
  - rewrite E4. unfold s4. destruct (last (entities s3)) as [l|] eqn:El; [|done].
    assert (l ∈ entities s3) as Hl.
    { apply last_Some in El as [pre ->]. apply elem_of_app. right. by left. }
    assert (is_Some (heap s3 !! l)) as [e He].
    { apply lookup_lt_is_Some. by apply Hb. }
    unfold entity_id, lookup_entity. rewrite He. simpl.
    unfold selectEntity. simpl. rewrite (find_entity_listed l e); [done | | done..].
    rewrite <- H4.
    change (heap s4) with (heap (refreshSceneJson s4)). rewrite <- Est.
    unfold st', st. rewrite <- run_snoc. apply heap_ids_NoDup.
Qed.

End ImportInGeneral.

(** [import_replaces_the_scene] on a document without camera block, with a
    record of an unknown type, and with a light that has one intensity
    element only: the sphere of the editor is replaced, the camera stays,
    the light is filled in and selected. *)
Lemma import_replaces_the_scene_witness :
  let sphere := SphereDoc (Some (int 1, int 2, int 3)) (int 2) (Some (int 1, int 0, int 0)) in
  let data :=
    mkDocument None (Some [OtherObject "torus"; sphere])
      (Some [OtherLight "spot"; PointDoc None (Some [int 0]) None]) in
  let st' := editor_run [AddSphere; ImportLoaded (Some data)] initial_state in
  buildSceneJson st' =
    mkDocument (Some (camera_record initial_camera)) (Some [sphere])
      (Some [PointDoc (Some (int 0, int 5, int 0)) (Some [int 0; lit 10 10; lit 10 10])
               (Some [lit 0 10; lit (-10) 10; lit 0 10])]) ∧
  selectedEntity st' = Some 2.
Proof.
  intros sphere data st'.
  destruct (import_replaces_the_scene decimal_parseFloat decimal_Number hex_parseInt
              [AddSphere] data eq_refl) as (_ & H2 & _ & H4).
  split.
  - etrans; [exact H2|]. by_decision.
  - etrans; [exact H4|]. by vm_compute.
Defined.

(** ** What the events change *)

Lemma find_entity_new e st s1 :
  heap s1 = heap st → entities s1 = entities st → bounded st →
  NoDup (e_id <$> (heap st ++ [e])) →
  find_entity (e_id e) (addListItem e (push_entity e s1)) = Some (length (heap st)).
Proof.
  intros Hh He Hb Hnd. apply find_entity_listed.
  - sproj. by rewrite Hh.
  - sproj. rewrite Hh. apply elem_of_app. right. by left.
  - sproj. rewrite Hh. by rewrite lookup_app_r, Nat.sub_diag by lia.
Qed.

Lemma appended_new prefix e st :
  wf st →
  NoDup (e_id <$> (heap st ++ [e])) →
  appended st
    (refreshSceneJson
       (selectEntity (Some (e_id e))
          (addListItem e (push_entity e (snd (generateId prefix (scene_add_next st)))))))
    e.
Proof.
  intros W Hnd.
  set (s1 := snd (generateId prefix (scene_add_next st))).
  assert (bounded s1) as Hb1 by exact (wf_bound _ W).
  assert (find_entity (e_id e) (addListItem e (push_entity e s1)) =
          Some (length (heap st))) as Hf.
  { by apply find_entity_new. }
  unfold appended.
  change (live (refreshSceneJson ?s)) with (live s).
  rewrite live_selectEntity, live_new by done.
  unfold form_entity, selectEntity, refreshEntityForm. simpl. rewrite Hf. sproj.
  split_and!; try done.
  simpl. change (heap s1) with (heap st).
  by rewrite lookup_app_r, Nat.sub_diag by lia.
Qed.

Lemma remove_first_split l (a : list loc) :
  NoDup a → l ∈ a → ∃ before after, a = before ++ l :: after ∧ remove_first l a = before ++ after.
Proof.
  intros Hnd Hl. induction Hnd as [|x xs Hx Hxs IH]; [by apply elem_of_nil in Hl|].
  simpl. case_bool_decide as E.
  - subst x. by exists [], xs.
  - apply elem_of_cons in Hl as [->|Hl]; [done|].
    destruct (IH Hl) as (before & after & -> & ->). by exists (x :: before), after.
Qed.

Section Footprints.

Variable parseFloat : string → num.
Variable js_Number : string → num.
Variable parseInt16 : string → num.

#[local] Abbreviation step := (step parseFloat js_Number parseInt16).
#[local] Abbreviation run := (run parseFloat js_Number parseInt16).

Lemma appended_step evs ev prefix e :
  let st := run evs initial_state in
  step ev st =
    refreshSceneJson
      (selectEntity (Some (e_id e))
         (addListItem e (push_entity e (snd (generateId prefix (scene_add_next st)))))) →
  appended st (step ev st) e.
Proof.
  intros st Hstep. rewrite Hstep. apply appended_new; [apply wf_run|].
  assert (heap (step ev st) = heap st ++ [e]) as <-.
  { rewrite Hstep. change (heap (refreshSceneJson ?s)) with (heap s).
    by rewrite heap_selectEntity. }
  unfold st. rewrite <- run_snoc. apply heap_ids_NoDup.
Qed.

(** After every run, each of the three add buttons puts one new entity
    object at the end of the list and changes no other: the new entity has
    the next id and the default record of its kind, it is selected, the
    form is shown for it and the gizmo is attached to it, the camera state
    stays, and the JSON text is rewritten. *)
Theorem add_appends_one_entity (evs : list Event) :
  let st := run evs initial_state in
  appended st (step AddSphere st) (newSphereEntity (next_id "sphere" st)) ∧
  appended st (step AddCube st) (newCubeEntity (next_id "cube" st)) ∧
  appended st (step AddLight st) (newLightEntity (next_id "light" st)).
Proof.
  intros st. split_and!.
  - by apply (appended_step evs AddSphere "sphere").
  - by apply (appended_step evs AddCube "cube").
  - by apply (appended_step evs AddLight "light").
Qed.

(** After every run, the delete button takes the selected entity out of
    the list and leaves the other entities in their order; no entity object
    is changed, and neither are the camera state and the id counter. *)
Theorem delete_keeps_the_others (evs : list Event) :
  let st := run evs initial_state in
  let st' := step DeleteClick st in
  heap st' = heap st ∧ cameraState st' = cameraState st ∧ idCounter st' = idCounter st ∧
  match selectedEntity st with
  | Some l =>
      ∃ before after,
        entities st = before ++ l :: after ∧ entities st' = before ++ after
  | None => entities st' = entities st
  end.
Proof.
  intros st st'. assert (wf st) as W by apply wf_run.
  unfold st'. simpl. unfold deleteClick.
  destruct (selectedEntity st) as [l|] eqn:El; [|done].
  assert (is_Some (heap st !! l)) as [e He].
  { apply lookup_lt_is_Some. apply W. by apply W. }
  rewrite heap_removeEntity, heap_selectEntity.
  rewrite (entities_removeEntity l e) by (by rewrite heap_selectEntity).
  rewrite entities_selectEntity.
  split_and!; [done | unfold removeEntity; by frame.. |].
  apply remove_first_split; [apply W | by apply W].
Qed.

Lemma form_entity_selected l e st :
  wf st → form_entity st = Some (l, e) → selectedEntity st = Some l.
Proof.
  intros W. unfold form_entity. destruct (entityEditor_hidden st) eqn:Eh; [done|].
  destruct (wf_form _ W Eh) as [-> _].
  destruct (selectedEntity st) as [s|]; [|done]. simpl.
  destruct (lookup_entity s st); simpl; by intros [= -> ->].
Qed.

(** What [update l f] leaves as it is. *)
Lemma update_footprint l f st :
  let st' := refreshSceneJson (update l f st) in
  entities st' = entities st ∧
  objectList_options st' = objectList_options st ∧
  idCounter st' = idCounter st ∧
  disposed st' = disposed st ∧
  length (heap st') = length (heap st) ∧
  ∀ l', Some l ≠ Some l' → heap st' !! l' = heap st !! l'.
Proof.
  intros st'. unfold st'. sproj. split_and!; try done.
  - apply length_alter.
  - intros l' Hne. apply list_lookup_alter_ne. congruence.
Qed.

(** After every run, an event that is not an add, a delete or an import
    keeps the list, the object list, the id counter and the released
    resources, and changes no entity object but the selected one: a commit
    in a field of the form and a drag of the gizmo reach the selected
    entity only. *)
Theorem edits_reach_the_selection_only (evs : list Event) (ev : Event) :
  keeps_the_list ev = true →
  let st := run evs initial_state in
  let st' := step ev st in
  entities st' = entities st ∧
  objectList_options st' = objectList_options st ∧
  idCounter st' = idCounter st ∧
  disposed st' = disposed st ∧
  length (heap st') = length (heap st) ∧
  ∀ l, selectedEntity st ≠ Some l → heap st' !! l = heap st !! l.
Proof.
  intros Hev st st'. assert (wf st) as W by apply wf_run.
  unfold st'. clearbody st. clear st'. destruct ev; try done; simpl.
  - split_and!; by frame.
  - unfold pointerDown. repeat case_match; try done. split_and!; by frame.
  - unfold numberFieldChange.
    destruct (form_entity st) as [[l e]|] eqn:Ef; [|done].
    pose proof (form_entity_selected l e st W Ef) as Hl.
    repeat case_match; try done. unfold onChange, setEntityPosition.
    destruct field; rewrite Hl; exact (update_footprint l _ st).
  - unfold colorFieldInput.
    destruct (form_entity st) as [[l e]|] eqn:Ef; [|done].
    pose proof (form_entity_selected l e st W Ef) as Hl.
    case_match; try done; rewrite Hl; exact (update_footprint l _ st).
  - unfold gizmoDrag. destruct (transform_object st) as [l|] eqn:El; [|done].
    pose proof (wf_gizmo _ W l El) as Hl.
    unfold objectChange. sproj. rewrite Hl. unfold refreshEntityForm. sproj.
    rewrite Hl. sproj. split_and!; try done.
    + by rewrite !length_alter.
    + intros l' Hne. rewrite !list_lookup_alter_ne; [done | congruence..].
  - unfold transformRadioChange. by repeat case_match.
Qed.

End Footprints.

(** [edits_reach_the_selection_only] on a scene of two spheres: a radius
    commit on the second leaves the first as it was built. *)
Lemma edits_reach_the_selection_only_witness :
  let evs := [AddSphere; AddSphere] in
  let st' := editor_run (evs ++ [NumberFieldChange RadiusField "2.5"]) initial_state in
  heap st' !! 0 = Some (newSphereEntity "sphere-2") ∧
  radius_of 1 st' = Some (lit 25 10).
Proof.
  intros evs st'. split; [|by_decision].
  destruct (edits_reach_the_selection_only decimal_parseFloat decimal_Number hex_parseInt
              evs (NumberFieldChange RadiusField "2.5") eq_refl) as (_ & _ & _ & _ & _ & H).
  unfold st', editor_run. rewrite run_snoc. etrans; [apply H|]; by vm_compute.
Defined.

(** ** The previous scene at an import *)



Lemma heap_fold_remove ls st :
  heap (foldl (λ st entity, removeEntity entity st) st ls) = heap st.
Proof.
  revert st. induction ls as [|x xs IH]; intros st; [done|]. simpl.
  by rewrite IH, heap_removeEntity.
Qed.



Section ReleaseOnImport.

Variable parseFloat : string → num.
Variable js_Number : string → num.
Variable parseInt16 : string → num.

#[local] Abbreviation step := (step parseFloat js_Number parseInt16).
#[local] Abbreviation run := (run parseFloat js_Number parseInt16).


End ReleaseOnImport.

(** ** The fields of the property form *)

Lemma placed_invariant parseInt16 :
  entity_invariant parseInt16 (λ e, placed e ∧ box_shaped e) (λ _, True) (λ _, True).
Proof.
  constructor; unfold placed, box_shaped.
  - intros. simpl. eauto.
  - intros. simpl. eauto.
  - intros. simpl. eauto.
  - intros id [[? ?] ?] radius spread _. simpl. eauto.
  - intros id [[? ?] ?] [[? ?] ?] spread _. simpl. eauto.
  - intros id position intensity direction _. simpl. eauto.
  - intros axis value e _. unfold moveEntity.
    entity_cases e; intros [H1 H2]; split; try done; eauto.
  - intros value e _. unfold onRadiusChange.
    entity_cases e; intros [H1 H2]; split; try done; eauto.
    all: rewrite H1; by destruct center.
  - intros axis value e _. unfold onSizeChange.
    entity_cases e; intros [H1 H2]; split; try done; eauto.
  - intros channel value e _. unfold onIntensityChange.
    entity_cases e; intros [H1 H2]; split; try done; eauto.
  - intros axis value e _. unfold onDirectionChange.
    entity_cases e; intros [H1 H2]; split; try done; eauto.
  - intros hex e. unfold onColorChange.
    entity_cases e; intros [H1 H2]; split; try done; eauto.
  - intros p e. unfold updateEntityFromTransform, dragMesh.
    entity_cases e; intros [H1 H2]; split; try done; eauto.
Qed.

Section Fields.

Variable parseFloat : string → num.
Variable js_Number : string → num.
Variable parseInt16 : string → num.

#[local] Abbreviation step := (step parseFloat js_Number parseInt16).
#[local] Abbreviation run := (run parseFloat js_Number parseInt16).

(** After every run, when the form shows the entity [e]: a text committed
    in one of its number fields that [parseFloat] reads as [NaN] changes
    nothing; any other text changes the canonical record of [e], and no
    other, to the record with the value put in - a coordinate of the
    position or of the direction as it is, the radius and an extent floored
    at 0.1, a channel of the intensity floored at 0 - and the JSON text is
    rewritten. *)
Theorem field_commit_updates_the_record
    (evs : list Event) (l : loc) (e : Entity) (field : NumberField) (text : string) :
  let st := run evs initial_state in
  form_entity st = Some (l, e) → has_field field e = true →
  let st' := step (NumberFieldChange field text) st in
  if Number_isNaN (parseFloat text) then st' = st
  else
    e_data <$> heap st' !! l = Some (committed field (parseFloat text) (e_data e)) ∧
    (∀ l', l' ≠ l → heap st' !! l' = heap st !! l') ∧
    sceneJsonText st' = buildSceneJson st'.
Proof.
  intros st Hform Hfield st'.
  assert (wf st) as W by apply wf_run.
  pose proof (form_entity_selected l e st W Hform) as Hsel.
  pose proof (form_entity_lookup l e st Hform) as He.
  assert (placed e ∧ box_shaped e) as [Hp Hb].
  { assert (Forall (import_ok (λ _, True) (λ _, True)) evs) as Hok.
    { apply Forall_forall. intros ev _. destruct ev as [| | | | | | | | | | | | |[data|]]; try done.
      simpl. split; by apply Forall_forall. }
    pose proof (holds_run parseFloat js_Number parseInt16 _ _ _
                  (placed_invariant parseInt16) evs Hok) as H.
    unfold all_entities in H. eapply (Forall_lookup_1 _ _ _ _ H He). }
  unfold st'. simpl. unfold numberFieldChange. rewrite Hform, Hfield.
  destruct (Number_isNaN (parseFloat text)) eqn:En; [done|]. simpl.
  assert (∀ f, (e_data <$> heap (refreshSceneJson (update l f st)) !! l =
                Some (e_data (f e))) ∧
               (∀ l', l' ≠ l →
                  heap (refreshSceneJson (update l f st)) !! l' = heap st !! l') ∧
               sceneJsonText (refreshSceneJson (update l f st)) =
                 buildSceneJson (refreshSceneJson (update l f st))) as Hup.
  { intros f. sproj. split_and!; try done.
    - by rewrite list_lookup_alter_eq, He.
    - intros l' Hne. by apply list_lookup_alter_ne. }
  unfold onChange, setEntityPosition. rewrite Hsel.
  destruct field;
    match goal with |- context [update l ?f st] =>
      destruct (Hup f) as (H1 & H2 & H3); rewrite H1 end;
    (split_and!; [f_equal | done | done]).
  - unfold moveEntity, placed in *. revert Hp Hfield. entity_cases e; by intros ->.
  - unfold onRadiusChange. revert Hfield. by entity_cases e.
  - unfold onSizeChange. revert Hb Hfield. unfold box_shaped, has_field.
    entity_cases e; try done. all: by intros (? & ? & ? & [=]).
  - unfold onIntensityChange. revert Hfield. entity_cases e; try done.
    all: by match goal with light : option PointLight |- _ => destruct light end.
  - unfold onDirectionChange. revert Hfield. by entity_cases e.
Qed.

End Fields.

(** [field_commit_updates_the_record] on a new light: the text -2 in the
    field R of the intensity stores 0. *)
Lemma field_commit_updates_the_record_witness :
  let st' := editor_run [AddLight; NumberFieldChange (IntensityField ChannelR) "-2"]
               initial_state in
  e_data <$> heap st' !! 0 =
    Some (LightData (vec (int 3) (int 5) (int 3)) (mkColor (int 0) (lit 10 10) (lit 10 10))
            (mkVector3 (lit 0 10) (lit (-10) 10) (lit 0 10))).
Proof.
  intros st'.
  assert (form_entity (editor_run [AddLight] initial_state) =
          Some (0, newLightEntity "light-2")) as Hform by (by vm_compute).
  assert (Number_isNaN (decimal_parseFloat "-2") = false) as En by (by vm_compute).
  pose proof (field_commit_updates_the_record decimal_parseFloat decimal_Number
                hex_parseInt [AddLight] 0 (newLightEntity "light-2")
                (IntensityField ChannelR) "-2" Hform eq_refl) as H.
  cbv zeta in H. rewrite En in H. destruct H as (H & _ & _).
  etrans; [exact H|]. by_decision.
Defined.

(** ** Texts that are not finite numbers *)






Lemma finite_origin : finite_vec origin.
Proof. done. Qed.








Section NonFiniteInput.

Variable js_Number : string → num.
Variable parseInt16 : string → num.

#[local] Abbreviation step := (step decimal_parseFloat js_Number parseInt16).
#[local] Abbreviation run := (run decimal_parseFloat js_Number parseInt16).


End NonFiniteInput.


(** ** binary64 values and rounding *)

Lemma odd_part_spec p : ∃ t, (0 ≤ t)%Z ∧ Zpos p = (Zpos (odd_part p) * 2 ^ t)%Z.
Proof.
  induction p as [p IH|p IH|].
  - exists 0%Z. simpl. lia.
  - destruct IH as (t & Ht & E). exists (t + 1)%Z. split; [lia|].
    simpl odd_part. rewrite Z.pow_add_r by lia. rewrite Pos2Z.inj_xO, E. lia.
  - exists 0%Z. simpl. lia.
Qed.

Lemma round_half_even_exact b c : (0 < b)%Z → round_half_even (b * c) b = c.
Proof.
  intros Hb. unfold round_half_even.
  rewrite (Z.mul_comm b c), Z.mod_mul, Z.div_mul by lia. simpl.
  by destruct b.
Qed.

Lemma round_half_even_le a b : (0 < b)%Z → (round_half_even a b ≤ a / b + 1)%Z.
Proof. intros Hb. unfold round_half_even. repeat case_match; lia. Qed.

Lemma round_half_even_ge a b : (0 < b)%Z → (a / b ≤ round_half_even a b)%Z.
Proof. intros Hb. unfold round_half_even. repeat case_match; lia. Qed.

(** The exponent of the last place is at most the one of the leading bit
    less 52, or -1074. *)
Lemma last_place_le n d :
  (last_place n d ≤ Z.max (Z.log2 n - Z.log2 d - 52) (-1074))%Z.
Proof.
  unfold last_place. destruct (scaled n d _) as [a b]. case_match; lia.
Qed.

Lemma last_place_ge n d : (-1074 ≤ last_place n d)%Z.
Proof.
  unfold last_place. destruct (scaled n d _) as [a b]. lia.
Qed.

(** A value [o * 2^t / 2^k], scaled by an exponent that is not above
    [t - k], is a whole number. *)
Lemma scaled_exact o t k e :
  (0 < o)%Z → (0 ≤ t)%Z → (0 ≤ k)%Z → (e ≤ t - k)%Z →
  ∃ b, (0 < b)%Z ∧ scaled (o * 2 ^ t) (2 ^ k) e = ((b * (o * 2 ^ (t - k - e)))%Z, b).
Proof.
  intros Ho Ht Hk He. unfold scaled. destruct (0 <=? e)%Z eqn:E.
  - apply Z.leb_le in E. exists (2 ^ k * 2 ^ e)%Z. split; [lia|]. f_equal.
    assert (2 ^ t = 2 ^ k * 2 ^ e * 2 ^ (t - k - e))%Z as ->; [|ring].
    rewrite <- !Z.pow_add_r by lia. f_equal. lia.
  - apply Z.leb_gt in E. exists (2 ^ k)%Z. split; [lia|]. f_equal.
    assert (2 ^ t * 2 ^ (- e) = 2 ^ k * 2 ^ (t - k - e))%Z as H.
    { rewrite <- !Z.pow_add_r by lia. f_equal. lia. }
    replace (o * 2 ^ t * 2 ^ (- e))%Z with (o * (2 ^ t * 2 ^ (- e)))%Z by ring.
    rewrite H. ring.
Qed.

(** What [binary64] says of a finite value that is not zero, with [n] the
    magnitude of the numerator and [d] the denominator. *)
Lemma binary64_shape (n d : positive) :
  (odd_part d =? 1)%positive && (Z.log2 (Zpos d) <=? 1074)%Z &&
  (Zpos (odd_part n) <? 2 ^ 53)%Z && (Zpos n <? 2 ^ 1024 * Zpos d)%Z = true →
  ∃ o t k,
    (0 < o < 2 ^ 53)%Z ∧ (0 ≤ t)%Z ∧ (0 ≤ k ≤ 1074)%Z ∧
    Zpos n = (o * 2 ^ t)%Z ∧ Zpos d = (2 ^ k)%Z ∧ (o * 2 ^ t < 2 ^ 1024 * 2 ^ k)%Z.
Proof.
  intros H. apply andb_prop in H as [H H4]. apply andb_prop in H as [H H3].
  apply andb_prop in H as [H1 H2].
  apply Pos.eqb_eq in H1. apply Z.leb_le in H2. apply Z.ltb_lt in H3, H4.
  destruct (odd_part_spec n) as (t & Ht & En).
  destruct (odd_part_spec d) as (k & Hk & Ed). rewrite H1 in Ed.
  rewrite Z.mul_1_l in Ed.
  exists (Zpos (odd_part n)), t, k. rewrite Ed in H2, H4. rewrite En in H4.
  rewrite Z.log2_pow2 in H2 by done. split_and!; try done; lia.
Qed.

Lemma last_place_binary64 o t k :
  (0 < o < 2 ^ 53)%Z → (0 ≤ t)%Z → (0 ≤ k ≤ 1074)%Z →
  (last_place (o * 2 ^ t) (2 ^ k) ≤ t - k)%Z.
Proof.
  intros Ho Ht Hk.
  pose proof (last_place_le (o * 2 ^ t) (2 ^ k)) as H.
  rewrite Z.log2_mul_pow2, Z.log2_pow2 in H by lia.
  assert (Z.log2 o < 53)%Z by (apply Z.log2_lt_pow2; lia). lia.
Qed.

(** Rounding leaves a binary64 value as it is. *)
Lemma round64_binary64 q : binary64 (Fin q) = true → round64 q = Fin q.
Proof.
  unfold binary64, round64.
  destruct (Qnum q) as [|n|n] eqn:Eq; [done| |]; intros H;
    destruct (binary64_shape n (Qden q) H) as (o & t & k & Ho & Ht & Hk & En & Ed & Hlt);
    [change (Z.abs (Z.pos n)) with (Z.pos n); change (Z.pos n <? 0)%Z with false
    |change (Z.abs (Z.neg n)) with (Z.pos n); change (Z.neg n <? 0)%Z with true];
    rewrite En, Ed;
    pose proof (last_place_binary64 o t k Ho Ht Hk) as He;
    pose proof (last_place_ge (o * 2 ^ t) (2 ^ k)) as He';
    set (e := last_place (o * 2 ^ t) (2 ^ k)) in *;
    destruct (scaled_exact o t k e) as (b & Hb & ->); try lia;
    rewrite round_half_even_exact by done;
    set (c := (o * 2 ^ (t - k - e))%Z);
    assert (Z.neg n = - (o * 2 ^ t))%Z as En' by (rewrite <- En; reflexivity);
    (destruct (0 <=? e)%Z eqn:E;
     [apply Z.leb_le in E;
      assert (c * 2 ^ e * 2 ^ k = o * 2 ^ t)%Z as Hv
        by (unfold c;
            assert (2 ^ t = 2 ^ (t - k - e) * 2 ^ e * 2 ^ k)%Z as ->
              by (rewrite <- !Z.pow_add_r by lia; f_equal; lia);
            ring);
      assert ((2 ^ 1024 <=? c * 2 ^ e)%Z = false) as ->
        by (apply Z.leb_gt; assert (0 < 2 ^ k)%Z by lia; nia);
      simpl; f_equal; apply Qc_is_canon; simpl; rewrite Qred_correct;
      unfold Qeq; simpl; rewrite Eq, ?En', ?En, Ed; lia
     |apply Z.leb_gt in E; simpl; f_equal; apply Qc_is_canon; simpl;
      rewrite Qred_correct; unfold Qeq; simpl; rewrite Eq, ?En', ?En, Ed;
      rewrite Z2Pos.id by lia; unfold c;
      assert (2 ^ t * 2 ^ (- e) = 2 ^ (t - k - e) * 2 ^ k)%Z as Hpow
        by (rewrite <- !Z.pow_add_r by lia; f_equal; lia);
      nia]).
Qed.

(** A magnitude below [2^1000] is rounded to a finite value. *)
Lemma round64_finite (q : Qc) :
  (Z.abs (Qnum q) < 2 ^ 1000 * Zpos (Qden q))%Z → Number_isFinite (round64 q) = true.
Proof.
  intros Hq. unfold round64. destruct (Qnum q) as [|n|n] eqn:Eq; [done| |];
    (set (m := Z.abs _) in *; set (d := Zpos (Qden q)) in *;
     assert (0 < m)%Z as Hm by (unfold m; simpl; lia);
     assert (0 < d)%Z as Hd by (unfold d; lia);
     pose proof (last_place_le m d) as He;
     set (e := last_place m d) in *;
     assert (e ≤ 948)%Z as He'
       by (assert (Z.log2 m ≤ Z.log2 (d * 2 ^ 1000))%Z as Hl
             by (apply Z.log2_le_mono; lia);
           rewrite Z.log2_mul_pow2 in Hl by lia; lia);
     destruct (scaled m d e) as [a b] eqn:Es;
     destruct (0 <=? e)%Z eqn:E; [|done];
     apply Z.leb_le in E;
     unfold scaled in Es; assert ((0 <=? e)%Z = true) as Ee by (by apply Z.leb_le);
     rewrite Ee in Es; injection Es as <- <-;
     assert (0 < 2 ^ e)%Z as Hp by lia;
     assert (2 ^ e ≤ 2 ^ 948)%Z as Hp' by (apply Z.pow_le_mono_r; lia);
     pose proof (round_half_even_le m (d * 2 ^ e) ltac:(lia)) as Hr;
     pose proof (Z.mul_div_le m (d * 2 ^ e) ltac:(lia)) as Hdiv;
     assert (m / (d * 2 ^ e) * 2 ^ e < 2 ^ 1000)%Z as Hb by nia;
     assert ((2 ^ 1024 <=? round_half_even m (d * 2 ^ e) * 2 ^ e)%Z = false) as ->;
     [apply Z.leb_gt; assert (2 ^ 1000 + 2 ^ 948 < 2 ^ 1024)%Z by done; nia | done]).
Qed.

Lemma round64_finite_fraction (x : Q) :
  (Z.abs (Qnum x) < 2 ^ 1000 * Zpos (Qden x))%Z →
  Number_isFinite (round64 (Q2Qc x)) = true.
Proof.
  intros Hx. apply round64_finite. simpl (this _).
  pose proof (Qred_correct x) as E. unfold Qeq in E.
  apply (f_equal Z.abs) in E. rewrite !Z.abs_mul in E.
  change (Z.abs (Zpos (Qden x))) with (Zpos (Qden x)) in E.
  change (Z.abs (Zpos (Qden (Qred x)))) with (Zpos (Qden (Qred x))) in E.
  nia.
Qed.

(** ** Digits *)

Lemma append_cons c (s1 s2 : string) : String c s1 +:+ s2 = String c (s1 +:+ s2).
Proof. reflexivity. Qed.

Lemma append_nil_l (s : string) : "" +:+ s = s.
Proof. reflexivity. Qed.

Lemma append_assoc (s1 s2 s3 : string) : (s1 +:+ s2) +:+ s3 = s1 +:+ (s2 +:+ s3).
Proof.
  induction s1 as [|c s1 IH]; [done|]. by rewrite !append_cons, IH.
Qed.

Lemma append_nil_r (s : string) : s +:+ "" = s.
Proof. induction s as [|c s IH]; [done|]. by rewrite append_cons, IH. Qed.

Lemma length_append (s1 s2 : string) :
  String.length (s1 +:+ s2) = String.length s1 + String.length s2.
Proof. induction s1 as [|c s1 IH]; [done|]. rewrite append_cons. simpl. by rewrite IH. Qed.

Lemma digits_go_fuel base f1 f2 n acc :
  (2 ≤ base)%N → (n < 2 ^ N.of_nat f1)%N → (n < 2 ^ N.of_nat f2)%N →
  digits_go f1 base n acc = digits_go f2 base n acc.
Proof.
  intros Hb. revert f2 n acc. induction f1 as [|f1 IH]; intros f2 n acc H1 H2.
  - assert (n = 0%N) as -> by (simpl in H1; lia). by destruct f2.
  - simpl. destruct (n =? 0)%N eqn:En.
    + apply N.eqb_eq in En as ->. by destruct f2.
    + apply N.eqb_neq in En. destruct f2 as [|f2]; [simpl in H2; lia|].
      simpl. rewrite (proj2 (N.eqb_neq _ _) En).
      assert (∀ f, (n < 2 ^ N.of_nat (S f))%N → (n / base < 2 ^ N.of_nat f)%N) as Hdiv.
      { intros f Hf. rewrite Nat2N.inj_succ, N.pow_succ_r' in Hf.
        apply N.Div0.div_lt_upper_bound.
        eapply N.lt_le_trans; [exact Hf|]. apply N.mul_le_mono_r. done. }
      apply IH; by apply Hdiv.
Qed.

Lemma digits_go_acc base fuel n acc :
  digits_go fuel base n acc = digits_go fuel base n "" +:+ acc.
Proof.
  revert n acc. induction fuel as [|fuel IH]; intros n acc; simpl; [done|].
  destruct (n =? 0)%N; [done|].
  rewrite IH. rewrite (IH _ (String _ "")).
  by rewrite append_assoc.
Qed.

Lemma size_bound n : (n < 2 ^ N.of_nat (N.to_nat (N.size n)))%N.
Proof. rewrite N2Nat.id. apply N.size_gt. Qed.

(** The digits of a number: those of the quotient, then the last one. *)
Lemma N_digits_step base n :
  (2 ≤ base)%N → (0 < n)%N →
  N_digits base n =
  (if (n / base =? 0)%N then "" else N_digits base (n / base)) +:+
  String (digit_char (n mod base)) "".
Proof.
  intros Hb Hn. unfold N_digits at 1.
  rewrite (proj2 (N.eqb_neq n 0)) by lia.
  destruct (N.to_nat (N.size n)) as [|fuel] eqn:Ef.
  { pose proof (size_bound n) as H. rewrite Ef in H. simpl in H. lia. }
  simpl. rewrite (proj2 (N.eqb_neq n 0)) by lia.
  rewrite digits_go_acc. f_equal.
  assert (n / base < 2 ^ N.of_nat fuel)%N as Hq.
  { pose proof (size_bound n) as H. rewrite Ef in H.
    rewrite Nat2N.inj_succ, N.pow_succ_r' in H.
    apply N.Div0.div_lt_upper_bound.
    eapply N.lt_le_trans; [exact H|]. by apply N.mul_le_mono_r. }
  destruct (n / base =? 0)%N eqn:Eq.
  - apply N.eqb_eq in Eq. rewrite Eq. by destruct fuel.
  - unfold N_digits. rewrite Eq.
    apply digits_go_fuel; [done | done | apply size_bound].
Qed.

(** A number of more than [k] digits: the digits of the quotient by
    [base ^ k], then [k] digits. *)
Lemma N_digits_split base k n :
  (2 ≤ base)%N → (0 < n / base ^ N.of_nat k)%N →
  N_digits base n =
  N_digits base (n / base ^ N.of_nat k) +:+ fixed_digits k base (n mod base ^ N.of_nat k).
Proof.
  intros Hb. revert n. induction k as [|k IH]; intros n Hn.
  - change (N.of_nat 0) with 0%N. rewrite N.pow_0_r, N.div_1_r.
    cbn [fixed_digits]. by rewrite append_nil_r.
  - rewrite Nat2N.inj_succ, N.pow_succ_r' in *.
    assert (0 < base ^ N.of_nat k)%N as Hpow by (apply N.neq_0_lt_0, N.pow_nonzero; lia).
    assert (n / (base * base ^ N.of_nat k) = n / base / base ^ N.of_nat k)%N as Hdd.
    { by rewrite N.Div0.div_div. }
    rewrite Hdd in *.
    assert (0 < n / base)%N as Hnb.
    { apply N.neq_0_lt_0. intros E. rewrite E, N.Div0.div_0_l in Hn.
      by apply N.lt_irrefl in Hn. }
    assert (0 < n)%N as Hn0.
    { apply N.neq_0_lt_0. intros E. rewrite E, N.Div0.div_0_l in Hnb.
      by apply N.lt_irrefl in Hnb. }
    rewrite (N_digits_step base n) by done.
    rewrite (proj2 (N.eqb_neq (n / base)%N 0%N)) by (by apply N.neq_sym, N.lt_neq).
    rewrite (IH (n / base)%N) by done. cbn [fixed_digits].
    rewrite append_assoc. f_equal. f_equal.
    + f_equal. rewrite N.Div0.mod_mul_r.
      rewrite N.add_comm, (N.mul_comm base), N.div_add_l by lia.
      rewrite (N.div_small (n mod base)) by (apply N.mod_lt; lia). lia.
    + do 2 f_equal. rewrite N.Div0.mod_mul_r.
      rewrite (N.mul_comm base), N.Div0.mod_add.
      by rewrite N.Div0.mod_mod.
Qed.


(** The digits below 16, for a case analysis. *)
Lemma below_16 (P : N → Prop) :
  Forall P (N.of_nat <$> seq 0 16) → ∀ d, (d < 16)%N → P d.
Proof.
  intros H d Hd. rewrite Forall_forall in H. apply H.
  apply list_elem_of_fmap. exists (N.to_nat d). split; [lia|].
  apply elem_of_seq. lia.
Qed.

Lemma digit_value_char base d :
  base = 10%N ∨ base = 16%N → (d < base)%N → digit_value base (digit_char d) = Some d.
Proof.
  intros Hb Hd. assert (d < 16)%N as Hd16 by (destruct Hb; lia).
  revert d Hd16 Hd.
  apply (below_16 (λ d, (d < base)%N → digit_value base (digit_char d) = Some d)).
  destruct Hb as [-> | ->]; repeat (constructor; [intros ?; first [lia | by vm_compute]|]);
    constructor.
Qed.

(** Reading back [k] digits. *)
Lemma read_fixed_digits base k v rest acc count :
  base = 10%N ∨ base = 16%N → (v < base ^ N.of_nat k)%N →
  read_digits base (fixed_digits k base v +:+ rest) acc count =
  read_digits base rest (acc * base ^ N.of_nat k + v)%N (count + k).
Proof.
  intros Hb. assert (2 ≤ base)%N as Hb2 by (destruct Hb; lia).
  revert v rest. induction k as [|k IH]; intros v rest Hv.
  - change (N.of_nat 0) with 0%N in *. rewrite N.pow_0_r in *.
    assert (v = 0%N) as -> by lia. cbn [fixed_digits]. rewrite append_nil_l.
    f_equal; lia.
  - rewrite Nat2N.inj_succ, N.pow_succ_r' in *. cbn [fixed_digits].
    rewrite append_assoc, append_cons, append_nil_l.
    rewrite IH by (apply N.Div0.div_lt_upper_bound; lia).
    cbn [read_digits]. rewrite digit_value_char by (try done; apply N.mod_lt; lia).
    f_equal; [|lia].
    pose proof (N.Div0.div_mod v base) as Hdm. nia.
Qed.

(** ** The colour field *)

Lemma this_int n : this (Q2Qc (n # 1)) = (n # 1)%Q.
Proof. simpl. apply Qred_identity. simpl. apply Z.gcd_1_r. Qed.

Lemma ToInt32_int n : (- 2 ^ 31 ≤ n < 2 ^ 31)%Z → ToInt32 (int n) = n.
Proof.
  intros Hn. unfold ToInt32, int, lit. rewrite this_int. simpl.
  rewrite Z.quot_1_r. rewrite Z.mod_small by lia. lia.
Qed.

Lemma Number_toString_int radix n :
  radix = 16%N →
  Number_toString radix (int (Z.of_N n)) = Some (N_digits radix n).
Proof.
  intros ->. unfold Number_toString, int, lit. rewrite this_int. simpl.
  assert ((Z.of_N n <? 0)%Z = false) as -> by (apply Z.ltb_ge; lia).
  by rewrite Zabs2N.id.
Qed.

(** [clamp01] of a number is within [0, 1]. *)
Lemma clamp01_cases v :
  clamp01 v = NaN ∧ v = NaN ∨ ∃ c, clamp01 v = Fin c ∧ (0 ≤ c)%Qc ∧ (c ≤ 1)%Qc.
Proof.
  assert (0 < 1)%Qc as H01 by done.
  assert (0 ≤ 1)%Qc as H01' by done.
  assert (0 ≤ 0)%Qc as H00 by done.
  assert (1 ≤ 1)%Qc as H11 by done.
  unfold clamp01, int, lit.
  change (Q2Qc (0 # 1)) with 0%Qc. change (Q2Qc (1 # 1)) with 1%Qc.
  destruct v as [q| | |]; [|by left|right..].
  - right. unfold Math_min, Math_max. simpl.
    destruct (bool_decide (q < 1)%Qc) eqn:H1; simpl.
    + destruct (bool_decide (Q2Qc 0 < q)%Qc) eqn:H2; simpl.
      * apply bool_decide_eq_true in H1. apply bool_decide_eq_true in H2.
        exists q. split_and!; [done | by apply Qclt_le_weak..].
      * by exists (Q2Qc 0).
    + destruct (bool_decide (Q2Qc 0 < 1)%Qc) eqn:H2; simpl.
      * by exists 1%Qc.
      * by exists (Q2Qc 0).
  - by exists 1%Qc.
  - by exists 0%Qc.
Qed.

(** A channel within [0, 1], times 255, rounded: a byte. *)
Lemma round_byte c :
  (0 ≤ c)%Qc → (c ≤ 1)%Qc →
  ∃ k, (0 ≤ k ≤ 255)%Z ∧ Math_round (js_mul (Fin c) (int 255)) = int k.
Proof.
  intros H0 H1. eexists. split; [|reflexivity].
  unfold Qcle in H0, H1. simpl in H0, H1.
  assert (this (c * Q2Qc (255 # 1) + Q2Qc (1 # 2))%Qc == this c * (255 # 1) + (1 # 2))%Q
    as E.
  { simpl. by rewrite !Qred_correct. }
  rewrite (Qfloor_comp _ _ E). clear E.
  change (Qred 0) with 0%Q in H0. change (Qred 1) with 1%Q in H1. split.
  - apply (Z.le_trans _ (Qfloor (0 # 1))); [done|]. apply Qfloor_resp_le. lra.
  - apply (Z.le_trans _ (Qfloor (511 # 2))); [|done]. apply Qfloor_resp_le. lra.
Qed.

Lemma js_add_int a b : js_add (int a) (int b) = int (a + b).
Proof.
  unfold int, lit. simpl. f_equal. apply Qc_is_canon. simpl.
  rewrite !Qred_correct. unfold Qeq. simpl. lia.
Qed.

Lemma wrap32_small z : (- 2 ^ 31 ≤ z < 2 ^ 31)%Z → wrap32 z = z.
Proof. intros Hz. unfold wrap32. rewrite Z.mod_small by lia. lia. Qed.

Lemma js_shl_int k count :
  (0 ≤ k ≤ 255)%Z → (0 ≤ count ≤ 16)%Z → js_shl (int k) count = int (k * 2 ^ count).
Proof.
  intros Hk Hc. unfold js_shl. rewrite ToInt32_int by lia.
  rewrite Z.mod_small by lia. rewrite Z.shiftl_mul_pow2 by lia.
  assert (2 ^ count ≤ 2 ^ 16)%Z by (apply Z.pow_le_mono_r; lia).
  rewrite wrap32_small; [done|]. nia.
Qed.

(** The rounded channel is a byte; [NaN] stays, and is 0 under a shift. *)
Lemma channel_cases v :
  ∃ k, (0 ≤ k ≤ 255)%Z ∧ channel_byte v = Z.to_N k ∧
       ∀ count, (0 ≤ count ≤ 16)%Z →
         js_shl (Math_round (js_mul (clamp01 v) (int 255))) count = int (k * 2 ^ count) ∧
         (Number_isNaN v = false →
          Math_round (js_mul (clamp01 v) (int 255)) = int k).
Proof.
  unfold channel_byte.
  destruct (clamp01_cases v) as [[-> ->]|(c & -> & H0 & H1)].
  - exists 0%Z. split_and!; [lia.. | done |]. intros count Hc. split; [|done].
    unfold js_shl. simpl. rewrite Z.shiftl_0_l. done.
  - destruct (round_byte c H0 H1) as (k & Hk & ->). exists k.
    rewrite ToInt32_int by lia. split_and!; [lia.. | done |].
    intros count Hc. split; [by apply js_shl_int | done].
Qed.

Lemma channel_byte_bound v : (channel_byte v < 256)%N.
Proof. destruct (channel_cases v) as (k & Hk & -> & _). lia. Qed.

Lemma fixed_digits_app base j k u v :
  (2 ≤ base)%N → (v < base ^ N.of_nat k)%N →
  fixed_digits (j + k) base (u * base ^ N.of_nat k + v) =
  fixed_digits j base u +:+ fixed_digits k base v.
Proof.
  intros Hb. revert u v. induction k as [|k IH]; intros u v Hv.
  - change (N.of_nat 0) with 0%N in *. rewrite N.pow_0_r in *.
    assert (v = 0%N) as -> by lia. rewrite Nat.add_0_r, N.mul_1_r, N.add_0_r.
    cbn [fixed_digits]. by rewrite append_nil_r.
  - rewrite Nat2N.inj_succ, N.pow_succ_r' in *.
    rewrite Nat.add_succ_r. cbn [fixed_digits].
    assert ((u * (base * base ^ N.of_nat k) + v) / base =
            u * base ^ N.of_nat k + v / base)%N as ->.
    { rewrite (N.mul_comm base), N.mul_assoc, N.div_add_l by lia. done. }
    assert ((u * (base * base ^ N.of_nat k) + v) mod base = v mod base)%N as ->.
    { rewrite N.add_comm, (N.mul_comm base), N.mul_assoc, N.Div0.mod_add. done. }
    rewrite IH by (apply N.Div0.div_lt_upper_bound; lia).
    by rewrite append_assoc.
Qed.

(** The seven digits of [2^24 + v]: a one, then six digits of [v]. *)
Lemma N_digits_color v :
  (v < 2 ^ 24)%N → N_digits 16 (2 ^ 24 + v) = "1" +:+ fixed_digits 6 16 v.
Proof.
  intros Hv.
  assert ((2 ^ 24 + v) / 2 ^ 24 = 1)%N as Hq.
  { symmetry. apply (N.div_unique _ _ 1 v); lia. }
  assert ((2 ^ 24 + v) mod 2 ^ 24 = v)%N as Hr.
  { symmetry. apply (N.mod_unique _ _ 1 v); lia. }
  rewrite (N_digits_split 16 6); change (16 ^ N.of_nat 6)%N with (2 ^ 24)%N;
    rewrite ?Hq, ?Hr; done.
Qed.

Lemma hex_color_text_digits r g b :
  (g < 256)%N → (b < 256)%N →
  hex_color_text r g b = "#" +:+ fixed_digits 6 16 ((r * 256 + g) * 256 + b).
Proof.
  intros Hg Hb. unfold hex_color_text. f_equal.
  change 6 with (4 + 2). change 256%N with (16 ^ N.of_nat 2)%N.
  rewrite (fixed_digits_app 16 4 2) by done.
  change 4 with (2 + 2). rewrite (fixed_digits_app 16 2 2) by done.
  by rewrite append_assoc.
Qed.

Lemma colorToHex_text (color : Color) :
  colorToHex color =
  Some (if Number_isNaN (c_b color) then "#aN"
        else hex_color_text (channel_byte (c_r color)) (channel_byte (c_g color))
               (channel_byte (c_b color))).
Proof.
  unfold colorToHex.
  destruct (channel_cases (c_r color)) as (kr & Hr & Er & Sr).
  destruct (channel_cases (c_g color)) as (kg & Hg & Eg & Sg).
  destruct (channel_cases (c_b color)) as (kb & Hb & Eb & Sb).
  assert (0 ≤ 16 ≤ 16 ∧ 0 ≤ 8 ≤ 16 ∧ 0 ≤ 0 ≤ 16)%Z as (H16 & H8 & H0) by lia.
  destruct (Sr 16%Z H16) as [Hsr _]. destruct (Sg 8%Z H8) as [Hsg _].
  rewrite Hsr, Hsg.
  change (js_shl (int 1) 24) with (int 16777216). rewrite !js_add_int.
  destruct (Number_isNaN (c_b color)) eqn:En.
  - destruct (c_b color); try done.
  - destruct (Sb 0%Z H0) as [_ Hsb]. rewrite (Hsb eq_refl), js_add_int.
    rewrite hex_color_text_digits by apply channel_byte_bound.
    rewrite Er, Eg, Eb.
    set (v := ((Z.to_N kr * 256 + Z.to_N kg) * 256 + Z.to_N kb)%N).
    assert (16777216 + kr * 2 ^ 16 + kg * 2 ^ 8 + kb = Z.of_N (2 ^ 24 + v))%Z as ->.
    { unfold v. lia. }
    rewrite Number_toString_int by done. simpl.
    rewrite N_digits_color by (unfold v; lia). done.
Qed.

(** The characters of the digits are no space, no sign and no [x]. *)
Lemma digit_char_plain d :
  (d < 16)%N →
  let c := digit_char d in
  is_space c = false ∧ (∀ s, read_sign (String c s) = (false, String c s)) ∧
  (nat_of_ascii c =? 120) || (nat_of_ascii c =? 88) = false.
Proof.
  revert d.
  apply (below_16 (λ d, let c := digit_char d in
                        is_space c = false ∧
                        (∀ s, read_sign (String c s) = (false, String c s)) ∧
                        (nat_of_ascii c =? 120) || (nat_of_ascii c =? 88) = false)).
  repeat (constructor; [by vm_compute|]). constructor.
Qed.

Lemma fixed_digits_head base k v :
  (2 ≤ base)%N →
  fixed_digits (S k) base v =
  String (digit_char ((v / base ^ N.of_nat k) mod base))
    (fixed_digits k base (v mod base ^ N.of_nat k)).
Proof.
  intros Hb.
  assert (0 < base ^ N.of_nat k)%N as Hpow by (apply N.neq_0_lt_0, N.pow_nonzero; lia).
  rewrite (N.div_mod v (base ^ N.of_nat k)) at 1 by lia.
  rewrite (N.mul_comm (base ^ N.of_nat k)).
  change (S k) with (1 + k). rewrite fixed_digits_app by (try done; apply N.mod_lt; lia).
  cbn [fixed_digits]. by rewrite append_nil_l, append_cons, append_nil_l.
Qed.

(** [parseInt(text, 16)] of a text that begins with two digits. *)
Lemma hex_parseInt_plain d1 d2 s :
  (d1 < 16)%N → (d2 < 16)%N →
  let text := String (digit_char d1) (String (digit_char d2) s) in
  hex_parseInt text =
  let '(v, count, _) := read_digits 16 text 0 0 in
  match count with
  | O => NaN
  | _ => int (Z.of_N v)
  end.
Proof.
  intros H1 H2 text. unfold text, hex_parseInt.
  destruct (digit_char_plain d1 H1) as (Hs1 & Hr1 & Hx1).
  destruct (digit_char_plain d2 H2) as (Hs2 & Hr2 & Hx2).
  cbn [skip_spaces]. rewrite Hs1, Hr1.
  assert (match String (digit_char d1) (String (digit_char d2) s) with
          | String "0" (String c s') =>
              if (nat_of_ascii c =? 120) || (nat_of_ascii c =? 88) then s'
              else String (digit_char d1) (String (digit_char d2) s)
          | _ => String (digit_char d1) (String (digit_char d2) s)
          end = String (digit_char d1) (String (digit_char d2) s)) as ->.
  { rewrite Hx2. by destruct (digit_char d1) as [[] [] [] [] [] [] [] []]. }
  by destruct (read_digits 16 _ 0 0) as [[v count] rest].
Qed.

(** [parseInt(text, 16)] of six digits. *)
Lemma hex_parseInt_fixed v :
  (v < 2 ^ 24)%N → hex_parseInt (fixed_digits 6 16 v) = int (Z.of_N v).
Proof.
  intros Hv.
  pose proof (read_fixed_digits 16 6 v "" 0 0 (or_intror eq_refl) Hv) as Hread.
  rewrite append_nil_r in Hread.
  rewrite (fixed_digits_head 16 5), (fixed_digits_head 16 4) in * by done.
  rewrite hex_parseInt_plain by (by apply N.mod_lt).
  rewrite Hread. by cbn [read_digits].
Qed.

(** The bytes of [(r * 256 + g) * 256 + b]. *)
Lemma bytes_of r g b :
  (0 ≤ r < 256)%Z → (0 ≤ g < 256)%Z → (0 ≤ b < 256)%Z →
  let v := ((r * 256 + g) * 256 + b)%Z in
  Z.land (Z.shiftr v 16) 255 = r ∧ Z.land (Z.shiftr v 8) 255 = g ∧ Z.land v 255 = b.
Proof.
  intros Hr Hg Hb v. change 255%Z with (Z.ones 8).
  rewrite !Z.land_ones, !Z.shiftr_div_pow2 by lia. unfold v.
  change (2 ^ 16)%Z with 65536%Z. change (2 ^ 8)%Z with 256%Z.
  split_and!.
  - rewrite Z.mod_small; [|split; [apply Z.div_pos; lia | apply Z.div_lt_upper_bound; lia]].
    symmetry. apply (Z.div_unique _ _ _ (g * 256 + b)); lia.
  - assert (((r * 256 + g) * 256 + b) / 256 = r * 256 + g)%Z as ->.
    { symmetry. apply (Z.div_unique _ _ _ b); lia. }
    symmetry. apply (Z.mod_unique _ _ r); lia.
  - symmetry. apply (Z.mod_unique _ _ (r * 256 + g)); lia.
Qed.

(** [hexToColor] of the text of three bytes: each byte over 255. *)
Lemma hexToColor_text r g b :
  (r < 256)%N → (g < 256)%N → (b < 256)%N →
  hexToColor hex_parseInt (hex_color_text r g b) =
  mkColor (js_div (int (Z.of_N r)) (int 255)) (js_div (int (Z.of_N g)) (int 255))
          (js_div (int (Z.of_N b)) (int 255)).
Proof.
  intros Hr Hg Hb. unfold hexToColor. rewrite hex_color_text_digits by done.
  cbn [slice1 String.append]. rewrite append_cons, append_nil_l. cbn [slice1].
  rewrite hex_parseInt_fixed by lia. rewrite ToInt32_int by lia.
  destruct (bytes_of (Z.of_N r) (Z.of_N g) (Z.of_N b)) as (B1 & B2 & B3); [lia..|].
  assert (Z.of_N ((r * 256 + g) * 256 + b) =
          (Z.of_N r * 256 + Z.of_N g) * 256 + Z.of_N b)%Z as -> by lia.
  by rewrite B1, B2, B3.
Qed.

Lemma Qc_antisym (p q : Qc) : (p ≤ q)%Qc → ¬ (p < q)%Qc → p = q.
Proof. intros H1 H2. apply Qcle_antisym; [done | by apply Qcnot_lt_le]. Qed.

Lemma clamp01_id q : (0 ≤ q)%Qc → (q ≤ 1)%Qc → clamp01 (Fin q) = Fin q.
Proof.
  intros H0 H1. unfold clamp01, int, lit, Math_min, Math_max. simpl.
  destruct (bool_decide (q < 1)%Qc) eqn:E1; simpl.
  - destruct (bool_decide (Q2Qc 0 < q)%Qc) eqn:E2; simpl; [done|].
    apply bool_decide_eq_false in E2. f_equal. by apply Qc_antisym.
  - apply bool_decide_eq_false in E1.
    destruct (bool_decide (Q2Qc 0 < 1)%Qc) eqn:E2; simpl; [|done].
    f_equal. symmetry. by apply Qc_antisym.
Qed.

(** A byte over 255 is written back as the byte. *)
Lemma channel_byte_ratio r :
  (r < 256)%N → channel_byte (js_div (int (Z.of_N r)) (int 255)) = r.
Proof.
  intros Hr. unfold channel_byte.
  assert (js_div (int (Z.of_N r)) (int 255) = Fin (Q2Qc (Z.of_N r # 255))) as ->.
  { unfold int, lit. rewrite js_div_fin by (intros H; by apply (f_equal this) in H).
    f_equal. apply Qc_is_canon. simpl. rewrite !Qred_correct.
    unfold Qeq, Qdiv, Qmult, Qinv. simpl. lia. }
  rewrite clamp01_id.
  - assert (js_mul (Fin (Q2Qc (Z.of_N r # 255))) (int 255) = int (Z.of_N r)) as ->.
    { unfold int, lit. simpl. f_equal. apply Qc_is_canon. simpl. rewrite !Qred_correct.
      unfold Qeq. simpl. lia. }
    rewrite Math_round_int, ToInt32_int by lia. lia.
  - unfold Qcle. simpl. rewrite !Qred_correct. unfold Qle. simpl. lia.
  - unfold Qcle. simpl. rewrite !Qred_correct. unfold Qle. simpl. lia.
Qed.

Lemma ratio_not_NaN n : Number_isNaN (js_div (int n) (int 255)) = false.
Proof.
  unfold int, lit. by rewrite js_div_fin by (intros H; by apply (f_equal this) in H).
Qed.

(** The text of a colour field, read by [hexToColor] and written again by
    [colorToHex], is the same text: for every text [#rrggbb] in lower case,
    as a colour input hands it out, the form built after the commit shows
    the colour that was picked. *)
Theorem picked_colour_is_shown_again (r g b : N) :
  (r < 256)%N → (g < 256)%N → (b < 256)%N →
  colorToHex (hexToColor hex_parseInt (hex_color_text r g b)) =
  Some (hex_color_text r g b).
Proof.
  intros Hr Hg Hb. rewrite hexToColor_text by done.
  rewrite colorToHex_text. cbn [c_r c_g c_b].
  rewrite !channel_byte_ratio by done.
  by rewrite ratio_not_NaN.
Qed.

(** [colorToHex] writes [#] and six hexadecimal digits in lower case: two
    for each channel, clamped to [0, 1], scaled to 255 and rounded; a red
    or green channel that is [NaN] counts as 0.  A blue channel that is
    [NaN] makes the sum [NaN], and the text is [#aN]. *)
Theorem colorToHex_writes_six_digits (color : Color) :
  colorToHex color =
  Some (if Number_isNaN (c_b color) then "#aN"
        else hex_color_text (channel_byte (c_r color)) (channel_byte (c_g color))
               (channel_byte (c_b color))).
Proof. apply colorToHex_text. Qed.

(** The colour that [hexToColor] reads from the text [colorToHex] writes
    for a colour: each channel clamped to [0, 1], scaled to 255, rounded
    and divided by 255 again - the colour as the colour field shows it, a
    multiple of 1/255 in each channel. *)
Theorem colour_field_quantises (color : Color) :
  Number_isNaN (c_b color) = false →
  hexToColor hex_parseInt <$> colorToHex color =
  Some (mkColor (js_div (int (Z.of_N (channel_byte (c_r color)))) (int 255))
                (js_div (int (Z.of_N (channel_byte (c_g color)))) (int 255))
                (js_div (int (Z.of_N (channel_byte (c_b color)))) (int 255))).
Proof.
  intros Hb. rewrite colorToHex_text, Hb. simpl.
  by rewrite hexToColor_text by apply channel_byte_bound.
Qed.

(** [picked_colour_is_shown_again] on the colour #ff8000. *)
Lemma picked_colour_is_shown_again_witness :
  hex_color_text 255 128 0 = "#ff8000" ∧
  colorToHex (hexToColor hex_parseInt "#ff8000") = Some "#ff8000".
Proof.
  split; [done|].
  apply (picked_colour_is_shown_again 255 128 0); done.
Defined.

(** [colour_field_quantises] on the default colour of a new cube, whose
    green channel 0.761 is shown as 0xc2 and read back as 194/255. *)
Lemma colour_field_quantises_witness :
  let color := mkColor (lit 10 10) (lit 761 1000) (lit 392 1000) in
  colorToHex color = Some "#ffc264" ∧
  hexToColor hex_parseInt <$> colorToHex color =
    Some (mkColor (js_div (int 255) (int 255)) (js_div (int 194) (int 255))
            (js_div (int 100) (int 255))).
Proof.
  intros color. split; [by vm_compute|].
  etrans; [apply (colour_field_quantises color eq_refl)|]. by_decision.
Defined.

(** ** Fixed-point notation and the camera form *)

Lemma slice_split n s : slice_to n s +:+ slice_from n s = s.
Proof.
  revert s. induction n as [|n IH]; intros s; [by destruct s|].
  destruct s as [|c s]; [done|]. cbn [slice_to slice_from].
  by rewrite append_cons, IH.
Qed.

Lemma length_slice_from n s :
  String.length (slice_from n s) = String.length s - n.
Proof.
  revert s. induction n as [|n IH]; intros s; [destruct s; simpl; lia|].
  destruct s as [|c s]; [done|]. cbn [slice_from]. simpl. apply IH.
Qed.

Lemma only_digits_app base s1 s2 :
  only_digits base (s1 +:+ s2) = only_digits base s1 && only_digits base s2.
Proof.
  induction s1 as [|c s1 IH]; [done|]. rewrite append_cons. cbn [only_digits].
  by rewrite IH, andb_assoc.
Qed.

Lemma only_digits_zeros k : only_digits 10 (zeros k) = true.
Proof. induction k as [|k IH]; [done|]. cbn [zeros only_digits]. by rewrite IH. Qed.

(** Reading a text of digits in front of another text. *)
Lemma read_only_digits base s :
  only_digits base s = true →
  ∃ v, ∀ rest acc count,
    read_digits base (s +:+ rest) acc count =
    read_digits base rest (acc * base ^ N.of_nat (String.length s) + v)%N
      (count + String.length s).
Proof.
  induction s as [|c s IH]; intros H.
  - exists 0%N. intros rest acc count. rewrite append_nil_l. simpl.
    f_equal; lia.
  - cbn [only_digits] in H. apply andb_true_iff in H as [Hc Hs].
    apply bool_decide_eq_true in Hc as [d Hd].
    destruct (IH Hs) as [v Hv].
    exists (d * base ^ N.of_nat (String.length s) + v)%N.
    intros rest acc count. rewrite append_cons. cbn [read_digits]. rewrite Hd, Hv.
    cbn [String.length]. rewrite Nat2N.inj_succ, N.pow_succ_r'. f_equal; lia.
Qed.

Lemma read_end base acc count : read_digits base "" acc count = (acc, count, "").
Proof. done. Qed.

Lemma read_point base s acc count :
  base = 10%N → read_digits base (String "." s) acc count = (acc, count, String "." s).
Proof. by intros ->. Qed.

(** The digits of a number are digits, and read back as the number. *)
Lemma N_digits_read base n :
  base = 10%N ∨ base = 16%N →
  only_digits base (N_digits base n) = true ∧
  ∀ rest acc count,
    read_digits base (N_digits base n +:+ rest) acc count =
    read_digits base rest
      (acc * base ^ N.of_nat (String.length (N_digits base n)) + n)%N
      (count + String.length (N_digits base n)).
Proof.
  intros Hb. assert (2 ≤ base)%N as Hb2 by (destruct Hb; lia).
  induction n as [n IH] using (well_founded_induction N.lt_wf_0).
  assert (∀ d, (d < base)%N →
            only_digits base (String (digit_char d) "") = true ∧
            ∀ rest acc count,
              read_digits base (String (digit_char d) "" +:+ rest) acc count =
              read_digits base rest (acc * base ^ N.of_nat 1 + d)%N (count + 1)) as Hone.
  { intros d Hd. pose proof (digit_value_char base d Hb Hd) as Hv. split.
    - cbn [only_digits]. by rewrite Hv.
    - intros rest acc count. rewrite append_cons, append_nil_l. cbn [read_digits].
      rewrite Hv. change (N.of_nat 1) with 1%N. rewrite N.pow_1_r. f_equal; lia. }
  destruct (N.eq_dec n 0%N) as [->|Hn].
  { change (N_digits base 0) with (String (digit_char 0) ""). apply Hone. lia. }
  rewrite (N_digits_step base n) by lia.
  destruct (n / base =? 0)%N eqn:Eq.
  - apply N.eqb_eq in Eq. rewrite append_nil_l.
    assert (n mod base = n)%N as ->.
    { pose proof (N.Div0.div_mod n base). rewrite Eq in *. lia. }
    apply Hone. pose proof (N.Div0.div_mod n base) as Hdm. rewrite Eq in Hdm.
    pose proof (N.mod_lt n base). lia.
  - apply N.eqb_neq in Eq.
    assert (n / base < n)%N as Hlt by (apply N.div_lt; lia).
    destruct (IH _ Hlt) as [Ho Hr].
    destruct (Hone (n mod base)%N) as [Ho1 Hr1]; [apply N.mod_lt; lia|].
    split.
    + by rewrite only_digits_app, Ho, Ho1.
    + intros rest acc count. rewrite append_assoc, Hr, Hr1.
      rewrite length_append. cbn [String.length].
      rewrite Nat2N.inj_add, N.pow_add_r. change (N.of_nat 1) with 1%N.
      rewrite N.pow_1_r. f_equal; [|lia].
      pose proof (N.Div0.div_mod n base) as Hdm. nia.
Qed.

Lemma read_digits_cons base c d s acc count :
  digit_value base c = Some d →
  read_digits base (String c s) acc count = read_digits base s (base * acc + d)%N (S count).
Proof. intros H. simpl. by rewrite H. Qed.

Lemma read_zeros j rest acc count :
  read_digits 10 (zeros j +:+ rest) acc count =
  read_digits 10 rest (acc * 10 ^ N.of_nat j)%N (count + j).
Proof.
  revert acc count. induction j as [|j IH]; intros acc count.
  - rewrite append_nil_l. simpl. f_equal; lia.
  - cbn [zeros]. rewrite append_cons, (read_digits_cons 10 "0" 0) by done. rewrite IH.
    rewrite Nat2N.inj_succ, N.pow_succ_r'. f_equal; lia.
Qed.

(** A decimal digit is no space, no sign and not the first letter of
    [Infinity]. *)
Lemma decimal_digit_plain c s :
  is_Some (digit_value 10 c) →
  is_space c = false ∧ read_sign (String c s) = (false, String c s) ∧
  String.prefix "Infinity" (String c s) = false ∧ String c s ≠ "".
Proof.
  intros [d Hd]. revert Hd.
  destruct c as [[] [] [] [] [] [] [] []]; vm_compute; intros; try discriminate;
    split_and!; done.
Qed.

Lemma length_slice_to n s :
  n ≤ String.length s → String.length (slice_to n s) = n.
Proof.
  intros Hn. pose proof (f_equal String.length (slice_split n s)) as H.
  rewrite length_append, length_slice_from in H. lia.
Qed.

Lemma length_zeros k : String.length (zeros k) = k.
Proof. induction k as [|k IH]; simpl; [done | by rewrite IH]. Qed.

Lemma padded_facts f n :
  only_digits 10 (padded f n) = true ∧ f < String.length (padded f n) ∧
  ∀ rest, read_digits 10 (padded f n +:+ rest) 0 0 =
          read_digits 10 rest n (String.length (padded f n)).
Proof.
  destruct (N_digits_read 10 n (or_introl eq_refl)) as [Ho Hr].
  unfold padded. case_bool_decide as Hk.
  - split_and!.
    + by rewrite only_digits_app, only_digits_zeros, Ho.
    + rewrite length_append, length_zeros. lia.
    + intros rest. rewrite append_assoc, read_zeros, Hr.
      rewrite length_append, length_zeros. f_equal; lia.
  - split_and!; [done | lia |]. intros rest. rewrite Hr. f_equal; lia.
Qed.

(** The text with the point put in, read as a decimal literal. *)
Lemma read_decimal_fixed f n :
  0 < f →
  let m := padded f n in
  let k := String.length m in
  let text := slice_to (k - f) m +:+ "." +:+ slice_from (k - f) m in
  (∃ c s, text = String c s ∧ is_Some (digit_value 10 c)) ∧
  read_decimal text = Some (Q2Qc (Z.of_N n # Z.to_pos (10 ^ Z.of_nat f)), "").
Proof.
  intros Hf m k text.
  destruct (padded_facts f n) as (Ho & Hlen & Hread). fold m in Ho, Hlen, Hread.
  fold k in Hlen, Hread.
  pose proof (slice_split (k - f) m) as Hsplit.
  set (a := slice_to (k - f) m) in *. set (b := slice_from (k - f) m) in *.
  assert (String.length a = k - f) as Ha by (apply length_slice_to; unfold k; lia).
  assert (String.length b = f) as Hb.
  { unfold b. rewrite length_slice_from. fold k. lia. }
  rewrite <- Hsplit, only_digits_app in Ho. apply andb_true_iff in Ho as [Hoa Hob].
  destruct (read_only_digits 10 a Hoa) as [va Hva].
  destruct (read_only_digits 10 b Hob) as [vb Hvb].
  assert (n = va * 10 ^ N.of_nat f + vb)%N as Hn.
  { specialize (Hread ""). rewrite <- Hsplit, append_assoc, Hva, Hvb in Hread.
    rewrite read_end in Hread. rewrite Hb in Hread. simpl in Hread.
    injection Hread as Hread _. lia. }
  split.
  - destruct a as [|c a']; [simpl in Ha; lia|]. exists c, (a' +:+ "." +:+ b).
    split; [done|]. cbn [only_digits] in Hoa. apply andb_true_iff in Hoa as [Hc _].
    by apply bool_decide_eq_true in Hc.
  - unfold read_decimal, text.
    change ("." +:+ b) with (String "." b).
    rewrite Hva, (read_point 10) by done.
    rewrite <- (append_nil_r b) at 1. rewrite Hvb, read_end.
    rewrite Ha, Hb. simpl (0 * _ + _)%N.
    destruct (0 + (k - f) + (0 + f)) as [|j] eqn:Ej; [lia|].
    cbn [read_exponent]. rewrite !N.mul_0_l, !N.add_0_l. change (0 + f) with f.
    simpl (Z.max 0 0). simpl (Z.max (- 0) 0). rewrite Z.pow_0_r, !Z.mul_1_r.
    by rewrite Hn.
Qed.

(** [Number] of a fixed-point text. *)
Lemma decimal_Number_fixed negative c s q :
  is_Some (digit_value 10 c) →
  read_decimal (String c s) = Some (q, "") →
  decimal_Number (sign_text negative +:+ String c s) = overflow negative q.
Proof.
  intros Hc Hread.
  destruct (decimal_digit_plain c s Hc) as (Hs & Hr & Hp & _).
  unfold decimal_Number. destruct negative.
  - change (sign_text true +:+ String c s) with (String "-" (String c s)).
    cbn [skip_spaces]. change (is_space "-") with false. cbv iota.
    change (read_sign (String "-" (String c s))) with (true, String c s).
    cbv iota. by rewrite Hp, Hread.
  - change (sign_text false +:+ String c s) with (String c s).
    cbn [skip_spaces]. rewrite Hs, Hr. cbv iota. by rewrite Hp, Hread.
Qed.

(** Closed powers of ten, written out. *)
Ltac powers_of_ten :=
  repeat match goal with
         | |- context [(10 ^ ?k)%Z] =>
             let c := eval vm_compute in (10 ^ k)%Z in change (10 ^ k)%Z with c
         | H : context [(10 ^ ?k)%Z] |- _ =>
             let c := eval vm_compute in (10 ^ k)%Z in change (10 ^ k)%Z with c in H
         end.

Lemma nearest_bound f x :
  f ≤ 3 → (0 ≤ x)%Qc → (x < Q2Qc (10 ^ 21 # 1))%Qc →
  (Z.of_N (nearest f x) < 10 ^ 25)%Z.
Proof.
  intros Hf H0 H1. unfold nearest.
  assert (this (x * Q2Qc (10 ^ Z.of_nat f # 1) + Q2Qc (1 # 2))%Qc ==
          this x * (10 ^ Z.of_nat f # 1) + (1 # 2))%Q as E.
  { simpl. by rewrite !Qred_correct. }
  rewrite (Qfloor_comp _ _ E). clear E.
  unfold Qcle, Qclt in *. simpl in H0, H1.
  change (Qred 0) with 0%Q in H0. rewrite Qred_correct in H1.
  assert (Qfloor (this x * (10 ^ Z.of_nat f # 1) + (1 # 2)) ≤
          Qfloor (1000000000000000000000001 # 1))%Z as Hle.
  { apply Qfloor_resp_le.
    assert (f = 0 ∨ f = 1 ∨ f = 2 ∨ f = 3) as [->|[->|[->| ->]]] by lia;
      powers_of_ten; simpl; lra. }
  change (Qfloor (1000000000000000000000001 # 1)) with (10 ^ 24 + 1)%Z in Hle.
  assert (10 ^ 24 + 1 < 10 ^ 25)%Z by done. lia.
Qed.

Lemma overflow_small negative n d :
  (0 ≤ n < 10 ^ 25)%Z →
  overflow negative (Q2Qc (n # d)) =
  Fin (Q2Qc ((if negative then - n else n) # d)).
Proof.
  intros Hn. unfold overflow. rewrite bool_decide_eq_false_2.
  - f_equal. destruct negative; [|done]. apply Qc_is_canon. simpl.
    rewrite !Qred_correct. unfold Qeq. simpl. lia.
  - unfold Qcle. simpl. rewrite !Qred_correct. unfold Qle. simpl.
    assert (10 ^ 25 < 2 ^ 1024 - 2 ^ 970)%Z as Hbig by done.
    generalize dependent (2 ^ 1024 - 2 ^ 970)%Z. intros P HP. nia.
Qed.

(** The text [toFixed] writes for a finite number in range, read by
    [Number], is the number rounded. *)
Lemma Number_of_toFixed f v :
  0 < f ≤ 3 → in_range v →
  ∃ text, Number_toFixed f v = Some text ∧ decimal_Number text = round_to f v.
Proof.
  intros Hf (q & -> & Hq). unfold Number_toFixed, round_to.
  rewrite bool_decide_eq_false_2 by (by apply Qclt_not_le).
  destruct f as [|f']; [lia|]. set (f := S f') in *.
  destruct (read_decimal_fixed f (nearest f (Qcabs q))) as [(c & s & Etext & Hc) Hread];
    [lia|].
  fold (padded f (nearest f (Qcabs q))).
  eexists. split; [reflexivity|].
  rewrite Etext in *. rewrite (decimal_Number_fixed _ c s _ Hc Hread).
  apply overflow_small. split; [lia|]. apply nearest_bound; [lia | | done].
  apply Qcabs_nonneg.
Qed.

Lemma N_digits_cons n :
  ∃ c s, N_digits 10 n = String c s ∧ is_Some (digit_value 10 c).
Proof.
  destruct (N_digits_read 10 n (or_introl eq_refl)) as [Ho _].
  destruct (N_digits 10 n) as [|c s] eqn:E.
  - exfalso. destruct (N.eq_dec n 0%N) as [->|Hn]; [done|].
    rewrite (N_digits_step 10 n) in E by lia.
    apply (f_equal String.length) in E. rewrite length_append in E. simpl in E. lia.
  - exists c, s. split; [done|]. cbn [only_digits] in Ho.
    apply andb_true_iff in Ho as [Hc _]. by apply bool_decide_eq_true in Hc.
Qed.

Lemma read_decimal_integer n :
  read_decimal (N_digits 10 n) = Some (Q2Qc (Z.of_N n # 1), "").
Proof.
  destruct (N_digits_read 10 n (or_introl eq_refl)) as [_ Hr].
  destruct (N_digits_cons n) as (c & s & E & _).
  unfold read_decimal. rewrite <- (append_nil_r (N_digits 10 n)), Hr, read_end.
  rewrite E. cbn [String.length]. rewrite Nat.add_0_l, Nat.add_0_r.
  cbn [read_exponent]. simpl (Z.max 0 0). simpl (Z.max (- 0) 0).
  change (N.of_nat 0) with 0%N. change (Z.of_nat 0) with 0%Z.
  rewrite N.mul_0_l, N.add_0_l, N.pow_0_r, N.mul_1_r, N.add_0_r.
  rewrite !Z.pow_0_r, Z.mul_1_r. done.
Qed.

Lemma in_range_int n : in_range (int n) → (Z.abs n < 10 ^ 21)%Z.
Proof.
  intros (q & Hq & Hlt). unfold int, lit in Hq. injection Hq as <-.
  unfold Qclt in Hlt. simpl in Hlt.
  rewrite (Qred_identity (n # 1)) in Hlt by apply Z.gcd_1_r.
  rewrite Qred_correct in Hlt. unfold Qlt, Qabs.Qabs in Hlt. simpl in Hlt. lia.
Qed.

(** The text of a positive integer in range, read by [Number], is the
    integer. *)
Lemma Number_of_toString v :
  positive_integer v → in_range v →
  ∃ text, Number_toString 10 v = Some text ∧ decimal_Number text = v.
Proof.
  intros (n & Hn & ->) Hr. apply in_range_int in Hr.
  unfold Number_toString, int at 1, lit. rewrite this_int. simpl (Qden _). simpl (Qnum _).
  change (negb (1 =? 1)%positive) with false. cbv iota.
  rewrite (proj2 (Z.leb_gt _ _)) by done. rewrite andb_false_r.
  rewrite (proj2 (Z.ltb_ge _ _)) by lia.
  eexists. split; [reflexivity|].
  destruct (N_digits_cons (Z.abs_N n)) as (c & s & E & Hc).
  pose proof (read_decimal_integer (Z.abs_N n)) as Hread. rewrite E in *.
  rewrite (decimal_Number_fixed false c s _ Hc Hread).
  rewrite overflow_small by (split; [lia|]; assert (10 ^ 21 < 10 ^ 25)%Z by done; lia).
  unfold int, lit. do 3 f_equal. lia.
Qed.

(** The value of [toFixed] of a number in range is far from the overflow
    of binary64. *)
Lemma round_to_finite f v :
  f ≤ 3 → in_range v → Number_isFinite (to_binary64 (round_to f v)) = true.
Proof.
  intros Hf (q & -> & Hq). unfold round_to. cbn [to_binary64].
  pose proof (nearest_bound f (Qcabs q) Hf (Qcabs_nonneg q) Hq) as Hn.
  set (n := Z.of_N (nearest f (Qcabs q))) in *.
  assert (0 ≤ n)%Z as Hn0 by (unfold n; lia).
  apply round64_finite_fraction. simpl.
  assert (10 ^ 25 < 2 ^ 1000)%Z by done.
  destruct (bool_decide (q < 0)%Qc); nia.
Qed.

Lemma parseNumber_round f v text fallback :
  f ≤ 3 → in_range v → decimal_Number text = round_to f v →
  parseNumber binary64_Number text fallback = read_back_from f v.
Proof.
  intros Hf Hv H. unfold parseNumber, binary64_Number, read_back_from. rewrite H.
  by rewrite round_to_finite.
Qed.

Lemma resolution_kept v text fallback :
  positive_integer v → binary64 v = true → decimal_Number text = v →
  Math_max (int 1) (Math_round (parseNumber binary64_Number text fallback)) = v.
Proof.
  intros (n & Hn & ->) Hb H. unfold parseNumber, binary64_Number. rewrite H.
  assert (to_binary64 (int n) = int n) as -> by (by apply round64_binary64).
  by apply resolution_unchanged.
Qed.

(** The camera form, filled in by [populateCameraForm] and read back by
    [updateCameraStateFromForm], as happens when a field of the form is
    committed after an import or a 'Sync from view'.  For a camera state of
    binary64 values below 10^21: every text is written, and the camera
    state read back is the state the form shows - each coordinate rounded
    to three decimals and the field of view to two, halves of the binary64
    value away from zero, and the decimal then read as the nearest
    binary64 value; width and height stay.  The stored values are not used
    as fallbacks. *)
Theorem camera_form_reads_back_rounded (c : CameraState) (st : State) :
  camera_in_range c → camera_binary64 c →
  ∃ formData,
    populateCameraForm c = Some formData ∧
    cameraState (updateCameraStateFromForm binary64_Number formData st) = shown_camera c.
Proof.
  intros ((P1 & P2 & P3) & (L1 & L2 & L3) & (U1 & U2 & U3) & F & (W & Wr) & (H & Hr)).
  intros (_ & _ & _ & _ & Wb & Hb).
  assert (0 < 3 ≤ 3 ∧ 0 < 2 ≤ 3) as [H3 H2] by lia.
  destruct (Number_of_toFixed 3 _ H3 P1) as (t1 & E1 & N1).
  destruct (Number_of_toFixed 3 _ H3 P2) as (t2 & E2 & N2).
  destruct (Number_of_toFixed 3 _ H3 P3) as (t3 & E3 & N3).
  destruct (Number_of_toFixed 3 _ H3 L1) as (t4 & E4 & N4).
  destruct (Number_of_toFixed 3 _ H3 L2) as (t5 & E5 & N5).
  destruct (Number_of_toFixed 3 _ H3 L3) as (t6 & E6 & N6).
  destruct (Number_of_toFixed 3 _ H3 U1) as (t7 & E7 & N7).
  destruct (Number_of_toFixed 3 _ H3 U2) as (t8 & E8 & N8).
  destruct (Number_of_toFixed 3 _ H3 U3) as (t9 & E9 & N9).
  destruct (Number_of_toFixed 2 _ H2 F) as (t10 & E10 & N10).
  destruct (Number_of_toString _ W Wr) as (t11 & E11 & N11).
  destruct (Number_of_toString _ H Hr) as (t12 & E12 & N12).
  unfold populateCameraForm.
  rewrite E1, E2, E3, E4, E5, E6, E7, E8, E9, E10, E11, E12. simpl.
  eexists. split; [reflexivity|].
  unfold updateCameraStateFromForm, shown_camera, shown_vec, vec.
  cbn [cameraState refreshSceneJson set_sceneJsonText set_cameraState
       f_posX f_posY f_posZ f_lookX f_lookY f_lookZ f_upX f_upY f_upZ f_fov
       f_width f_height].
  assert (3 ≤ 3 ∧ 2 ≤ 3) as [G3 G2] by lia.
  rewrite (parseNumber_round _ _ _ _ G3 P1 N1), (parseNumber_round _ _ _ _ G3 P2 N2),
    (parseNumber_round _ _ _ _ G3 P3 N3), (parseNumber_round _ _ _ _ G3 L1 N4),
    (parseNumber_round _ _ _ _ G3 L2 N5), (parseNumber_round _ _ _ _ G3 L3 N6),
    (parseNumber_round _ _ _ _ G3 U1 N7), (parseNumber_round _ _ _ _ G3 U2 N8),
    (parseNumber_round _ _ _ _ G3 U3 N9), (parseNumber_round _ _ _ _ G2 F N10).
  f_equal; [exact (resolution_kept _ _ _ W Wb N11) | exact (resolution_kept _ _ _ H Hb N12)].
Qed.

(** [camera_form_reads_back_rounded] on a camera state with the binary64
    values nearest to 1.0005 and to 1.005, which are below them, with the
    halves 1.0625 and 12.375, and with -2.5: the form shows 1.000 and 1.00,
    1.063 and 12.38, and -2.500. *)
Lemma camera_form_reads_back_rounded_witness :
  let c :=
    mkCameraState (vec (binary64_Number "1.0005") (lit 17 16) (lit (-5) 2))
      (vec (int 0) (int 1) (int 0)) (vec (lit 99 8) (int 1) (int 0))
      (binary64_Number "1.005") (int 640) (int 480) in
  populateCameraForm c =
    Some (mkCameraForm "1.000" "1.063" "-2.500" "0.000" "1.000" "0.000"
            "12.375" "1.000" "0.000" "1.00" "640" "480") ∧
  ∃ formData,
    populateCameraForm c = Some formData ∧
    cameraState (updateCameraStateFromForm binary64_Number formData initial_state) =
      shown_camera c.
Proof.
  intros c. split; [by vm_compute|].
  apply (camera_form_reads_back_rounded c initial_state).
  - assert (∀ v, (match v with
                  | Fin q => bool_decide (Qcabs q < Q2Qc (10 ^ 21 # 1))%Qc
                  | _ => false
                  end = true) → in_range v) as Hin.
    { intros [q| | |] Hq; try done. exists q. split; [done|].
      by apply bool_decide_eq_true in Hq. }
    repeat split; try (apply Hin; by vm_compute).
    + by exists 640%Z.
    + by exists 480%Z.
  - repeat split; by vm_compute.
Defined.
